(** * mc-nbt: the tagged binary format, its text form and the region archive

    A shallow embedding of the JavaScript sources [nbt-core.js],
    [mca-handler.js], [snbt-converter.js] and [mc-nbt.js], and the
    properties of the codecs checked against it.

    Conventions of the embedding.
    - A Node [Buffer] is a [list byte]; a reader is a function of the
      buffer and an offset (a [Z], as the offset of the source can move
      backwards) returning [None] where the source throws.
    - A JavaScript string is the [string] of its UTF-8 bytes, so
      [Buffer.from(s, 'utf8')] and [buffer.toString('utf8', ..)] are the
      conversions between [string] and [list byte].
    - An integral [Number] or a [BigInt] is a [Z]; a Float or Double
      payload is the [Z] of its IEEE-754 bit pattern.
    - A JavaScript object used as a record of named tags is the
      association list of its own properties; assignment to a key replaces
      in place or appends, and assignment to [__proto__] adds nothing.
      The order of the list stands for the enumeration order. *)

From Stdlib Require Import ZArith List String Ascii Bool Lia Arith.
From Stdlib Require Import Strings.Byte DecimalString DecimalZ.
Import ListNotations.

Set Warnings "-register-all".
Local Open Scope Z_scope.

(** ** Option as the exception monad of the source *)

Definition obind {A B} (m : option A) (k : A -> option B) : option B :=
  match m with
  | Some a => k a
  | None => None
  end.

Notation "x <- m ;; k" := (obind m (fun x => k))
  (at level 61, m at next level, right associativity).
Notation "' p <- m ;; k" := (obind m (fun x => let p := x in k))
  (at level 61, p pattern, m at next level, right associativity).

(** ** Bytes and big-endian integers *)

Definition byte_of_Z (z : Z) : byte :=
  match Byte.of_N (Z.to_N (z mod 256)) with
  | Some b => b
  | None => x00
  end.

Definition Z_of_byte (b : byte) : Z := Z.of_N (Byte.to_N b).

(** [be_bytes n v]: the [n] low-order bytes of [v], most significant
    first (two's complement for a negative [v]). *)
Fixpoint be_bytes (n : nat) (v : Z) : list byte :=
  match n with
  | O => []
  | S k => byte_of_Z (Z.shiftr v (8 * Z.of_nat k)) :: be_bytes k v
  end.

Definition be_uint (bs : list byte) : Z :=
  fold_left (fun acc b => acc * 256 + Z_of_byte b) bs 0.

Definition to_signed (bits : Z) (v : Z) : Z :=
  if v <? 2 ^ (bits - 1) then v else v - 2 ^ bits.

(** ** The tag types ([TAG_TYPES] and [TYPE_NAMES]) *)

Inductive tagType :=
| END | BYTE | SHORT | INT | LONG | FLOAT | DOUBLE
| BYTE_ARRAY | STRING | LIST | COMPOUND | INT_ARRAY | LONG_ARRAY.

Definition TAG_TYPES (t : tagType) : Z :=
  match t with
  | END => 0 | BYTE => 1 | SHORT => 2 | INT => 3 | LONG => 4
  | FLOAT => 5 | DOUBLE => 6 | BYTE_ARRAY => 7 | STRING => 8
  | LIST => 9 | COMPOUND => 10 | INT_ARRAY => 11 | LONG_ARRAY => 12
  end.

(** [TYPE_NAMES[id]]; [None] is the [undefined] of an id that is not a
    key of the table. *)
Definition TYPE_NAMES (id : Z) : option tagType :=
  match id with
  | 0 => Some END | 1 => Some BYTE | 2 => Some SHORT | 3 => Some INT
  | 4 => Some LONG | 5 => Some FLOAT | 6 => Some DOUBLE
  | 7 => Some BYTE_ARRAY | 8 => Some STRING | 9 => Some LIST
  | 10 => Some COMPOUND | 11 => Some INT_ARRAY | 12 => Some LONG_ARRAY
  | _ => None
  end.

Definition tagType_eqb (a b : tagType) : bool := TAG_TYPES a =? TAG_TYPES b.

(** ** Tag values

    The [value] field of a tag object [{type, value}].  As in the source the
    value does not carry its own type: the type is held by the enclosing
    compound entry or list header. *)

Inductive payload :=
| PNum (z : Z)                      (* an integral Number *)
| PNaN                              (* the Number NaN, as parseInt may return *)
| PBig (z : Z)                      (* a BigInt *)
| PFloat (w : Z)                    (* a Number held by a Float tag *)
| PDouble (w : Z)                   (* a Number held by a Double tag *)
| PStr (s : string)
| PArr (elems : list payload)       (* the array of a typed array tag *)
| PList (ty : option tagType) (items : list payload)   (* {type, value:[..]} *)
| PObj (entries : list (string * (tagType * payload))). (* name -> {type, value} *)

(** A named tag, as returned by [readTag] and accepted by [NBT.stringify]. *)
Record document := Doc { doc_type : tagType; doc_name : string; doc_value : payload }.

(** The result of [readTag]: the End marker [{type:'end', value:null}] or a
    named tag. *)
Inductive readResult :=
| REnd
| RTag (d : document).

(** ** NBTWriter *)

Definition in_range (lo hi v : Z) : bool := (lo <=? v) && (v <=? hi).

Definition writeByte (v : Z) : option (list byte) :=
  if in_range (-128) 127 v then Some (be_bytes 1 v) else None.

Definition writeUByte (v : Z) : option (list byte) :=
  if in_range 0 255 v then Some (be_bytes 1 v) else None.

Definition writeShort (v : Z) : option (list byte) :=
  if in_range (-32768) 32767 v then Some (be_bytes 2 v) else None.

Definition writeInt (v : Z) : option (list byte) :=
  if in_range (-2147483648) 2147483647 v then Some (be_bytes 4 v) else None.

Definition writeLong (v : Z) : option (list byte) :=
  if in_range (- 2 ^ 63) (2 ^ 63 - 1) v then Some (be_bytes 8 v) else None.

(** [writeFloatBE] and [writeDoubleBE] store the bit pattern. *)
Definition writeFloat (w : Z) : option (list byte) :=
  if in_range 0 (2 ^ 32 - 1) w then Some (be_bytes 4 w) else None.

Definition writeDouble (w : Z) : option (list byte) :=
  if in_range 0 (2 ^ 64 - 1) w then Some (be_bytes 8 w) else None.

Definition writeString (s : string) : option (list byte) :=
  let strBuffer := list_byte_of_string s in
  len <- writeShort (Z.of_nat (List.length strBuffer)) ;;
  Some (len ++ strBuffer).

(** [array.forEach(x => this.write..(x))]: the chunks pushed in order, or
    the first exception. *)
Fixpoint forEach {A} (f : A -> option (list byte)) (l : list A) : option (list byte) :=
  match l with
  | [] => Some []
  | x :: r => b <- f x ;; bs <- forEach f r ;; Some (b ++ bs)
  end.

(** The writers applied to an untyped value.  Operands that Node would
    coerce to a number (a numeric string, say) are outside the model and
    make the modelled writer fail. *)
Definition writeByteP (p : payload) : option (list byte) :=
  match p with PNum z => writeByte z | _ => None end.

Definition writeIntP (p : payload) : option (list byte) :=
  match p with PNum z => writeInt z | _ => None end.

(** [writeLong] goes through [BigInt(value)], which takes both a BigInt and
    an integral Number. *)
Definition writeLongP (p : payload) : option (list byte) :=
  match p with PBig z | PNum z => writeLong z | _ => None end.

Definition writeArrayWith (f : payload -> option (list byte)) (array : list payload)
  : option (list byte) :=
  len <- writeInt (Z.of_nat (List.length array)) ;;
  bs <- forEach f array ;;
  Some (len ++ bs).

Fixpoint writeTagValue (type : tagType) (value : payload) {struct value}
  : option (list byte) :=
  match type, value with
  | BYTE, PNum z => writeByte z
  | SHORT, PNum z => writeShort z
  | INT, PNum z => writeInt z
  | LONG, (PBig z | PNum z) => writeLong z
  | FLOAT, PFloat w => writeFloat w
  | DOUBLE, PDouble w => writeDouble w
  | BYTE_ARRAY, PArr a => writeArrayWith writeByteP a
  | STRING, PStr s => writeString s
  | LIST, PList ty items =>
      (* writeList *)
      match items with
      | [] => t <- writeUByte (TAG_TYPES END) ;; n <- writeInt 0 ;; Some (t ++ n)
      | _ :: _ =>
          match ty with
          | None => None
          | Some listType =>
              t <- writeUByte (TAG_TYPES listType) ;;
              n <- writeInt (Z.of_nat (List.length items)) ;;
              bs <- forEach (writeTagValue listType) items ;;
              Some (t ++ n ++ bs)
          end
      end
  | COMPOUND, PObj entries =>
      (* writeCompound *)
      bs <- forEach (fun e : string * (tagType * payload) =>
                       let '(name, (ty, v)) := e in
                       t <- writeUByte (TAG_TYPES ty) ;;
                       n <- writeString name ;;
                       b <- writeTagValue ty v ;;
                       Some (t ++ n ++ b)) entries ;;
      e <- writeUByte (TAG_TYPES END) ;;
      Some (bs ++ e)
  | INT_ARRAY, PArr a => writeArrayWith writeIntP a
  | LONG_ARRAY, PArr a => writeArrayWith writeLongP a
  | _, _ => None
  end.

Definition writeTag (tag : document) (name : string) : option (list byte) :=
  t <- writeUByte (TAG_TYPES (doc_type tag)) ;;
  n <- writeString name ;;
  b <- writeTagValue (doc_type tag) (doc_value tag) ;;
  Some (t ++ n ++ b).

(** [NBT.stringify]: [nbtData.name || ''] is the name itself. *)
Definition stringify (nbtData : document) : option (list byte) :=
  writeTag nbtData (doc_name nbtData).

(** ** NBTReader

    The reader's state is its offset; the buffer is fixed. *)

Definition reader (A : Type) := Z -> option (A * Z).

(** Assignment under a key of an association list: in place if the key
    is there, at the end if not. *)
Fixpoint assoc_set {V} (k : string) (v : V) (o : list (string * V)) : list (string * V) :=
  match o with
  | [] => [(k, v)]
  | (k', v') :: r =>
      if String.eqb k' k then (k', v) :: r else (k', v') :: assoc_set k v r
  end.

(** Assignment [obj[k] = v] on an object literal held as the association
    list of its own properties.  The key [__proto__] is the accessor that
    the object inherits: assigning to it creates no own property. *)
Definition is_proto (k : string) : bool := String.eqb k "__proto__"%string.

Definition obj_set {V} (k : string) (v : V) (o : list (string * V)) : list (string * V) :=
  if is_proto k then o else assoc_set k v o.

Section Reader.

Variable buffer : list byte.

Definition buflen : Z := Z.of_nat (List.length buffer).

(** The [n] bytes at [off]; the [read..] methods of [Buffer] throw a
    [RangeError] unless [0 <= off] and [off + n <= buffer.length]. *)
Definition bytesAt (off n : Z) : option (list byte) :=
  if (0 <=? off) && (off + n <=? buflen)
  then Some (firstn (Z.to_nat n) (skipn (Z.to_nat off) buffer))
  else None.

Definition readByte : reader Z := fun off =>
  bs <- bytesAt off 1 ;; Some (to_signed 8 (be_uint bs), off + 1).

Definition readUByte : reader Z := fun off =>
  bs <- bytesAt off 1 ;; Some (be_uint bs, off + 1).

Definition readShort : reader Z := fun off =>
  bs <- bytesAt off 2 ;; Some (to_signed 16 (be_uint bs), off + 2).

Definition readInt : reader Z := fun off =>
  bs <- bytesAt off 4 ;; Some (to_signed 32 (be_uint bs), off + 4).

Definition readLong : reader Z := fun off =>
  bs <- bytesAt off 8 ;; Some (to_signed 64 (be_uint bs), off + 8).

Definition readFloat : reader Z := fun off =>
  bs <- bytesAt off 4 ;; Some (be_uint bs, off + 4).

Definition readDouble : reader Z := fun off =>
  bs <- bytesAt off 8 ;; Some (be_uint bs, off + 8).

(** [buffer.toString('utf8', start, end)]: both ends are clamped, and an
    empty or reversed range is the empty string; it never throws. *)
Definition toString (start end_ : Z) : string :=
  if start >=? buflen then EmptyString
  else
    let start := Z.max 0 start in
    let end_ := if end_ >? buflen then buflen else end_ in
    if end_ <=? start then EmptyString
    else string_of_list_byte
           (firstn (Z.to_nat (end_ - start)) (skipn (Z.to_nat start) buffer)).

Definition readString : reader string := fun off =>
  '(length, off) <- readShort off ;;
  if length =? 0 then Some (EmptyString, off)
  else Some (toString off (off + length), off + length).

(** [for (let i = 0; i < length; i++) array.push(read())] *)
Fixpoint readN {A} (read : reader A) (n : nat) : reader (list A) := fun off =>
  match n with
  | O => Some ([], off)
  | S k => '(x, off) <- read off ;; '(xs, off) <- readN read k off ;; Some (x :: xs, off)
  end.

Definition readArrayWith (read : reader payload) : reader payload := fun off =>
  '(length, off) <- readInt off ;;
  '(array, off) <- readN read (Z.to_nat length) off ;;
  Some (PArr array, off).

Definition readNumWith (read : reader Z) : reader payload := fun off =>
  '(v, off) <- read off ;; Some (PNum v, off).

Definition readBigWith (read : reader Z) : reader payload := fun off =>
  '(v, off) <- read off ;; Some (PBig v, off).

(** [readTag()] with both parameters defaulted, over a given
    [readTagValue]. *)
Definition readTagWith (readTagValue : Z -> reader payload) : reader readResult :=
  fun off =>
    '(type, off) <- readUByte off ;;
    if type =? TAG_TYPES END then Some (REnd, off)
    else
      '(name, off) <- readString off ;;
      '(value, off) <- readTagValue type off ;;
      match TYPE_NAMES type with
      | Some t => Some (RTag (Doc t name value), off)
      | None => None
      end.

(** The [while (true)] loop of [readCompound]; the fuel bounds the number
    of iterations. *)
Fixpoint readCompoundLoop (readTag : reader readResult) (fuel : nat)
    (compound : list (string * (tagType * payload))) : reader payload := fun off =>
  match fuel with
  | O => None
  | S fuel =>
      '(tag, off) <- readTag off ;;
      match tag with
      | REnd => Some (PObj compound, off)
      | RTag d =>
          readCompoundLoop readTag fuel
            (obj_set (doc_name d) (doc_type d, doc_value d) compound) off
      end
  end.

(** [readTagValue(type)], [readList] and [readCompound].  The source is
    not structurally recursive (a negative string length moves the offset
    backwards), hence the fuel: it bounds the nesting depth and the length
    of each compound; [None] also stands for its exhaustion. *)
Fixpoint readTagValue (fuel : nat) (type : Z) : reader payload := fun off =>
  match fuel with
  | O => None
  | S fuel =>
      match type with
      | 1 => readNumWith readByte off
      | 2 => readNumWith readShort off
      | 3 => readNumWith readInt off
      | 4 => readBigWith readLong off
      | 5 => '(w, off) <- readFloat off ;; Some (PFloat w, off)
      | 6 => '(w, off) <- readDouble off ;; Some (PDouble w, off)
      | 7 => readArrayWith (readNumWith readByte) off
      | 8 => '(s, off) <- readString off ;; Some (PStr s, off)
      | 9 =>
          (* readList *)
          '(listType, off) <- readUByte off ;;
          '(length, off) <- readInt off ;;
          '(list, off) <- readN (readTagValue fuel listType) (Z.to_nat length) off ;;
          Some (PList (TYPE_NAMES listType) list, off)
      | 10 => readCompoundLoop (readTagWith (readTagValue fuel)) fuel [] off
      | 11 => readArrayWith (readNumWith readInt) off
      | 12 => readArrayWith (readBigWith readLong) off
      | _ => None
      end
  end.

Definition readTag (fuel : nat) : reader readResult :=
  readTagWith (readTagValue fuel).

End Reader.

(** [NBT.parse]: the tag read at offset 0; bytes after it are ignored. *)
Definition parse (fuel : nat) (buffer : list byte) : option readResult :=
  '(tag, _) <- readTag buffer fuel 0 ;; Some tag.

(** * Properties of the byte-level primitives *)

Definition len {A} (l : list A) : Z := Z.of_nat (List.length l).

Lemma len_app {A} (a b : list A) : len (a ++ b) = len a + len b.
Proof. unfold len. rewrite length_app. lia. Qed.

Lemma len_nonneg {A} (l : list A) : 0 <= len l.
Proof. unfold len. lia. Qed.

Lemma to_nat_len {A} (l : list A) : Z.to_nat (len l) = List.length l.
Proof. unfold len. apply Nat2Z.id. Qed.

Lemma Z_of_byte_of_Z z : Z_of_byte (byte_of_Z z) = z mod 256.
Proof.
  unfold Z_of_byte, byte_of_Z.
  assert (Hr : 0 <= z mod 256 < 256) by (apply Z.mod_pos_bound; lia).
  destruct (Byte.of_N (Z.to_N (z mod 256))) as [b|] eqn:E.
  - apply Byte.to_of_N in E. rewrite E. lia.
  - apply Byte.of_N_None_iff in E. lia.
Qed.

Lemma Z_of_byte_range b : 0 <= Z_of_byte b < 256.
Proof.
  unfold Z_of_byte. pose proof (Byte.to_N_bounded b). lia.
Qed.

Lemma byte_of_Z_of_byte b : byte_of_Z (Z_of_byte b) = b.
Proof.
  unfold byte_of_Z. pose proof (Z_of_byte_range b) as Hr.
  rewrite Z.mod_small by lia. unfold Z_of_byte. rewrite N2Z.id.
  now rewrite Byte.of_to_N.
Qed.

Lemma length_be_bytes n v : List.length (be_bytes n v) = n.
Proof. induction n; simpl; congruence. Qed.

Lemma len_be_bytes n v : len (be_bytes n v) = Z.of_nat n.
Proof. unfold len. now rewrite length_be_bytes. Qed.

Lemma be_fold_bytes n v acc :
  fold_left (fun a b => a * 256 + Z_of_byte b) (be_bytes n v) acc
  = acc * 256 ^ Z.of_nat n + v mod 256 ^ Z.of_nat n.
Proof.
  revert acc. induction n as [|k IH]; intros acc.
  - simpl. rewrite Z.mod_1_r. lia.
  - cbn [be_bytes fold_left]. rewrite IH, Z_of_byte_of_Z.
    rewrite Nat2Z.inj_succ, Z.pow_succ_r by lia.
    rewrite Z.shiftr_div_pow2 by lia.
    replace (2 ^ (8 * Z.of_nat k)) with (256 ^ Z.of_nat k)
      by (change 256 with (2 ^ 8); rewrite <- Z.pow_mul_r by lia; reflexivity).
    assert (Hp : 0 < 256 ^ Z.of_nat k) by (apply Z.pow_pos_nonneg; lia).
    rewrite (Z.mul_comm 256 (256 ^ Z.of_nat k)).
    rewrite (Z.rem_mul_r v (256 ^ Z.of_nat k) 256) by lia.
    ring.
Qed.

Lemma be_uint_be_bytes n v : be_uint (be_bytes n v) = v mod 256 ^ Z.of_nat n.
Proof. unfold be_uint. rewrite be_fold_bytes. lia. Qed.

Lemma to_signed_mod bits v :
  0 < bits -> - 2 ^ (bits - 1) <= v < 2 ^ (bits - 1) ->
  to_signed bits (v mod 2 ^ bits) = v.
Proof.
  intros Hb Hv. unfold to_signed.
  assert (E : 2 ^ bits = 2 * 2 ^ (bits - 1)).
  { replace bits with (Z.succ (bits - 1)) at 1 by lia. apply Z.pow_succ_r. lia. }
  destruct (Z_lt_le_dec v 0) as [Hneg|Hpos].
  - replace (v mod 2 ^ bits) with (v + 2 ^ bits).
    + destruct (Z.ltb_spec (v + 2 ^ bits) (2 ^ (bits - 1))); lia.
    + apply Z.mod_unique with (q := -1); lia.
  - rewrite Z.mod_small by lia.
    destruct (Z.ltb_spec v (2 ^ (bits - 1))); lia.
Qed.

(** ** Buffers holding given bytes at a given offset *)

Definition has_at (buffer : list byte) (off : Z) (bs : list byte) : Prop :=
  bytesAt buffer off (len bs) = Some bs.

Lemma has_at_spec buffer off bs :
  has_at buffer off bs <->
  0 <= off /\ off + len bs <= len buffer /\
  firstn (List.length bs) (skipn (Z.to_nat off) buffer) = bs.
Proof.
  unfold has_at, bytesAt, buflen. fold (len buffer). rewrite to_nat_len.
  destruct (Z.leb_spec 0 off); destruct (Z.leb_spec (off + len bs) (len buffer));
    simpl; split; intros H1; try discriminate; try lia.
  - injection H1 as H1. auto.
  - destruct H1 as (_ & _ & ->). reflexivity.
Qed.

Lemma has_at_intro pre bs post : has_at (pre ++ bs ++ post) (len pre) bs.
Proof.
  apply has_at_spec. repeat split.
  - apply len_nonneg.
  - rewrite !len_app. pose proof (len_nonneg post). lia.
  - unfold len. rewrite Nat2Z.id, skipn_app, skipn_all, Nat.sub_diag. simpl.
    rewrite firstn_app, Nat.sub_diag, firstn_all. simpl. apply app_nil_r.
Qed.

Lemma has_at_whole bs : has_at bs 0 bs.
Proof.
  pose proof (has_at_intro [] bs []) as H. simpl in H.
  now rewrite app_nil_r in H.
Qed.

Lemma has_at_app buffer off a b :
  has_at buffer off (a ++ b) ->
  has_at buffer off a /\ has_at buffer (off + len a) b.
Proof.
  rewrite !has_at_spec, len_app. intros (H0 & H1 & H2).
  pose proof (len_nonneg a). pose proof (len_nonneg b).
  rewrite length_app in H2.
  assert (Ha : firstn (List.length a) (skipn (Z.to_nat off) buffer) = a).
  { apply (f_equal (firstn (List.length a))) in H2.
    rewrite firstn_firstn, Nat.min_l in H2 by lia.
    rewrite H2, firstn_app, Nat.sub_diag, firstn_all. simpl. apply app_nil_r. }
  repeat split; try lia; auto.
  replace (Z.to_nat (off + len a)) with (List.length a + Z.to_nat off)%nat
    by (unfold len; lia).
  rewrite <- skipn_skipn.
  apply (f_equal (skipn (List.length a))) in H2.
  rewrite skipn_app, skipn_all, Nat.sub_diag in H2. simpl in H2.
  rewrite skipn_firstn_comm in H2.
  replace (List.length a + List.length b - List.length a)%nat
    with (List.length b) in H2 by lia.
  exact H2.
Qed.

(** ** Reading back what a primitive writer wrote *)

Lemma in_range_spec lo hi v : in_range lo hi v = true <-> lo <= v <= hi.
Proof. unfold in_range. rewrite andb_true_iff, !Z.leb_le. tauto. Qed.

Lemma bytesAt_be buffer off n v k :
  has_at buffer off (be_bytes n v) -> k = Z.of_nat n ->
  bytesAt buffer off k = Some (be_bytes n v).
Proof. unfold has_at. intros H ->. now rewrite len_be_bytes in H. Qed.

Lemma Some_eq {A} (a b : A) : Some a = Some b -> a = b.
Proof. congruence. Qed.

Ltac write_inv H :=
  match type of H with
  | (if in_range ?lo ?hi ?v then _ else _) = Some _ =>
      let R := fresh "Hrange" in
      destruct (in_range lo hi v) eqn:R; [|discriminate H];
      apply in_range_spec in R; apply Some_eq in H; subst
  end.

Lemma readByte_write buffer off v bs :
  writeByte v = Some bs -> has_at buffer off bs ->
  readByte buffer off = Some (v, off + len bs).
Proof.
  unfold writeByte, readByte. intros H Hat. write_inv H.
  rewrite (bytesAt_be _ _ 1 v 1 Hat eq_refl), len_be_bytes. cbn [obind].
  rewrite be_uint_be_bytes. change (256 ^ Z.of_nat 1) with (2 ^ 8).
  rewrite to_signed_mod; [reflexivity | lia | simpl; lia].
Qed.

Lemma readUByte_write buffer off v bs :
  writeUByte v = Some bs -> has_at buffer off bs ->
  readUByte buffer off = Some (v, off + len bs).
Proof.
  unfold writeUByte, readUByte. intros H Hat. write_inv H.
  rewrite (bytesAt_be _ _ 1 v 1 Hat eq_refl), len_be_bytes. cbn [obind].
  rewrite be_uint_be_bytes. change (256 ^ Z.of_nat 1) with 256.
  rewrite Z.mod_small by lia. reflexivity.
Qed.

Lemma readShort_write buffer off v bs :
  writeShort v = Some bs -> has_at buffer off bs ->
  readShort buffer off = Some (v, off + len bs).
Proof.
  unfold writeShort, readShort. intros H Hat. write_inv H.
  rewrite (bytesAt_be _ _ 2 v 2 Hat eq_refl), len_be_bytes. cbn [obind].
  rewrite be_uint_be_bytes. change (256 ^ Z.of_nat 2) with (2 ^ 16).
  rewrite to_signed_mod; [reflexivity | lia | simpl; lia].
Qed.

Lemma readInt_write buffer off v bs :
  writeInt v = Some bs -> has_at buffer off bs ->
  readInt buffer off = Some (v, off + len bs).
Proof.
  unfold writeInt, readInt. intros H Hat. write_inv H.
  rewrite (bytesAt_be _ _ 4 v 4 Hat eq_refl), len_be_bytes. cbn [obind].
  rewrite be_uint_be_bytes. change (256 ^ Z.of_nat 4) with (2 ^ 32).
  rewrite to_signed_mod; [reflexivity | lia | simpl; lia].
Qed.

Lemma readLong_write buffer off v bs :
  writeLong v = Some bs -> has_at buffer off bs ->
  readLong buffer off = Some (v, off + len bs).
Proof.
  unfold writeLong, readLong. intros H Hat. write_inv H.
  rewrite (bytesAt_be _ _ 8 v 8 Hat eq_refl), len_be_bytes. cbn [obind].
  rewrite be_uint_be_bytes. change (256 ^ Z.of_nat 8) with (2 ^ 64).
  rewrite to_signed_mod; [reflexivity | lia | simpl in *; lia].
Qed.

Lemma readFloat_write buffer off w bs :
  writeFloat w = Some bs -> has_at buffer off bs ->
  readFloat buffer off = Some (w, off + len bs).
Proof.
  unfold writeFloat, readFloat. intros H Hat. write_inv H.
  rewrite (bytesAt_be _ _ 4 w 4 Hat eq_refl), len_be_bytes. cbn [obind].
  rewrite be_uint_be_bytes. change (256 ^ Z.of_nat 4) with (2 ^ 32).
  rewrite Z.mod_small by lia. reflexivity.
Qed.

Lemma readDouble_write buffer off w bs :
  writeDouble w = Some bs -> has_at buffer off bs ->
  readDouble buffer off = Some (w, off + len bs).
Proof.
  unfold writeDouble, readDouble. intros H Hat. write_inv H.
  rewrite (bytesAt_be _ _ 8 w 8 Hat eq_refl), len_be_bytes. cbn [obind].
  rewrite be_uint_be_bytes. change (256 ^ Z.of_nat 8) with (2 ^ 64).
  rewrite Z.mod_small by lia. reflexivity.
Qed.

Lemma obind_inv {A B} (m : option A) (k : A -> option B) r :
  obind m k = Some r -> exists a, m = Some a /\ k a = Some r.
Proof. destruct m; simpl; intros H; [eauto | discriminate]. Qed.

Lemma readString_write buffer off s bs :
  writeString s = Some bs -> has_at buffer off bs ->
  readString buffer off = Some (s, off + len bs).
Proof.
  unfold writeString, readString. intros H Hat.
  apply obind_inv in H as (l & Hl & H). injection H as <-.
  apply has_at_app in Hat as [Hat1 Hat2].
  rewrite (readShort_write _ _ _ _ Hl Hat1). cbn [obind].
  rewrite len_app.
  assert (Hll : len l = 2).
  { unfold writeShort in Hl. write_inv Hl. apply len_be_bytes. }
  fold (len (list_byte_of_string s)).
  destruct (Z.eqb_spec (len (list_byte_of_string s)) 0) as [E|E].
  - rewrite E, Z.add_0_r. f_equal. f_equal.
    rewrite <- (string_of_list_byte_of_string s).
    destruct (list_byte_of_string s); [reflexivity | discriminate].
  - f_equal. f_equal; [|lia].
    apply has_at_spec in Hat2 as (H0 & H1 & H2).
    pose proof (len_nonneg (list_byte_of_string s)).
    unfold toString, buflen. fold (len buffer).
    destruct (Z.geb_spec (off + len l) (len buffer)); [lia|].
    rewrite Z.max_r by lia.
    destruct (Z.gtb_spec (off + len l + len (list_byte_of_string s)) (len buffer)); [lia|].
    destruct (Z.leb_spec (off + len l + len (list_byte_of_string s)) (off + len l)); [lia|].
    replace (off + len l + len (list_byte_of_string s) - (off + len l))
      with (len (list_byte_of_string s)) by lia.
    rewrite to_nat_len, H2. apply string_of_list_byte_of_string.
Qed.

(** * Valid documents

    The invariants of the data model, with the bounds the writer enforces:
    a numeric payload lies in the range of its variant, a Long is a BigInt,
    a string or a compound key takes at most 32767 bytes ([writeString]
    stores the length with [writeInt16BE]), every payload of a list has the
    shape of the declared element variant, and the keys of a compound are
    unique. *)

Definition int_max : Z := 2147483647.

Definition is_num (lo hi : Z) (p : payload) : bool :=
  match p with PNum z => in_range lo hi z | _ => false end.

Definition is_big (lo hi : Z) (p : payload) : bool :=
  match p with PBig z => in_range lo hi z | _ => false end.

Definition valid_string (s : string) : bool :=
  len (list_byte_of_string s) <=? 32767.

Fixpoint nodupb (l : list string) : bool :=
  match l with
  | [] => true
  | x :: r => negb (existsb (String.eqb x) r) && nodupb r
  end.

(** The keys of an object literal filled by assignment: distinct, and
    none of them [__proto__]. *)
Definition own_keys (l : list string) : bool :=
  nodupb l && negb (existsb is_proto l).

Fixpoint valid (type : tagType) (value : payload) {struct value} : bool :=
  match type, value with
  | BYTE, PNum z => in_range (-128) 127 z
  | SHORT, PNum z => in_range (-32768) 32767 z
  | INT, PNum z => in_range (-2147483648) int_max z
  | LONG, PBig z => in_range (- 2 ^ 63) (2 ^ 63 - 1) z
  | FLOAT, PFloat w => in_range 0 (2 ^ 32 - 1) w
  | DOUBLE, PDouble w => in_range 0 (2 ^ 64 - 1) w
  | BYTE_ARRAY, PArr a => (len a <=? int_max) && forallb (is_num (-128) 127) a
  | STRING, PStr s => valid_string s
  | LIST, PList (Some listType) items =>
      (len items <=? int_max) && forallb (valid listType) items
  | COMPOUND, PObj entries =>
      own_keys (map fst entries)
      && forallb (fun e : string * (tagType * payload) =>
                    let '(name, (ty, v)) := e in valid_string name && valid ty v)
           entries
  | INT_ARRAY, PArr a =>
      (len a <=? int_max) && forallb (is_num (-2147483648) int_max) a
  | LONG_ARRAY, PArr a =>
      (len a <=? int_max) && forallb (is_big (- 2 ^ 63) (2 ^ 63 - 1)) a
  | _, _ => false
  end.

Definition valid_document (d : document) : bool :=
  valid_string (doc_name d) && valid (doc_type d) (doc_value d).

(** What the reader returns for a written value: the value itself, but for
    the declared element variant of an empty list, which [writeList]
    replaces by End on the wire. *)
Fixpoint normalize (value : payload) : payload :=
  match value with
  | PList ty items =>
      match items with
      | [] => PList (Some END) []
      | _ :: _ => PList ty (map normalize items)
      end
  | PObj entries =>
      PObj (map (fun e : string * (tagType * payload) =>
                   let '(name, (ty, v)) := e in (name, (ty, normalize v))) entries)
  | _ => value
  end.

Definition normalize_document (d : document) : document :=
  Doc (doc_type d) (doc_name d) (normalize (doc_value d)).


(** The fuel a value needs to be read back. *)
Fixpoint psize (value : payload) : nat :=
  match value with
  | PList _ items => S (list_sum (map psize items))
  | PObj entries =>
      S (S (list_sum (map (fun e : string * (tagType * payload) =>
                             S (psize (snd (snd e)))) entries)))
  | _ => 1%nat
  end.

(** ** Induction on values, through lists and compound entries *)

Section PayloadInd.

Variable P : payload -> Prop.
Hypothesis HNum : forall z, P (PNum z).
Hypothesis HNaN : P PNaN.
Hypothesis HBig : forall z, P (PBig z).
Hypothesis HFloat : forall w, P (PFloat w).
Hypothesis HDouble : forall w, P (PDouble w).
Hypothesis HStr : forall s, P (PStr s).
Hypothesis HArr : forall a, P (PArr a).
Hypothesis HList : forall ty items, Forall P items -> P (PList ty items).
Hypothesis HObj : forall entries,
    Forall (fun e : string * (tagType * payload) => P (snd (snd e))) entries ->
    P (PObj entries).

Fixpoint payload_rect' (v : payload) : P v :=
  match v with
  | PNum z => HNum z
  | PNaN => HNaN
  | PBig z => HBig z
  | PFloat w => HFloat w
  | PDouble w => HDouble w
  | PStr s => HStr s
  | PArr a => HArr a
  | PList ty items =>
      HList ty items
        ((fix go (l : list payload) : Forall P l :=
            match l with
            | [] => Forall_nil _
            | x :: r => Forall_cons x (payload_rect' x) (go r)
            end) items)
  | PObj entries =>
      HObj entries
        ((fix go (l : list (string * (tagType * payload)))
            : Forall (fun e => P (snd (snd e))) l :=
            match l with
            | [] => Forall_nil _
            | e :: r => Forall_cons e (payload_rect' (snd (snd e))) (go r)
            end) entries)
  end.

End PayloadInd.

(** ** Sequences of values *)

Lemma forEach_total {A} (w : A -> option (list byte)) items :
  Forall (fun x => exists b, w x = Some b) items ->
  exists bs, forEach w items = Some bs.
Proof.
  induction 1 as [|x r [b Hb] _ [bs Hbs]]; simpl.
  - eauto.
  - rewrite Hb, Hbs. simpl. eauto.
Qed.

Lemma readN_forEach {A B} buffer (w : A -> option (list byte)) (r : reader B)
    (norm : A -> B) items :
  Forall (fun x => forall b off, w x = Some b -> has_at buffer off b ->
                   r off = Some (norm x, off + len b)) items ->
  forall bs off, forEach w items = Some bs -> has_at buffer off bs ->
  readN r (List.length items) off = Some (map norm items, off + len bs).
Proof.
  induction 1 as [|x l Hx _ IH]; intros bs off Hw Hat; simpl in *.
  - apply Some_eq in Hw. subst. unfold len. simpl. now rewrite Z.add_0_r.
  - apply obind_inv in Hw as (b & Hb & Hw).
    apply obind_inv in Hw as (bs' & Hbs' & Hw). apply Some_eq in Hw. subst.
    apply has_at_app in Hat as [Hat1 Hat2].
    rewrite (Hx _ _ Hb Hat1). cbn [obind].
    rewrite (IH _ _ Hbs' Hat2). cbn [obind].
    rewrite len_app. do 2 f_equal. lia.
Qed.

Lemma forallb_Forall {A} (f : A -> bool) l :
  forallb f l = true <-> Forall (fun x => f x = true) l.
Proof.
  rewrite forallb_forall, Forall_forall. reflexivity.
Qed.

(** A typed array: [writeArrayWith] against [readArrayWith]. *)
Lemma readArray_write buffer (w : payload -> option (list byte)) (r : reader payload)
    (ok : payload -> bool) a bs off :
  (forall x, ok x = true -> forall b off, w x = Some b -> has_at buffer off b ->
             r off = Some (x, off + len b)) ->
  (len a <=? int_max) = true -> forallb ok a = true ->
  writeArrayWith w a = Some bs -> has_at buffer off bs ->
  readArrayWith buffer r off = Some (PArr a, off + len bs).
Proof.
  intros Hr Hlen Hok Hw Hat. unfold writeArrayWith in Hw. unfold readArrayWith.
  apply obind_inv in Hw as (l & Hl & Hw).
  apply obind_inv in Hw as (bs' & Hbs' & Hw). apply Some_eq in Hw. subst.
  apply has_at_app in Hat as [Hat1 Hat2].
  rewrite (readInt_write _ _ _ _ Hl Hat1). cbn [obind].
  fold (len a). rewrite to_nat_len.
  rewrite (readN_forEach buffer w r (fun x => x) a) with (bs := bs'); auto.
  - cbn [obind]. rewrite map_id, len_app. do 2 f_equal. lia.
  - apply forallb_Forall in Hok. eapply Forall_impl; [|exact Hok].
    intros x Hx. apply Hr, Hx.
Qed.

Lemma writeArray_total (w : payload -> option (list byte)) (ok : payload -> bool) a :
  (forall x, ok x = true -> exists b, w x = Some b) ->
  (len a <=? int_max) = true -> forallb ok a = true ->
  exists bs, writeArrayWith w a = Some bs.
Proof.
  intros Hw Hlen Hok. unfold writeArrayWith.
  apply Z.leb_le in Hlen. pose proof (len_nonneg a). unfold int_max in Hlen.
  fold (len a). unfold writeInt.
  replace (in_range (-2147483648) 2147483647 (len a)) with true
    by (symmetry; apply in_range_spec; lia).
  cbn [obind].
  destruct (forEach_total w a) as [bs Hbs].
  - apply forallb_Forall in Hok. eapply Forall_impl; [|exact Hok].
    intros x Hx. apply Hw, Hx.
  - rewrite Hbs. simpl. eauto.
Qed.

(** ** Compounds: the entries assigned in order rebuild the object *)

Lemma assoc_set_fresh {V} k (v : V) o :
  existsb (String.eqb k) (map fst o) = false -> assoc_set k v o = o ++ [(k, v)].
Proof.
  induction o as [|[k' v'] o IH]; simpl; intros H; [reflexivity|].
  apply orb_false_iff in H as [H1 H2].
  rewrite String.eqb_sym, H1. f_equal. auto.
Qed.

Lemma obj_set_fresh {V} k (v : V) o :
  is_proto k = false -> existsb (String.eqb k) (map fst o) = false ->
  obj_set k v o = o ++ [(k, v)].
Proof. unfold obj_set. intros ->. apply assoc_set_fresh. Qed.

Lemma own_keys_spec l :
  own_keys l = true -> nodupb l = true /\ existsb is_proto l = false.
Proof.
  unfold own_keys. intros H. apply andb_true_iff in H as [H1 H2].
  now apply negb_true_iff in H2.
Qed.

Lemma existsb_app_false {A} (f : A -> bool) a b :
  existsb f (a ++ b) = false <-> existsb f a = false /\ existsb f b = false.
Proof. rewrite existsb_app. apply orb_false_iff. Qed.

Lemma nodupb_app_cons k (a b : list string) :
  nodupb (a ++ k :: b) = true ->
  existsb (String.eqb k) a = false /\ nodupb ((a ++ [k]) ++ b) = true.
Proof.
  induction a as [|x a IH]; simpl.
  - intros H. split; [reflexivity | exact H].
  - intros H. apply andb_true_iff in H as [H1 H2].
    apply negb_true_iff in H1. apply existsb_app_false in H1 as [H1a H1b].
    simpl in H1b. apply orb_false_iff in H1b as [H1k H1b].
    destruct (IH H2) as [IH1 IH2]. split.
    + rewrite String.eqb_sym, H1k. exact IH1.
    + rewrite IH2, andb_true_r. apply negb_true_iff.
      rewrite <- app_assoc. apply existsb_app_false. split; [exact H1a|].
      simpl. now rewrite H1k.
Qed.

Lemma fold_obj_set {A V} (key : A -> string) (val : A -> V) entries acc :
  nodupb (map fst acc ++ map key entries) = true ->
  existsb is_proto (map key entries) = false ->
  fold_left (fun o e => obj_set (key e) (val e) o) entries acc
  = acc ++ map (fun e => (key e, val e)) entries.
Proof.
  revert acc. induction entries as [|e r IH]; simpl; intros acc H Hp.
  - now rewrite app_nil_r.
  - apply nodupb_app_cons in H as [H1 H2]. apply orb_false_iff in Hp as [Hp1 Hp2].
    rewrite obj_set_fresh by assumption.
    rewrite IH.
    + now rewrite <- app_assoc.
    + rewrite map_app. simpl. exact H2.
    + exact Hp2.
Qed.

Lemma readTag_end buffer rv off endb :
  writeUByte (TAG_TYPES END) = Some endb -> has_at buffer off endb ->
  readTagWith buffer rv off = Some (REnd, off + len endb).
Proof.
  intros Hw Hat. unfold readTagWith.
  rewrite (readUByte_write _ _ _ _ Hw Hat). reflexivity.
Qed.

Lemma TYPE_NAMES_TAG_TYPES t : TYPE_NAMES (TAG_TYPES t) = Some t.
Proof. destruct t; reflexivity. Qed.

Lemma readCompoundLoop_write {A} buffer (rt : reader readResult)
    (w : A -> option (list byte)) (key : A -> string) (val : A -> tagType * payload)
    entries endb :
  writeUByte (TAG_TYPES END) = Some endb ->
  (forall off, has_at buffer off endb -> rt off = Some (REnd, off + len endb)) ->
  Forall (fun e => forall b off, w e = Some b -> has_at buffer off b ->
                   rt off = Some (RTag (Doc (fst (val e)) (key e) (snd (val e))),
                                  off + len b)) entries ->
  forall fuel acc bs off,
    (List.length entries < fuel)%nat ->
    forEach w entries = Some bs -> has_at buffer off (bs ++ endb) ->
    readCompoundLoop rt fuel acc off
    = Some (PObj (fold_left (fun o e => obj_set (key e) (val e) o) entries acc),
            off + len (bs ++ endb)).
Proof.
  intros Hend Hrend. induction 1 as [|e r He _ IH]; intros fuel acc bs off Hf Hw Hat.
  - simpl in Hw. apply Some_eq in Hw. subst bs. simpl in *.
    destruct fuel as [|fuel]; [lia|]. simpl.
    rewrite (Hrend _ Hat). reflexivity.
  - simpl in Hw. apply obind_inv in Hw as (b & Hb & Hw).
    apply obind_inv in Hw as (bs' & Hbs' & Hw). apply Some_eq in Hw. subst bs.
    rewrite <- app_assoc in Hat. apply has_at_app in Hat as [Hat1 Hat2].
    destruct fuel as [|fuel]; [simpl in Hf; lia|]. cbn [readCompoundLoop].
    rewrite (He _ _ Hb Hat1). cbn [obind doc_name doc_type doc_value].
    rewrite (IH fuel _ bs' _); [| simpl in Hf; lia | exact Hbs' | exact Hat2].
    cbn [fold_left]. destruct (val e) as [ty v]. cbn [fst snd].
    rewrite <- app_assoc, !len_app. do 2 f_equal. lia.
Qed.

(** ** The writer accepts every valid value *)

Lemma writeShort_len_total s :
  valid_string s = true -> exists b, writeString s = Some b.
Proof.
  unfold valid_string, writeString, writeShort. intros H. apply Z.leb_le in H.
  pose proof (len_nonneg (list_byte_of_string s)).
  fold (len (list_byte_of_string s)).
  replace (in_range (-32768) 32767 (len (list_byte_of_string s))) with true
    by (symmetry; apply in_range_spec; lia).
  simpl. eauto.
Qed.

Lemma writeUByte_TAG_TYPES t : exists b, writeUByte (TAG_TYPES t) = Some b.
Proof. destruct t; unfold writeUByte; simpl; eauto. Qed.

Lemma is_num_writeByteP x :
  is_num (-128) 127 x = true -> exists b, writeByteP x = Some b.
Proof.
  destruct x; simpl; try discriminate. unfold writeByte. intros ->. eauto.
Qed.

Lemma is_num_writeIntP x :
  is_num (-2147483648) int_max x = true -> exists b, writeIntP x = Some b.
Proof.
  destruct x; simpl; try discriminate. unfold writeInt, int_max. intros ->. eauto.
Qed.

Lemma is_big_writeLongP x :
  is_big (- 2 ^ 63) (2 ^ 63 - 1) x = true -> exists b, writeLongP x = Some b.
Proof.
  destruct x; cbn [is_big writeLongP]; try discriminate.
  unfold writeLong. intros ->. eauto.
Qed.

Lemma writeTagValue_total value :
  forall type, valid type value = true -> exists bs, writeTagValue type value = Some bs.
Proof.
  induction value using payload_rect'; intros type Hv;
    destruct type; cbn [valid] in Hv; try discriminate Hv; cbn [writeTagValue].
  - unfold writeByte. rewrite Hv. eauto.
  - unfold writeShort. rewrite Hv. eauto.
  - unfold writeInt. unfold int_max in Hv. rewrite Hv. eauto.
  - unfold writeLong. rewrite Hv. eauto.
  - unfold writeFloat. rewrite Hv. eauto.
  - unfold writeDouble. rewrite Hv. eauto.
  - now apply writeShort_len_total.
  - apply andb_true_iff in Hv as [Hl Ha].
    eapply writeArray_total; eauto using is_num_writeByteP.
  - apply andb_true_iff in Hv as [Hl Ha].
    eapply writeArray_total; eauto using is_num_writeIntP.
  - apply andb_true_iff in Hv as [Hl Ha].
    eapply writeArray_total; eauto using is_big_writeLongP.
  - (* list *)
    destruct ty as [listType|]; [|discriminate Hv].
    apply andb_true_iff in Hv as [Hl Ha]. cbn [writeTagValue].
    destruct items as [|x r]; [simpl; eauto|].
    destruct (writeUByte_TAG_TYPES listType) as [t Ht]. rewrite Ht. cbn [obind].
    apply Z.leb_le in Hl. unfold int_max in Hl.
    pose proof (len_nonneg (x :: r)) as Hn. fold (len (x :: r)).
    unfold writeInt.
    replace (in_range (-2147483648) 2147483647 (len (x :: r))) with true
      by (symmetry; apply in_range_spec; lia).
    cbn [obind].
    destruct (forEach_total (writeTagValue listType) (x :: r)) as [bs Hbs].
    + apply forallb_Forall in Ha. rewrite Forall_forall in *.
      intros y Hy. apply H; auto.
    + rewrite Hbs. simpl. eauto.
  - (* compound *)
    apply andb_true_iff in Hv as [_ Ha]. cbn [writeTagValue].
    match goal with |- context [forEach ?f entries] =>
      destruct (forEach_total f entries) as [bs Hbs] end.
    + apply forallb_Forall in Ha. rewrite Forall_forall in *.
      intros [name [ty v]] He. specialize (H _ He). specialize (Ha _ He).
      simpl in H, Ha. apply andb_true_iff in Ha as [Hn Hv].
      destruct (writeUByte_TAG_TYPES ty) as [t ->].
      destruct (writeShort_len_total _ Hn) as [n ->].
      destruct (H _ Hv) as [b ->]. simpl. eauto.
    + rewrite Hbs. simpl. eauto.
Qed.

(** ** The reader returns the normal form of every valid written value *)

Lemma readByteP_write buffer x :
  is_num (-128) 127 x = true -> forall b off,
  writeByteP x = Some b -> has_at buffer off b ->
  readNumWith (readByte buffer) off = Some (x, off + len b).
Proof.
  destruct x; cbn [is_num writeByteP]; try discriminate. intros _ b off Hw Hat.
  unfold readNumWith. now rewrite (readByte_write _ _ _ _ Hw Hat).
Qed.

Lemma readIntP_write buffer x :
  is_num (-2147483648) int_max x = true -> forall b off,
  writeIntP x = Some b -> has_at buffer off b ->
  readNumWith (readInt buffer) off = Some (x, off + len b).
Proof.
  destruct x; cbn [is_num writeIntP]; try discriminate. intros _ b off Hw Hat.
  unfold readNumWith. now rewrite (readInt_write _ _ _ _ Hw Hat).
Qed.

Lemma readLongP_write buffer x :
  is_big (- 2 ^ 63) (2 ^ 63 - 1) x = true -> forall b off,
  writeLongP x = Some b -> has_at buffer off b ->
  readBigWith (readLong buffer) off = Some (x, off + len b).
Proof.
  destruct x; cbn [is_big writeLongP]; try discriminate. intros _ b off Hw Hat.
  unfold readBigWith. now rewrite (readLong_write _ _ _ _ Hw Hat).
Qed.

Lemma psize_in_list x (items : list payload) :
  In x items -> (psize x <= list_sum (map psize items))%nat.
Proof.
  induction items as [|y r IH]; simpl; [tauto|].
  intros [->|H]; [lia | specialize (IH H); lia].
Qed.

Lemma psize_in_entries (e : string * (tagType * payload)) entries :
  In e entries ->
  (S (psize (snd (snd e)))
   <= list_sum (map (fun e : string * (tagType * payload) =>
                       S (psize (snd (snd e)))) entries))%nat.
Proof.
  induction entries as [|y r IH]; simpl; [tauto|].
  intros [->|H]; [lia | specialize (IH H); lia].
Qed.

Lemma length_le_entries (entries : list (string * (tagType * payload))) :
  (List.length entries
   <= list_sum (map (fun e : string * (tagType * payload) =>
                       S (psize (snd (snd e)))) entries))%nat.
Proof. induction entries; simpl; lia. Qed.

Lemma readTagValue_write value :
  forall fuel type bs buffer off,
    (psize value <= fuel)%nat -> valid type value = true ->
    writeTagValue type value = Some bs -> has_at buffer off bs ->
    readTagValue buffer fuel (TAG_TYPES type) off
    = Some (normalize value, off + len bs).
Proof.
  induction value using payload_rect'; intros fuel type bs buffer off Hf Hv Hw Hat;
    (destruct fuel as [|fuel]; [simpl in Hf; lia|]);
    destruct type; cbn [valid] in Hv; try discriminate Hv;
    cbn [writeTagValue] in Hw; cbn [readTagValue TAG_TYPES normalize].
  - unfold readNumWith. now rewrite (readByte_write _ _ _ _ Hw Hat).
  - unfold readNumWith. now rewrite (readShort_write _ _ _ _ Hw Hat).
  - unfold readNumWith. now rewrite (readInt_write _ _ _ _ Hw Hat).
  - unfold readBigWith. now rewrite (readLong_write _ _ _ _ Hw Hat).
  - now rewrite (readFloat_write _ _ _ _ Hw Hat).
  - now rewrite (readDouble_write _ _ _ _ Hw Hat).
  - now rewrite (readString_write _ _ _ _ Hw Hat).
  - apply andb_true_iff in Hv as [Hl Ha].
    eapply readArray_write; eauto using readByteP_write.
  - apply andb_true_iff in Hv as [Hl Ha].
    eapply readArray_write; eauto using readIntP_write.
  - apply andb_true_iff in Hv as [Hl Ha].
    eapply readArray_write; eauto using readLongP_write.
  - (* list *)
    destruct ty as [listType|]; [|discriminate Hv].
    apply andb_true_iff in Hv as [Hl Ha].
    destruct items as [|x r].
    + apply obind_inv in Hw as (t & Ht & Hw).
      apply obind_inv in Hw as (n & Hn & Hw). apply Some_eq in Hw. subst bs.
      apply has_at_app in Hat as [Hat1 Hat2].
      rewrite (readUByte_write _ _ _ _ Ht Hat1). cbn [obind].
      rewrite (readInt_write _ _ _ _ Hn Hat2). cbn [obind].
      simpl. rewrite len_app. do 2 f_equal. lia.
    + apply obind_inv in Hw as (t & Ht & Hw).
      apply obind_inv in Hw as (n & Hn & Hw).
      apply obind_inv in Hw as (bs' & Hbs' & Hw). apply Some_eq in Hw. subst bs.
      apply has_at_app in Hat as [Hat1 Hat2].
      apply has_at_app in Hat2 as [Hat2 Hat3].
      rewrite (readUByte_write _ _ _ _ Ht Hat1). cbn [obind].
      rewrite (readInt_write _ _ _ _ Hn Hat2). cbn [obind].
      rewrite Nat2Z.id.
      rewrite (readN_forEach buffer (writeTagValue listType)
                 (readTagValue buffer fuel (TAG_TYPES listType)) normalize (x :: r))
        with (bs := bs'); auto.
      * cbn [obind]. rewrite TYPE_NAMES_TAG_TYPES, !len_app. do 2 f_equal. lia.
      * apply forallb_Forall in Ha. rewrite Forall_forall in *.
        intros y Hy b o Hb Hato. apply H; auto.
        pose proof (psize_in_list y (x :: r) Hy). cbn [psize] in Hf. lia.
  - (* compound *)
    apply andb_true_iff in Hv as [Hnd Ha]. apply own_keys_spec in Hnd as [Hnd Hproto].
    apply obind_inv in Hw as (bs' & Hbs' & Hw).
    apply obind_inv in Hw as (endb & Hend & Hw). apply Some_eq in Hw. subst bs.
    cbn [psize] in Hf.
    pose proof (length_le_entries entries) as Hlen.
    erewrite (readCompoundLoop_write buffer _ _ fst
                (fun e : string * (tagType * payload) =>
                   (fst (snd e), normalize (snd (snd e)))) entries endb Hend);
      [ | | | | exact Hbs' | exact Hat ].
    + rewrite fold_obj_set by assumption. simpl. do 3 f_equal.
      apply map_ext. intros [name [ty v]]. reflexivity.
    + intros o Hato. apply (readTag_end _ _ _ _ Hend Hato).
    + apply forallb_Forall in Ha. rewrite Forall_forall in *.
      intros [name [ty v]] He b o Hb Hato. specialize (H _ He). specialize (Ha _ He).
      cbn [fst snd] in *. apply andb_true_iff in Ha as [Hname Hval].
      apply obind_inv in Hb as (t & Ht & Hb).
      apply obind_inv in Hb as (n & Hn & Hb).
      apply obind_inv in Hb as (vb & Hvb & Hb). apply Some_eq in Hb. subst b.
      apply has_at_app in Hato as [Hat1 Hat2].
      apply has_at_app in Hat2 as [Hat2 Hat3].
      unfold readTagWith.
      rewrite (readUByte_write _ _ _ _ Ht Hat1). cbn [obind].
      replace (TAG_TYPES ty =? TAG_TYPES END) with false.
      2:{ symmetry. apply Z.eqb_neq. destruct ty; simpl; try lia.
          destruct v; discriminate Hval. }
      rewrite (readString_write _ _ _ _ Hn Hat2). cbn [obind].
      pose proof (psize_in_entries _ _ He) as Hsz. cbn [snd] in Hsz.
      rewrite (H fuel ty vb buffer _); [| lia | exact Hval | exact Hvb | exact Hat3].
      cbn [obind]. rewrite TYPE_NAMES_TAG_TYPES, !len_app. do 2 f_equal. lia.
    + lia.
Qed.


Lemma valid_not_END type value : valid type value = true -> type <> END.
Proof. intros H ->. destruct value; discriminate H. Qed.

Lemma parse_stringify d bs fuel :
  valid_document d = true -> stringify d = Some bs ->
  (psize (doc_value d) <= fuel)%nat ->
  parse fuel bs = Some (RTag (normalize_document d)).
Proof.
  unfold valid_document, stringify, writeTag, parse, readTag, readTagWith.
  destruct d as [ty name v]. cbn [doc_type doc_name doc_value].
  intros Hv Hw Hf. apply andb_true_iff in Hv as [Hname Hval].
  apply obind_inv in Hw as (t & Ht & Hw).
  apply obind_inv in Hw as (n & Hn & Hw).
  apply obind_inv in Hw as (b & Hb & Hw). apply Some_eq in Hw. subst bs.
  pose proof (has_at_whole (t ++ n ++ b)) as Hat.
  apply has_at_app in Hat as [Hat1 Hat2].
  apply has_at_app in Hat2 as [Hat2 Hat3].
  rewrite (readUByte_write _ _ _ _ Ht Hat1). cbn [obind].
  replace (TAG_TYPES ty =? TAG_TYPES END) with false.
  2:{ symmetry. apply Z.eqb_neq. pose proof (valid_not_END _ _ Hval).
      destruct ty; simpl; congruence || lia. }
  rewrite (readString_write _ _ _ _ Hn Hat2). cbn [obind].
  rewrite (readTagValue_write v fuel ty b _ _ Hf Hval Hb Hat3). cbn [obind].
  now rewrite TYPE_NAMES_TAG_TYPES.
Qed.

Lemma stringify_total d :
  valid_document d = true -> exists bs, stringify d = Some bs.
Proof.
  unfold valid_document, stringify, writeTag. intros Hv.
  apply andb_true_iff in Hv as [Hname Hval].
  destruct (writeUByte_TAG_TYPES (doc_type d)) as [t ->].
  destruct (writeShort_len_total _ Hname) as [n ->].
  destruct (writeTagValue_total _ _ Hval) as [b ->]. simpl. eauto.
Qed.

(** * The round trip of the binary format *)

Definition empty_byte_list_doc : document :=
  Doc COMPOUND "" (PObj [("L"%string, (LIST, PList (Some BYTE) []))]).



Definition hello_doc : document :=
  Doc COMPOUND "" (PObj [("Hello"%string, (INT, PNum 42))]).


(** * The empty list on the wire *)

Definition empty_list_wire : list byte := [x00; x00; x00; x00; x00].

(** C4, as stated, fails in its second half: the wire form with element
    variant End and length 0 is read as a list whose element variant is
    End, not Byte. *)
Lemma empty_list_read_counterexample :
  readTagValue empty_list_wire 1 (TAG_TYPES LIST) 0 <> Some (PList (Some BYTE) [], 5).
Proof. vm_compute. discriminate. Qed.

(** C4, amended: every empty list, whatever its declared element variant,
    is written as the byte 0x00 (End) followed by the length 0; and that
    wire form, wherever it stands in a buffer, is read as an empty list
    whose element variant is End. *)
Theorem empty_list_wire_form :
  (forall ty, writeTagValue LIST (PList ty []) = Some empty_list_wire) /\
  (forall pre post fuel,
      readTagValue (pre ++ empty_list_wire ++ post) (S fuel) (TAG_TYPES LIST) (len pre)
      = Some (PList (Some END) [], len pre + 5)).
Proof.
  split; [reflexivity|]. intros pre post fuel.
  pose proof (readTagValue_write (PList (Some BYTE) []) (S fuel) LIST empty_list_wire
                (pre ++ empty_list_wire ++ post) (len pre)) as H.
  apply H; try reflexivity.
  - simpl. lia.
  - apply has_at_intro.
Qed.

(** * The region archive ([mca-handler.js]) *)

(** ** Numbers, bit operations and keys *)

(** [ToInt32] and the 32-bit operators of JavaScript on integral Numbers. *)
Definition to_int32 (x : Z) : Z := to_signed 32 (x mod 2 ^ 32).
Definition js_and (a b : Z) : Z := Z.land (to_int32 a) (to_int32 b).
Definition js_sar (a n : Z) : Z := Z.shiftr (to_int32 a) (n mod 32).

(** An integral Number in a template literal. *)
Definition showZ (z : Z) : string := NilZero.string_of_int (Z.to_int z).

(** [`${x},${z}`] *)
Definition chunkKey (x z : Z) : string := (showZ x ++ "," ++ showZ z)%string.

(** [s.split(',')] *)
Fixpoint split_comma (s : string) : list string :=
  match s with
  | EmptyString => [EmptyString]
  | String c r =>
      if Ascii.eqb c ","%char then EmptyString :: split_comma r
      else match split_comma r with
           | [] => [String c EmptyString]
           | w :: ws => String c w :: ws
           end
  end.

(** [Number(s)] on a decimal integer literal.  The keys of the chunk map
    are built by [chunkKey]; on any other string the model answers [None]. *)
Definition Number_of_string (s : string) : option Z :=
  option_map Z.of_int (NilZero.int_of_string s).

(** [const [x, z] = key.split(',').map(Number)] *)
Definition keyCoords (key : string) : option (Z * Z) :=
  match split_comma key with
  | sx :: sz :: _ =>
      x <- Number_of_string sx ;; z <- Number_of_string sz ;; Some (x, z)
  | _ => None
  end.

(** ** Arrays and buffers updated in place *)

(** [array[i] = v]; past the end the array grows, the gap filled with
    [hole]. *)
Fixpoint array_set {A} (hole : A) (i : nat) (v : A) (l : list A) : list A :=
  match i, l with
  | O, [] => [v]
  | O, _ :: r => v :: r
  | S k, [] => hole :: array_set hole k v []
  | S k, x :: r => x :: array_set hole k v r
  end.

(** [buffer.write..(value, offset)]: throws unless the bytes fit. *)
Definition buf_write (buffer : list byte) (offset : Z) (bs : list byte)
  : option (list byte) :=
  if (0 <=? offset) && (offset + len bs <=? len buffer)
  then Some (firstn (Z.to_nat offset) buffer ++ bs
             ++ skipn (Z.to_nat offset + List.length bs) buffer)
  else None.




Definition readUInt32BE (buffer : list byte) (offset : Z) : option Z :=
  bs <- bytesAt buffer offset 4 ;; Some (be_uint bs).

Definition readUInt8 (buffer : list byte) (offset : Z) : option Z :=
  bs <- bytesAt buffer offset 1 ;; Some (be_uint bs).

(** [buffer.slice(start, end)] for [0 <= start]; the ends are clamped. *)
Definition buf_slice (buffer : list byte) (start end_ : Z) : list byte :=
  firstn (Z.to_nat (end_ - start)) (skipn (Z.to_nat start) buffer).

Definition SECTOR_SIZE : Z := 4096.
Definition HEADER_SIZE : Z := 4096.


(** ** MCAFile *)

Record location := Loc { loc_offset : Z; loc_count : Z }.

Record MCAFile := MCA {
  chunks : list (string * readResult);   (* Map of "x,z" -> chunk data *)
  locations : list (option location);
  timestamps : list Z
}.

(** [new MCAFile()] *)
Definition newMCAFile : MCAFile :=
  MCA [] (repeat None 1024) (repeat 0 1024).

(** [Map.get], [Map.has], [Map.set], [Map.delete]; a Map iterates in
    insertion order, and setting a present key keeps its place. *)
Fixpoint map_get {V} (k : string) (m : list (string * V)) : option V :=
  match m with
  | [] => None
  | (k', v) :: r => if String.eqb k' k then Some v else map_get k r
  end.

Definition map_has {V} (k : string) (m : list (string * V)) : bool :=
  match map_get k m with Some _ => true | None => false end.

Definition map_set {V} (k : string) (v : V) (m : list (string * V)) := assoc_set k v m.

Fixpoint map_delete {V} (k : string) (m : list (string * V)) : list (string * V) :=
  match m with
  | [] => []
  | (k', v) :: r => if String.eqb k' k then r else (k', v) :: map_delete k r
  end.

Definition getChunk (mca : MCAFile) (x z : Z) : option readResult :=
  let regionX := js_and x 31 in
  let regionZ := js_and z 31 in
  map_get (chunkKey regionX regionZ) (chunks mca).

(** [setChunk]; [now] is [Math.floor(Date.now() / 1000)]. *)
Definition setChunk (now : Z) (mca : MCAFile) (x z : Z) (chunkData : readResult)
  : MCAFile :=
  let regionX := js_and x 31 in
  let regionZ := js_and z 31 in
  let index := regionZ * 32 + regionX in
  MCA (map_set (chunkKey regionX regionZ) chunkData (chunks mca))
      (locations mca)
      (array_set 0 (Z.to_nat index) now (timestamps mca)).

Definition removeChunk (mca : MCAFile) (x z : Z) : bool * MCAFile :=
  let regionX := js_and x 31 in
  let regionZ := js_and z 31 in
  let key := chunkKey regionX regionZ in
  if map_has key (chunks mca) then
    let index := regionZ * 32 + regionX in
    (true, MCA (map_delete key (chunks mca))
               (array_set None (Z.to_nat index) None (locations mca))
               (array_set 0 (Z.to_nat index) 0 (timestamps mca)))
  else (false, mca).

(** [for (let i = 0; i < n; i++) body(i)], the body possibly throwing. *)
Definition for_loop {St} (n : nat) (body : nat -> St -> option St) (s : St) : option St :=
  fold_left (fun acc i => s <- acc ;; body i s) (seq 0 n) (Some s).

(** The outcome of [readChunk]: an exception, [null], or the parsed tag. *)
Inductive chunkRead :=
| Threw
| Null
| Chunk (data : readResult).


Section Archive.

(** zlib: [gunzipSync] and [inflateSync] throw on malformed input. *)
Variable gunzipSync : list byte -> option (list byte).
Variable inflateSync : list byte -> option (list byte).
Variable deflateSync : list byte -> list byte.

(** The fuel handed to [NBT.parse] for each chunk. *)
Variable fuel : nat.

Definition readChunk (buffer : list byte) (loc : location) : chunkRead :=
  let byteOffset := loc_offset loc * SECTOR_SIZE in
  if byteOffset + 5 >? len buffer then Threw
  else
    match readUInt32BE buffer byteOffset, readUInt8 buffer (byteOffset + 4) with
    | Some length, Some compressionType =>
        if length =? 0 then Null
        else
          let chunkDataStart := byteOffset + 5 in
          let chunkDataEnd := chunkDataStart + length - 1 in
          if chunkDataEnd >? len buffer then Threw
          else
            let compressed := buf_slice buffer chunkDataStart chunkDataEnd in
            let decompressedData :=
              match compressionType with
              | 1 => gunzipSync compressed
              | 2 => inflateSync compressed
              | 3 => Some compressed
              | _ => None
              end in
            match decompressedData with
            | None => Threw
            | Some data =>
                match parse fuel data with
                | Some tag => Chunk tag
                | None => Threw
                end
            end
    | _, _ => Threw
    end.

Definition parseLocation (buffer : list byte) (i : nat) (locs : list (option location))
  : option (list (option location)) :=
  let offset := Z.of_nat i * 4 in
  locationData <- readUInt32BE buffer offset ;;
  let sectorOffset := js_and (js_sar locationData 8) 16777215 in
  let sectorCount := js_and locationData 255 in
  if negb (sectorOffset =? 0) && negb (sectorCount =? 0)
  then Some (array_set None i (Some (Loc sectorOffset sectorCount)) locs)
  else Some locs.

Definition parseTimestamp (buffer : list byte) (i : nat) (ts : list Z)
  : option (list Z) :=
  let offset := HEADER_SIZE + Z.of_nat i * 4 in
  t <- readUInt32BE buffer offset ;;
  Some (array_set 0 i t ts).

Definition parseChunk (buffer : list byte) (locs : list (option location)) (i : nat)
    (m : list (string * readResult)) : option (list (string * readResult)) :=
  match nth i locs None with
  | None => Some m
  | Some loc =>
      let x := Z.of_nat i mod 32 in
      let z := Z.of_nat i / 32 in
      match readChunk buffer loc with
      | Chunk chunkData => Some (map_set (chunkKey x z) chunkData m)
      | Null => Some m
      | Threw => Some m      (* caught: console.warn *)
      end
  end.

Definition parseFile (mca : MCAFile) (buffer : list byte) : option MCAFile :=
  locs <- for_loop 1024 (parseLocation buffer) (locations mca) ;;
  ts <- for_loop 1024 (parseTimestamp buffer) (timestamps mca) ;;
  m <- for_loop 1024 (parseChunk buffer locs) (chunks mca) ;;
  Some (MCA m locs ts).

(** [MCAFile.load], after the file is read. *)
Definition load (buffer : list byte) : option MCAFile :=
  parseFile newMCAFile buffer.








End Archive.

(** ** Coordinates *)

Lemma to_int32_mod32 x : to_int32 x mod 32 = x mod 32.
Proof.
  unfold to_int32, to_signed.
  assert (H : (x mod 2 ^ 32) mod 32 = x mod 32).
  { apply Z.mod_mod_divide. exists (2 ^ 27). reflexivity. }
  destruct (x mod 2 ^ 32 <? 2 ^ (32 - 1)); [exact H|].
  rewrite <- H.
  replace (x mod 2 ^ 32 - 2 ^ 32) with (x mod 2 ^ 32 + (- 2 ^ 27) * 32) by lia.
  apply Z.mod_add. lia.
Qed.

Lemma js_and_31 x : js_and x 31 = x mod 32.
Proof.
  unfold js_and. change (to_int32 31) with (Z.ones 5).
  rewrite Z.land_ones by lia. apply to_int32_mod32.
Qed.

Lemma js_and_31_wrap x k : js_and (x + 32 * k) 31 = js_and x 31.
Proof.
  rewrite !js_and_31. rewrite (Z.mul_comm 32 k). apply Z.mod_add. lia.
Qed.

(** C7: [getChunk] reads the slot at the non-negative residues of its
    coordinates modulo 32, so coordinates that differ by multiples of 32
    address the same slot. *)
Theorem getChunk_wrap (mca : MCAFile) (x z k m : Z) :
  getChunk mca x z = getChunk mca (x + 32 * k) (z + 32 * m) /\
  getChunk mca x z = map_get (chunkKey (x mod 32) (z mod 32)) (chunks mca) /\
  0 <= x mod 32 < 32 /\ 0 <= z mod 32 < 32.
Proof.
  unfold getChunk. rewrite !js_and_31_wrap, !js_and_31.
  repeat split; try apply Z.mod_pos_bound; lia.
Qed.

(** ** Maps and arrays *)

Lemma map_get_set {V} k k' (v : V) m :
  map_get k (map_set k' v m) = if String.eqb k' k then Some v else map_get k m.
Proof.
  unfold map_set. induction m as [|[k0 v0] m IH]; simpl.
  - reflexivity.
  - destruct (String.eqb_spec k0 k') as [->|Hne]; simpl.
    + destruct (String.eqb k' k); reflexivity.
    + rewrite IH. destruct (String.eqb_spec k0 k) as [->|]; [|reflexivity].
      destruct (String.eqb_spec k' k); congruence.
Qed.

Lemma map_get_none_existsb {V} k (m : list (string * V)) :
  existsb (String.eqb k) (map fst m) = false -> map_get k m = None.
Proof.
  induction m as [|[k0 v0] m IH]; simpl; [reflexivity|].
  intros H. apply orb_false_iff in H as [H1 H2].
  rewrite String.eqb_sym, H1. auto.
Qed.

Lemma map_delete_filter {V} k (m : list (string * V)) :
  nodupb (map fst m) = true ->
  map_delete k m = filter (fun e => negb (String.eqb (fst e) k)) m.
Proof.
  induction m as [|[k0 v0] m IH]; simpl; [reflexivity|].
  intros H. apply andb_true_iff in H as [H1 H2]. apply negb_true_iff in H1.
  destruct (String.eqb_spec k0 k) as [->|Hne]; simpl.
  - clear IH. induction m as [|[k1 v1] m IHm]; simpl in *; [reflexivity|].
    apply orb_false_iff in H1 as [Ha Hb]. apply andb_true_iff in H2 as [_ H2].
    rewrite String.eqb_sym, Ha. simpl. f_equal. auto.
  - f_equal. auto.
Qed.

Lemma map_get_filter_ne {V} k k' (m : list (string * V)) :
  k <> k' ->
  map_get k (filter (fun e => negb (String.eqb (fst e) k')) m) = map_get k m.
Proof.
  intros Hne. induction m as [|[k0 v0] m IH]; simpl; [reflexivity|].
  destruct (String.eqb_spec k0 k') as [->|]; simpl.
  - destruct (String.eqb_spec k' k); [congruence | exact IH].
  - now rewrite IH.
Qed.

Lemma map_get_filter_eq {V} k (m : list (string * V)) :
  map_get k (filter (fun e => negb (String.eqb (fst e) k)) m) = None.
Proof.
  induction m as [|[k0 v0] m IH]; simpl; [reflexivity|].
  destruct (String.eqb_spec k0 k) as [->|Hne]; simpl; [exact IH|].
  destruct (String.eqb_spec k0 k); [congruence | exact IH].
Qed.

Lemma length_array_set {A} (hole : A) i v l :
  (i < List.length l)%nat -> List.length (array_set hole i v l) = List.length l.
Proof.
  revert l. induction i as [|i IH]; intros [|x l] H; simpl in *; try lia.
  rewrite IH; lia.
Qed.

Lemma nth_error_array_set_eq {A} (hole : A) i v l :
  nth_error (array_set hole i v l) i = Some v.
Proof.
  revert l. induction i as [|i IH]; intros [|x l]; simpl; auto.
Qed.

Lemma nth_error_array_set_ne {A} (hole : A) i j v l :
  (i < List.length l)%nat -> j <> i ->
  nth_error (array_set hole i v l) j = nth_error l j.
Proof.
  revert l j. induction i as [|i IH]; intros [|x l] [|j] H Hne; simpl in *;
    try lia; try reflexivity.
  apply IH; lia.
Qed.

(** ** Removing a chunk *)

(** The invariant of an archive: the keys of the chunk map are distinct and
    both tables have their 1024 entries. *)
Definition wf_mca (mca : MCAFile) : bool :=
  nodupb (map fst (chunks mca))
  && (List.length (locations mca) =? 1024)%nat
  && (List.length (timestamps mca) =? 1024)%nat.

Definition removeChunk_spec (mca : MCAFile) (x z : Z) : Prop :=
  let key := chunkKey (x mod 32) (z mod 32) in
  let i := Z.to_nat ((z mod 32) * 32 + x mod 32) in
  let mca' := snd (removeChunk mca x z) in
  match getChunk mca x z with
  | Some _ =>
      fst (removeChunk mca x z) = true /\
      chunks mca' = filter (fun e => negb (String.eqb (fst e) key)) (chunks mca) /\
      getChunk mca' x z = None /\
      (forall k, k <> key -> map_get k (chunks mca') = map_get k (chunks mca)) /\
      nth_error (locations mca') i = Some None /\
      nth_error (timestamps mca') i = Some 0 /\
      (forall j, j <> i ->
         nth_error (locations mca') j = nth_error (locations mca) j /\
         nth_error (timestamps mca') j = nth_error (timestamps mca) j)
  | None => removeChunk mca x z = (false, mca)
  end.

(** C9: when a chunk is stored at the wrapped coordinates, [removeChunk]
    returns true, deletes that entry of the chunk map and no other, and
    resets the location and the timestamp of that slot and of no other;
    when none is stored it returns false and changes nothing. *)
Theorem removeChunk_frame (mca : MCAFile) (x z : Z) :
  wf_mca mca = true -> removeChunk_spec mca x z.
Proof.
  unfold wf_mca, removeChunk_spec. intros Hwf.
  apply andb_true_iff in Hwf as [Hwf Ht]. apply andb_true_iff in Hwf as [Hnd Hl].
  apply Nat.eqb_eq in Ht, Hl.
  unfold getChunk, removeChunk, map_has. rewrite !js_and_31.
  pose proof (Z.mod_pos_bound x 32 ltac:(lia)) as Hx.
  pose proof (Z.mod_pos_bound z 32 ltac:(lia)) as Hz.
  destruct (map_get (chunkKey (x mod 32) (z mod 32)) (chunks mca)) eqn:E;
    [|reflexivity].
  cbn [fst snd chunks locations timestamps]. rewrite ?js_and_31.
  rewrite (map_delete_filter _ _ Hnd).
  repeat split.
  - apply map_get_filter_eq.
  - intros k Hk. now apply map_get_filter_ne.
  - apply nth_error_array_set_eq.
  - apply nth_error_array_set_eq.
  - apply nth_error_array_set_ne; [lia | assumption].
  - apply nth_error_array_set_ne; [lia | assumption].
Qed.

Definition one_chunk_mca : MCAFile :=
  setChunk 1700000000 newMCAFile 37 (-1) (RTag hello_doc).

Lemma removeChunk_frame_witness : removeChunk_spec one_chunk_mca 5 31.
Proof. apply (removeChunk_frame one_chunk_mca 5 31). reflexivity. Defined.

(** ** Keys of the chunk map *)

Definition range32 : list Z := map Z.of_nat (seq 0 32).

Lemma in_range32 x : 0 <= x < 32 -> In x range32.
Proof.
  intros H. unfold range32. apply in_map_iff. exists (Z.to_nat x).
  split; [lia|]. apply in_seq. lia.
Qed.

Lemma keyCoords_chunkKey x z :
  0 <= x < 32 -> 0 <= z < 32 -> keyCoords (chunkKey x z) = Some (x, z).
Proof.
  intros Hx Hz.
  assert (H : forallb (fun x => forallb (fun z =>
                 match keyCoords (chunkKey x z) with
                 | Some (x', z') => (x' =? x) && (z' =? z)
                 | None => false
                 end) range32) range32 = true) by (vm_compute; reflexivity).
  rewrite forallb_forall in H. specialize (H x (in_range32 x Hx)).
  rewrite forallb_forall in H. specialize (H z (in_range32 z Hz)).
  destruct (keyCoords (chunkKey x z)) as [[x' z']|]; [|discriminate].
  apply andb_true_iff in H as [H1 H2]. apply Z.eqb_eq in H1, H2. now subst.
Qed.

(** The key of slot [i]: [x = i % 32], [z = Math.floor(i / 32)]. *)
Definition slotKey (i : nat) : string :=
  chunkKey (Z.of_nat i mod 32) (Z.of_nat i / 32).

Lemma keyCoords_slotKey i :
  (i < 1024)%nat -> keyCoords (slotKey i) = Some (Z.of_nat i mod 32, Z.of_nat i / 32).
Proof.
  intros H. apply keyCoords_chunkKey.
  - apply Z.mod_pos_bound. lia.
  - split; [apply Z.div_pos; lia | apply Z.div_lt_upper_bound; lia].
Qed.

Lemma slotKey_inj i j :
  (i < 1024)%nat -> (j < 1024)%nat -> slotKey i = slotKey j -> i = j.
Proof.
  intros Hi Hj E.
  pose proof (keyCoords_slotKey i Hi) as Pi. pose proof (keyCoords_slotKey j Hj) as Pj.
  rewrite E, Pj in Pi. injection Pi as Hm Hd.
  pose proof (Z.div_mod (Z.of_nat i) 32 ltac:(lia)).
  pose proof (Z.div_mod (Z.of_nat j) 32 ltac:(lia)). lia.
Qed.

(** ** Loading: the chunk map that [parseFile] builds *)

Lemma for_loop_S {St} n (body : nat -> St -> option St) s :
  for_loop (S n) body s = (s' <- for_loop n body s ;; body n s').
Proof.
  unfold for_loop. rewrite seq_S, fold_left_app. reflexivity.
Qed.

Section Loading.

Variable gunzipSync : list byte -> option (list byte).
Variable inflateSync : list byte -> option (list byte).
Variable fuel : nat.
Variable buffer : list byte.
Variable locs : list (option location).

(** The chunk that slot [i] contributes, if any. *)
Definition chunk_at (i : nat) : option readResult :=
  match nth i locs None with
  | Some loc =>
      match readChunk gunzipSync inflateSync fuel buffer loc with
      | Chunk data => Some data
      | _ => None
      end
  | None => None
  end.

Definition loaded_chunks (n : nat) : list (string * readResult) :=
  flat_map (fun i => match chunk_at i with
                     | Some data => [(slotKey i, data)]
                     | None => []
                     end) (seq 0 n).

Lemma loaded_chunks_S n :
  loaded_chunks (S n)
  = loaded_chunks n ++ match chunk_at n with
                       | Some data => [(slotKey n, data)]
                       | None => []
                       end.
Proof.
  unfold loaded_chunks. rewrite seq_S, flat_map_app. cbn [flat_map Nat.add].
  now rewrite app_nil_r.
Qed.

Lemma parseChunk_chunk_at i m :
  parseChunk gunzipSync inflateSync fuel buffer locs i m
  = Some (match chunk_at i with
          | Some data => map_set (slotKey i) data m
          | None => m
          end).
Proof.
  unfold parseChunk, chunk_at, slotKey. destruct (nth i locs None); [|reflexivity].
  destruct (readChunk _ _ _ _ _); reflexivity.
Qed.

Lemma loaded_chunks_keys n k :
  In k (map fst (loaded_chunks n)) -> exists i, (i < n)%nat /\ k = slotKey i.
Proof.
  unfold loaded_chunks. rewrite in_map_iff. intros [[k' v] [<- Hin]].
  apply in_flat_map in Hin as [i [Hi Hin]]. apply in_seq in Hi.
  destruct (chunk_at i); [|destruct Hin].
  destruct Hin as [Hin|[]]. injection Hin as <- _. exists i. split; [lia | reflexivity].
Qed.

Lemma existsb_eqb_false k (l : list string) :
  ~ In k l -> existsb (String.eqb k) l = false.
Proof.
  intros H. destruct (existsb (String.eqb k) l) eqn:E; [|reflexivity].
  apply existsb_exists in E as [y [Hy E]]. apply String.eqb_eq in E. now subst.
Qed.

Lemma parseChunks_loaded n :
  (n <= 1024)%nat ->
  for_loop n (parseChunk gunzipSync inflateSync fuel buffer locs) []
  = Some (loaded_chunks n).
Proof.
  induction n as [|n IH]; intros Hn; [reflexivity|].
  rewrite for_loop_S, IH by lia. cbn [obind]. rewrite parseChunk_chunk_at.
  rewrite loaded_chunks_S.
  destruct (chunk_at n) as [data|]; [|now rewrite app_nil_r].
  unfold map_set. rewrite assoc_set_fresh; [reflexivity|].
  apply existsb_eqb_false. intros Hin.
  apply loaded_chunks_keys in Hin as [i [Hi E]].
  apply slotKey_inj in E; lia.
Qed.

Lemma map_get_loaded_chunks n i :
  (n <= 1024)%nat -> (i < 1024)%nat ->
  map_get (slotKey i) (loaded_chunks n) = if (i <? n)%nat then chunk_at i else None.
Proof.
  intros Hn Hi. induction n as [|n IH]; [reflexivity|].
  rewrite loaded_chunks_S. specialize (IH ltac:(lia)).
  assert (Happ : forall (a b : list (string * readResult)) k,
             map_get k (a ++ b)
             = match map_get k a with Some v => Some v | None => map_get k b end).
  { induction a as [|[k0 v0] a IHa]; intros b k; simpl; [reflexivity|].
    destruct (String.eqb k0 k); auto. }
  rewrite Happ, IH.
  destruct (Nat.ltb_spec i n) as [Hlt|Hge].
  - destruct (Nat.ltb_spec i (S n)); [|lia].
    destruct (chunk_at i); [reflexivity|].
    destruct (chunk_at n); [|reflexivity]. simpl.
    destruct (String.eqb_spec (slotKey n) (slotKey i)) as [E|]; [|reflexivity].
    apply slotKey_inj in E; lia.
  - destruct (Nat.eq_dec i n) as [->|Hne].
    + destruct (Nat.ltb_spec n (S n)); [|lia].
      destruct (chunk_at n); simpl; [|reflexivity].
      now rewrite String.eqb_refl.
    + destruct (Nat.ltb_spec i (S n)); [lia|].
      destruct (chunk_at n); [|reflexivity]. simpl.
      destruct (String.eqb_spec (slotKey n) (slotKey i)) as [E|]; [|reflexivity].
      apply slotKey_inj in E; lia.
Qed.

End Loading.

(** ** A slot whose blob announces no payload *)

Lemma load_inv gunzipSync inflateSync fuel buffer mca' :
  load gunzipSync inflateSync fuel buffer = Some mca' ->
  for_loop 1024 (parseLocation buffer) (repeat None 1024) = Some (locations mca') /\
  for_loop 1024 (parseTimestamp buffer) (repeat 0 1024) = Some (timestamps mca') /\
  chunks mca' = loaded_chunks gunzipSync inflateSync fuel buffer (locations mca') 1024.
Proof.
  unfold load, parseFile. cbn [locations timestamps chunks newMCAFile]. intros H.
  apply obind_inv in H as (locs & Hl & H).
  apply obind_inv in H as (ts & Ht & H).
  rewrite parseChunks_loaded in H by lia. cbn [obind] in H.
  apply Some_eq in H. subst mca'. auto.
Qed.

(** C10: while a region file is loaded, a populated slot whose blob header
    has payload length 0 makes [readChunk] return [null] without throwing,
    and the slot is absent from the resulting chunk map. *)
Theorem zero_length_chunk_skipped
    (gunzipSync inflateSync : list byte -> option (list byte)) (fuel : nat)
    (buffer : list byte) (mca' : MCAFile) (i : nat) (loc : location) :
  load gunzipSync inflateSync fuel buffer = Some mca' ->
  (i < 1024)%nat ->
  nth i (locations mca') None = Some loc ->
  loc_offset loc * SECTOR_SIZE + 5 <= len buffer ->
  readUInt32BE buffer (loc_offset loc * SECTOR_SIZE) = Some 0 ->
  readChunk gunzipSync inflateSync fuel buffer loc = Null /\
  map_get (slotKey i) (chunks mca') = None /\
  getChunk mca' (Z.of_nat i mod 32) (Z.of_nat i / 32) = None.
Proof.
  intros Hload Hi Hloc Hhdr Hlen.
  assert (Hnull : readChunk gunzipSync inflateSync fuel buffer loc = Null).
  { unfold readChunk.
    destruct (Z.gtb_spec (loc_offset loc * SECTOR_SIZE + 5) (len buffer)); [lia|].
    rewrite Hlen. unfold readUInt8, bytesAt, buflen. fold (len buffer).
    unfold readUInt32BE, bytesAt in Hlen.
    destruct (Z.leb_spec 0 (loc_offset loc * SECTOR_SIZE)); [|discriminate Hlen].
    destruct (Z.leb_spec 0 (loc_offset loc * SECTOR_SIZE + 4)); [|lia].
    destruct (Z.leb_spec (loc_offset loc * SECTOR_SIZE + 4 + 1) (len buffer)); [|lia].
    reflexivity. }
  apply load_inv in Hload as (_ & _ & Hchunks).
  assert (Hget : map_get (slotKey i) (chunks mca') = None).
  { rewrite Hchunks, map_get_loaded_chunks by lia.
    destruct (Nat.ltb_spec i 1024); [|reflexivity].
    unfold chunk_at. now rewrite Hloc, Hnull. }
  repeat split; auto.
  unfold getChunk. rewrite !js_and_31, Z.mod_mod by lia.
  rewrite (Z.mod_small (Z.of_nat i / 32)); [exact Hget|].
  split; [apply Z.div_pos; lia | apply Z.div_lt_upper_bound; lia].
Qed.

(** A region file of three sectors: slot 0 points at sector 2, which is
    all zero. *)
Definition zero_chunk_file : list byte :=
  be_bytes 4 513 ++ repeat x00 4092 ++ repeat x00 4096 ++ repeat x00 4096.

Definition no_zlib (data : list byte) : option (list byte) := None.

(** What [load] returns for it. *)
Definition zero_chunk_mca : MCAFile :=
  MCA [] (Some (Loc 2 1) :: repeat None 1023) (repeat 0 1024).

Lemma zero_length_chunk_skipped_witness :
  readChunk no_zlib no_zlib 0 zero_chunk_file (Loc 2 1) = Null /\
  map_get (slotKey 0) (chunks zero_chunk_mca) = None /\
  getChunk zero_chunk_mca (Z.of_nat 0 mod 32) (Z.of_nat 0 / 32) = None.
Proof.
  apply (zero_length_chunk_skipped no_zlib no_zlib 0 zero_chunk_file
           zero_chunk_mca 0 (Loc 2 1)).
  - vm_compute. reflexivity.
  - lia.
  - vm_compute. reflexivity.
  - vm_compute. discriminate.
  - vm_compute. reflexivity.
Defined.

(** * The dynamically typed layer ([mc-nbt.js], [snbt-converter.js])

    The editor, the validator and the JSON codec take and return arbitrary
    JavaScript values; a tag is the object [{type, value}] with the type
    held as a string. *)

Local Open Scope string_scope.
Local Open Scope Z_scope.

(** A Number: integral, a finite non-integral double [m / 2^e] with [m] odd,
    [NaN] or an infinity. *)
Inductive JsNumber :=
| NInt (z : Z)
| NDyadic (m : Z) (e : positive)
| NNaN
| NInf (negative : bool).

Inductive JsVal :=
| JUndefined
| JNull
| JBool (b : bool)
| JNum (n : JsNumber)
| JBigInt (z : Z)
| JString (s : string)
| JArray (elems : list JsVal)
| JObject (props : list (string * JsVal)).

Definition JInt (z : Z) : JsVal := JNum (NInt z).

(** [v.name]: [undefined] when the property is absent; arrays and
    primitives have none of the properties read here. *)
Definition prop (name : string) (v : JsVal) : JsVal :=
  match v with
  | JObject props =>
      match map_get name props with
      | Some x => x
      | None => JUndefined
      end
  | _ => JUndefined
  end.

Definition truthy (v : JsVal) : bool :=
  match v with
  | JUndefined | JNull => false
  | JBool b => b
  | JNum (NInt z) => negb (z =? 0)
  | JNum NNaN => false
  | JNum _ => true
  | JBigInt z => negb (z =? 0)
  | JString s => negb (String.eqb s "")
  | JArray _ | JObject _ => true
  end.

(** [a || b] *)
Definition js_or_else (a b : JsVal) : JsVal := if truthy a then a else b.

(** [typeof v === 'object'] *)
Definition typeof_object (v : JsVal) : bool :=
  match v with
  | JNull | JArray _ | JObject _ => true
  | _ => false
  end.

(** [s === v] for a string [s]. *)
Definition string_strict_eq (s : string) (v : JsVal) : bool :=
  match v with
  | JString s' => String.eqb s s'
  | _ => false
  end.

(** [a === b] between two primitives; used where one side is a string. *)
Definition strict_eq (a b : JsVal) : bool :=
  match a with
  | JString s => string_strict_eq s b
  | _ => false
  end.

Definition Number_isInteger (v : JsVal) : bool :=
  match v with
  | JNum (NInt _) => true
  | _ => false
  end.

(** The tag object [{ type: t, value: v }]. *)
Definition mkTag (t : string) (v : JsVal) : JsVal :=
  JObject [("type"%string, JString t); ("value"%string, v)].

(** The list payload [{ type: t, value: [..] }] with [t] any value. *)
Definition mkList (t : JsVal) (items : list JsVal) : JsVal :=
  JObject [("type"%string, t); ("value"%string, JArray items)].

(** ASCII case conversion ([toUpperCase], [toLowerCase]); the bytes of
    other characters are left alone. *)
Definition upper_ascii (c : ascii) : ascii :=
  let n := nat_of_ascii c in
  if ((97 <=? n) && (n <=? 122))%nat then ascii_of_nat (n - 32) else c.

Definition lower_ascii (c : ascii) : ascii :=
  let n := nat_of_ascii c in
  if ((65 <=? n) && (n <=? 90))%nat then ascii_of_nat (n + 32) else c.

Fixpoint string_map (f : ascii -> ascii) (s : string) : string :=
  match s with
  | EmptyString => EmptyString
  | String c r => String (f c) (string_map f r)
  end.

Definition toUpperCase := string_map upper_ascii.
Definition toLowerCase := string_map lower_ascii.

(** [TAG_TYPES[key]] for a string key. *)
Definition TAG_TYPES_get (key : string) : option tagType :=
  let key_is k := String.eqb key k in
  if key_is "END" then Some END else if key_is "BYTE" then Some BYTE
  else if key_is "SHORT" then Some SHORT else if key_is "INT" then Some INT
  else if key_is "LONG" then Some LONG else if key_is "FLOAT" then Some FLOAT
  else if key_is "DOUBLE" then Some DOUBLE else if key_is "BYTE_ARRAY" then Some BYTE_ARRAY
  else if key_is "STRING" then Some STRING else if key_is "LIST" then Some LIST
  else if key_is "COMPOUND" then Some COMPOUND else if key_is "INT_ARRAY" then Some INT_ARRAY
  else if key_is "LONG_ARRAY" then Some LONG_ARRAY else None.

(** ** Type inference: [autoDetectType] *)

Fixpoint autoDetectType (value : JsVal) : JsVal :=
  match value with
  | JBool b => mkTag "byte" (JInt (if b then 1 else 0))
  | JNum (NInt v) =>
      if (-128 <=? v) && (v <=? 127) then mkTag "byte" value
      else if (-32768 <=? v) && (v <=? 32767) then mkTag "short" value
      else if (-2147483648 <=? v) && (v <=? 2147483647) then mkTag "int" value
      else mkTag "long" (JBigInt v)
  | JNum _ => mkTag "double" value
  | JString _ => mkTag "string" value
  | JArray elems =>
      match elems with
      | [] => mkTag "list" (mkList (JString "byte") [])
      | first :: _ =>
          let firstType := prop "type" (autoDetectType first) in
          mkTag "list"
            (mkList firstType
               (map (fun item => prop "value" (autoDetectType item)) elems))
      end
  | JObject props =>
      mkTag "compound"
        (JObject (fold_left (fun compound kv =>
                               obj_set (fst kv) (autoDetectType (snd kv)) compound)
                    props []))
  (* String(value) of what is left *)
  | JUndefined => mkTag "string" (JString "undefined")
  | JNull => mkTag "string" (JString "null")
  | JBigInt z => mkTag "string" (JString (showZ z))
  end.

(** [createList(items = [], type = null)] *)
Definition createList (items : list JsVal) (type : JsVal) : JsVal :=
  match items with
  | [] => mkTag "list" (mkList (js_or_else type (JString "byte")) [])
  | first :: _ =>
      let detectedType := js_or_else type (prop "type" (autoDetectType first)) in
      mkTag "list"
        (mkList detectedType
           (map (fun item =>
                   let detected := autoDetectType item in
                   if strict_eq (prop "type" detected) detectedType
                   then prop "value" detected else item)
              items))
  end.

(** ** Validation: [validate] and [_validateTag] *)

(** The outcome of a source function that may throw; [OutOfFuel] is the
    model's own and stands for no behaviour of the source. *)
Inductive outcome (A : Type) :=
| Ok (a : A)
| Throw
| OutOfFuel.

Arguments Ok {A} a.
Arguments Throw {A}.
Arguments OutOfFuel {A}.

Definition bindO {A B} (m : outcome A) (k : A -> outcome B) : outcome B :=
  match m with
  | Ok a => k a
  | Throw => Throw
  | OutOfFuel => OutOfFuel
  end.

Definition Array_isArray (v : JsVal) : bool :=
  match v with JArray _ => true | _ => false end.

(** [tag.hasOwnProperty(name)] on an object: an own property called
    [hasOwnProperty] shadows the method, and calling it throws since no value
    of the model is a function. *)
Definition hasOwnProperty (tag : JsVal) (name : string) : outcome bool :=
  match tag with
  | JObject props =>
      if map_has "hasOwnProperty" props then Throw else Ok (map_has name props)
  | _ => Ok false
  end.

Definition out_of_range (lo hi : Z) (v : JsVal) : bool :=
  match v with
  | JNum (NInt z) => (z <? lo) || (z >? hi)
  | _ => true                      (* !Number.isInteger(v) *)
  end.

(** [array.forEach((item, index) => body(item, index))] threading the
    list of errors. *)
Fixpoint forEachIndexed {A E} (body : A -> nat -> E -> outcome E) (l : list A)
    (index : nat) (errors : E) : outcome E :=
  match l with
  | [] => Ok errors
  | x :: r => bindO (body x index errors) (forEachIndexed body r (S index))
  end.

Section Validate.

(** The conversion of a value inside a template literal. *)
Variable ToString : JsVal -> string.

Fixpoint _validateTag (fuel : nat) (tag : JsVal) (path : string) (errors : list string)
  : outcome (list string) :=
  match fuel with
  | O => OutOfFuel
  | S fuel =>
      let push msg := Ok (errors ++ [msg])%list in
      if negb (truthy tag) || negb (typeof_object tag) then
        push ("Invalid tag at " ++ path ++ ": not an object")
      else if negb (truthy (prop "type" tag)) then
        push ("Invalid tag at " ++ path ++ ": missing type or value")
      else
        bindO (hasOwnProperty tag "value") (fun hasValue =>
        if negb hasValue then
          push ("Invalid tag at " ++ path ++ ": missing type or value")
        else
          match prop "type" tag with
          | JString type =>
              match TAG_TYPES_get (toUpperCase type) with
              | None => push ("Invalid tag type at " ++ path ++ ": " ++ type)
              | Some _ =>
                  let value := prop "value" tag in
                  let t := toLowerCase type in
                  if String.eqb t "compound" then
                    if negb (typeof_object value) || Array_isArray value then
                      push ("Invalid compound at " ++ path ++ ": value must be object")
                    else
                      match value with
                      | JObject entries =>
                          forEachIndexed
                            (fun kv (_ : nat) errors =>
                               _validateTag fuel (snd kv) (path ++ "." ++ fst kv) errors)
                            entries 0%nat errors
                      | _ => Throw          (* Object.entries(null) *)
                      end
                  else if String.eqb t "list" then
                    if negb (truthy value) || negb (truthy (prop "type" value))
                       || negb (Array_isArray (prop "value" value)) then
                      push ("Invalid list at " ++ path ++ ": malformed structure")
                    else
                      match prop "value" value with
                      | JArray items =>
                          forEachIndexed
                            (fun item index errors =>
                               _validateTag fuel
                                 (JObject [("type", prop "type" value); ("value", item)])
                                 (path ++ "[" ++ showZ (Z.of_nat index) ++ "]") errors)
                            items 0%nat errors
                      | _ => Ok errors
                      end
                  else if String.eqb t "byte" then
                    if out_of_range (-128) 127 value
                    then push ("Invalid byte at " ++ path ++ ": " ++ ToString value)
                    else Ok errors
                  else if String.eqb t "short" then
                    if out_of_range (-32768) 32767 value
                    then push ("Invalid short at " ++ path ++ ": " ++ ToString value)
                    else Ok errors
                  else if String.eqb t "int" then
                    if out_of_range (-2147483648) 2147483647 value
                    then push ("Invalid int at " ++ path ++ ": " ++ ToString value)
                    else Ok errors
                  else if String.eqb t "long" then
                    match value with
                    | JBigInt _ => Ok errors
                    | _ => push ("Invalid long at " ++ path ++ ": must be BigInt")
                    end
                  else Ok errors
              end
          | _ => Throw        (* tag.type.toUpperCase is not a function *)
          end)
  end.

(** The nesting depth of a value: a bound on the recursion of
    [_validateTag]. *)
Fixpoint jdepth (v : JsVal) : nat :=
  match v with
  | JArray elems => S (fold_right (fun x acc => Nat.max (jdepth x) acc) 0%nat elems)
  | JObject props =>
      S (fold_right (fun kv acc => Nat.max (jdepth (snd kv)) acc) 0%nat props)
  | _ => 0%nat
  end.

Definition validate (nbtData : JsVal) : outcome (list string) :=
  _validateTag (S (jdepth nbtData)) nbtData "" [].

End Validate.

(** ** The JSON codec: [SNBTConverter.fromJSON] and [SNBTConverter.toJSON] *)

Definition Math_floor (n : JsNumber) : JsNumber :=
  match n with
  | NDyadic m e => NInt (Z.shiftr m (Zpos e))
  | _ => n
  end.

(** [Math.min(a, n)] and [Math.max(a, n)] for an integer constant [a]. *)
Definition Math_min (a : Z) (n : JsNumber) : JsNumber :=
  match n with
  | NInt z => NInt (Z.min a z)
  | NDyadic m e => if m <? a * 2 ^ Zpos e then n else NInt a
  | NNaN => NNaN
  | NInf true => n
  | NInf false => NInt a
  end.

Definition Math_max (a : Z) (n : JsNumber) : JsNumber :=
  match n with
  | NInt z => NInt (Z.max a z)
  | NDyadic m e => if m >? a * 2 ^ Zpos e then n else NInt a
  | NNaN => NNaN
  | NInf true => NInt a
  | NInf false => n
  end.

(** [l.map(f)] with [f] possibly throwing. *)
Fixpoint mapO {A B} (f : A -> outcome B) (l : list A) : outcome (list B) :=
  match l with
  | [] => Ok []
  | x :: r => bindO (f x) (fun y => bindO (mapO f r) (fun ys => Ok (y :: ys)))
  end.

Section Json.

(** The conversions of the language: [Number(v)], [BigInt(v)] (which
    throws on what is no integer) and [String(v)]. *)
Variable ToNumber : JsVal -> JsNumber.
Variable ToBigInt : JsVal -> option Z.
Variable ToString : JsVal -> string.

Definition convertToType (value : JsVal) (type : string) : outcome JsVal :=
  let t := toLowerCase type in
  if String.eqb t "byte" then
    Ok (JNum (Math_max (-128) (Math_min 127 (Math_floor (ToNumber value)))))
  else if String.eqb t "short" then
    Ok (JNum (Math_max (-32768) (Math_min 32767 (Math_floor (ToNumber value)))))
  else if String.eqb t "int" then
    Ok (JNum (Math_max (-2147483648) (Math_min 2147483647 (Math_floor (ToNumber value)))))
  else if String.eqb t "long" then
    match ToBigInt value with
    | Some z => Ok (JBigInt z)
    | None => Throw
    end
  else if String.eqb t "float" then Ok (JNum (ToNumber value))
  else if String.eqb t "double" then Ok (JNum (ToNumber value))
  else if String.eqb t "string" then Ok (JString (ToString value))
  else Ok value.

(** The closure [convertValue] of [fromJSON]; the result is the pair of
    the fields of the tag [{type, value}]. *)
Fixpoint fromJSON_convertValue (inferTypes : bool) (value : JsVal)
    (expectedType : option string) {struct value} : outcome (string * JsVal) :=
  let inferred : outcome (string * JsVal) :=
    match value with
    | JBool b => Ok ("byte", JInt (if b then 1 else 0))
    | JNum (NInt v) =>
        if (-128 <=? v) && (v <=? 127) then Ok ("byte", value)
        else if (-32768 <=? v) && (v <=? 32767) then Ok ("short", value)
        else Ok ("int", value)
    | JNum _ => Ok ("double", value)
    | JString _ => Ok ("string", value)
    | JArray elems =>
        match elems with
        | [] => Ok ("list", mkList (JString "byte") [])
        | first :: _ =>
            bindO (fromJSON_convertValue inferTypes first None) (fun firstTag =>
            let firstType := fst firstTag in
            bindO (mapO (fun item =>
                           bindO (fromJSON_convertValue inferTypes item (Some firstType))
                                 (fun tag => Ok (snd tag))) elems) (fun items =>
            Ok ("list", mkList (JString firstType) items)))
        end
    | JObject props =>
        bindO (fold_left (fun acc kv =>
                            bindO acc (fun compound =>
                            bindO (fromJSON_convertValue inferTypes (snd kv) None)
                                  (fun tag =>
                            Ok (obj_set (fst kv) (mkTag (fst tag) (snd tag)) compound))))
                 props (Ok [])) (fun compound =>
        Ok ("compound", JObject compound))
    | _ => Ok ("string", JString (ToString value))
    end in
  match value with
  | JNull | JUndefined => Ok ("byte", JInt 0)
  | _ =>
      match expectedType with
      | Some t =>
          if negb (String.eqb t "") then
            bindO (convertToType value t) (fun v => Ok (t, v))
          else if inferTypes then inferred
          else Ok ("string", JString (ToString value))
      | None =>
          if inferTypes then inferred
          else Ok ("string", JString (ToString value))
      end
  end.

Definition fromJSON (jsonData : JsVal) (inferTypes : bool) : outcome JsVal :=
  if negb (truthy jsonData) || negb (typeof_object jsonData) then Ok JNull
  else
    bindO (fromJSON_convertValue inferTypes (prop "value" jsonData) None) (fun tag =>
    Ok (JObject [("name", js_or_else (prop "name" jsonData) (JString ""));
                 ("type", js_or_else (prop "type" jsonData) (JString "compound"));
                 ("value", snd tag)])).

(** [value.toString()] *)
Definition toString_method (v : JsVal) : outcome JsVal :=
  match v with
  | JUndefined | JNull => Throw
  | JBigInt z => Ok (JString (showZ z))
  | _ => Ok (JString (ToString v))
  end.

(** [Object.entries(v)] *)
Fixpoint string_entries (s : string) (i : nat) : list (string * JsVal) :=
  match s with
  | EmptyString => []
  | String c r => (showZ (Z.of_nat i), JString (String c "")) :: string_entries r (S i)
  end.

Definition Object_entries (v : JsVal) : outcome (list (string * JsVal)) :=
  match v with
  | JUndefined | JNull => Throw
  | JObject props => Ok props
  | JArray elems =>
      Ok (combine (map (fun i => showZ (Z.of_nat i)) (seq 0 (List.length elems))) elems)
  | JString s => Ok (string_entries s 0)
  | _ => Ok []
  end.

(** The closure [convertValue] of [toJSON]. *)
Fixpoint toJSON_convertValue (fuel : nat) (tag : JsVal) : outcome JsVal :=
  match fuel with
  | O => OutOfFuel
  | S fuel =>
      if negb (truthy tag) || negb (typeof_object tag) then Ok tag
      else
        let type := prop "type" tag in
        let value := prop "value" tag in
        match type with
        | JUndefined | JNull => Ok value          (* type?.toLowerCase() is undefined *)
        | JString type =>
            let t := toLowerCase type in
            if String.eqb t "long" then toString_method value
            else if String.eqb t "long_array" then
              match value with
              | JArray elems => bindO (mapO toString_method elems) (fun l => Ok (JArray l))
              | _ => Throw
              end
            else if String.eqb t "list" then
              match value with
              | JUndefined | JNull => Throw
              | _ =>
                  match prop "value" value with
                  | JArray items =>
                      bindO (mapO (fun item =>
                                     toJSON_convertValue fuel
                                       (JObject [("type", prop "type" value);
                                                 ("value", item)])) items)
                            (fun l => Ok (JArray l))
                  | _ => Throw
                  end
              end
            else if String.eqb t "compound" then
              bindO (Object_entries value) (fun entries =>
              bindO (fold_left (fun acc kv =>
                                  bindO acc (fun result =>
                                  bindO (toJSON_convertValue fuel (snd kv)) (fun v =>
                                  Ok (obj_set (fst kv) v result))))
                       entries (Ok [])) (fun result =>
              Ok (JObject result)))
            else Ok value
        | _ => Throw            (* type.toLowerCase is not a function *)
        end
  end.

Definition toJSON (nbtData : JsVal) : outcome JsVal :=
  if negb (truthy nbtData) || negb (typeof_object nbtData) then Ok JNull
  else
    bindO (toJSON_convertValue (S (jdepth nbtData)) nbtData) (fun value =>
    Ok (JObject [("name", prop "name" nbtData);
                 ("type", prop "type" nbtData);
                 ("value", value)])).

End Json.

(** * Building lists from native values *)

(** C5, as stated, fails: the items [1] and ["a"] have the inferred
    variants byte and string, and [createList] returns a List of
    element variant byte holding both items. *)
Lemma createList_counterexample :
  prop "type" (autoDetectType (JInt 1)) = JString "byte" /\
  prop "type" (autoDetectType (JString "a")) = JString "string" /\
  createList [JInt 1; JString "a"] JNull
  = mkTag "list" (mkList (JString "byte") [JInt 1; JString "a"]).
Proof. repeat split. Qed.

(** C5, amended: for every non-empty list of native items [createList]
    returns a List and never fails; its element variant is the one
    supplied, or else the one inferred from item 0; it holds one payload
    per item, in order: the inferred payload of an item whose inferred
    variant is the element variant, and the item itself, unchanged,
    otherwise. *)
Theorem createList_returns_list (first : JsVal) (rest : list JsVal) (type : JsVal) :
  let items := first :: rest in
  let elemType := js_or_else type (prop "type" (autoDetectType first)) in
  exists payloads,
    createList items type = mkTag "list" (mkList elemType payloads) /\
    List.length payloads = List.length items /\
    forall i item, nth_error items i = Some item ->
      nth_error payloads i
      = Some (if strict_eq (prop "type" (autoDetectType item)) elemType
              then prop "value" (autoDetectType item)
              else item).
Proof.
  intros items elemType. eexists. split; [reflexivity|]. split.
  - apply length_map.
  - intros i item Hi. rewrite nth_error_map, Hi. reflexivity.
Qed.

(** * JSON ingest of a large integer *)

Definition s4_input (n : Z) : JsVal :=
  JObject [("type", JString "compound"); ("value", JObject [("n", JInt n)])].

(** C6 (the code departs from the claim): JSON ingest of scenario S4 gives
    the entry [n] the type int, not long, with the Number as its value, and
    the JSON view of the result gives [n] as that Number, not as a string.
    This holds for the integer of the claim and for 2^63, the double that
    [JSON.parse] makes of it. *)
Theorem fromJSON_large_integer_is_int
    (ToNumber : JsVal -> JsNumber) (ToBigInt : JsVal -> option Z)
    (ToString : JsVal -> string) (n : Z) :
  n = 9223372036854775807 \/ n = 9223372036854775808 ->
  fromJSON ToNumber ToBigInt ToString (s4_input n) true
  = Ok (JObject [("name", JString ""); ("type", JString "compound");
                 ("value", JObject [("n", mkTag "int" (JInt n))])]) /\
  toJSON ToString
    (JObject [("name", JString ""); ("type", JString "compound");
              ("value", JObject [("n", mkTag "int" (JInt n))])])
  = Ok (JObject [("name", JString ""); ("type", JString "compound");
                 ("value", JObject [("n", JInt n)])]).
Proof. intros [-> | ->]; split; reflexivity. Qed.

Lemma fromJSON_large_integer_is_int_witness :
  fromJSON (fun _ => NNaN) (fun _ => None) (fun _ => "") (s4_input 9223372036854775807) true
  = Ok (JObject [("name", JString ""); ("type", JString "compound");
                 ("value", JObject [("n", mkTag "int" (JInt 9223372036854775807))])]) /\
  toJSON (fun _ => "")
    (JObject [("name", JString ""); ("type", JString "compound");
              ("value", JObject [("n", mkTag "int" (JInt 9223372036854775807))])])
  = Ok (JObject [("name", JString ""); ("type", JString "compound");
                 ("value", JObject [("n", JInt 9223372036854775807)])]).
Proof.
  apply (fromJSON_large_integer_is_int (fun _ => NNaN) (fun _ => None) (fun _ => "")
           9223372036854775807).
  left. reflexivity.
Defined.

(** * Validation of malformed input *)

(** C8 (the code departs from the claim): on the object
    [{ type: 5, value: 0 }] the validator throws, whatever the fuel, since
    [tag.type.toUpperCase] is no function of a Number; and so it does on
    [{ type: 'compound', value: null }], where [Object.entries(null)]
    throws. *)
Theorem validate_throws (ToString : JsVal -> string) (fuel : nat) :
  _validateTag ToString (S fuel) (JObject [("type", JInt 5); ("value", JInt 0)]) "" []
  = Throw /\
  validate ToString (JObject [("type", JInt 5); ("value", JInt 0)]) = Throw /\
  validate ToString (JObject [("type", JString "compound"); ("value", JNull)]) = Throw.
Proof. repeat split. Qed.

Local Close Scope string_scope.

(** * Saving and reloading a region archive *)

(** ** Writes into a buffer *)



Lemma buf_write_inv buffer off bs b' :
  buf_write buffer off bs = Some b' ->
  0 <= off /\ off + len bs <= len buffer /\
  b' = firstn (Z.to_nat off) buffer ++ bs
       ++ skipn (Z.to_nat off + List.length bs) buffer.
Proof.
  unfold buf_write.
  destruct (Z.leb_spec 0 off); [|discriminate].
  destruct (Z.leb_spec (off + len bs) (len buffer)); [|discriminate].
  simpl. intros E. apply Some_eq in E. auto.
Qed.


Lemma len_buf_write buffer off bs b' :
  buf_write buffer off bs = Some b' -> len b' = len buffer.
Proof.
  intros H. apply buf_write_inv in H as (H0 & H1 & ->).
  unfold len in *. rewrite !length_app, length_firstn, length_skipn. lia.
Qed.


(** Two byte ranges, given by offset and length, that do not meet. *)
Definition disjoint (o1 l1 o2 l2 : Z) : Prop := o1 + l1 <= o2 \/ o2 + l2 <= o1.



(** ** Sequences of writes *)

Fixpoint apply_writes (ws : list (Z * list byte)) (buffer : list byte)
  : option (list byte) :=
  match ws with
  | [] => Some buffer
  | (o, bs) :: r => b <- buf_write buffer o bs ;; apply_writes r b
  end.

Definition fits (L : Z) (w : Z * list byte) : Prop :=
  0 <= fst w /\ fst w + len (snd w) <= L.

Definition apart (o l : Z) (w : Z * list byte) : Prop :=
  disjoint o l (fst w) (len (snd w)).





Lemma apply_writes_fits ws buffer b' :
  apply_writes ws buffer = Some b' -> Forall (fits (len buffer)) ws.
Proof.
  revert buffer. induction ws as [|[o bs] r IH]; intros buffer H; simpl in H.
  - constructor.
  - apply obind_inv in H as (b & Hb & H). constructor.
    + apply buf_write_inv in Hb as (H0 & H1 & _). split; assumption.
    + rewrite <- (len_buf_write _ _ _ _ Hb). eauto.
Qed.


Lemma apart_sym o l w :
  apart (fst w) (len (snd w)) (o, repeat x00 (Z.to_nat l)) -> 0 <= l ->
  apart o l w.
Proof.
  unfold apart, disjoint, len. simpl. rewrite repeat_length. lia.
Qed.




(** ** The location word *)





Lemma location_word_zero :
  js_and (js_sar 0 8) 16777215 = 0.
Proof. reflexivity. Qed.

(** ** The layout computed by [createMCABuffer] *)



Section SaveLoad.

Variable gunzipSync : list byte -> option (list byte).
Variable inflateSync : list byte -> option (list byte).
Variable deflateSync : list byte -> list byte.
Variable fuel : nat.











(** *** The three loops as sequences of writes *)










(** *** Where the writes fall *)











(** *** Distinct keys are distinct slots *)


Lemma chunkKey_inj x z x' z' :
  0 <= x < 32 -> 0 <= z < 32 -> 0 <= x' < 32 -> 0 <= z' < 32 ->
  chunkKey x z = chunkKey x' z' -> x = x' /\ z = z'.
Proof.
  intros Hx Hz Hx' Hz' E.
  pose proof (keyCoords_chunkKey x z Hx Hz) as P.
  rewrite E, (keyCoords_chunkKey x' z' Hx' Hz') in P.
  injection P as -> ->. auto.
Qed.





(** *** The buffer that [createMCABuffer] returns *)



(** ** Reading the file back *)

Definition decode_location (w : Z) : option location :=
  let sectorOffset := js_and (js_sar w 8) 16777215 in
  let sectorCount := js_and w 255 in
  if negb (sectorOffset =? 0) && negb (sectorCount =? 0)
  then Some (Loc sectorOffset sectorCount) else None.

Lemma nth_array_set_eq {A} (hole d : A) i v l :
  nth i (array_set hole i v l) d = v.
Proof. revert l. induction i as [|i IH]; intros [|x l]; simpl; auto. Qed.

Lemma nth_array_set_ne {A} (hole d : A) i j v l :
  (i < List.length l)%nat -> j <> i -> nth j (array_set hole i v l) d = nth j l d.
Proof.
  revert l j. induction i as [|i IH]; intros [|x l] [|j] H Hne; simpl in *;
    try lia; try reflexivity.
  apply IH; lia.
Qed.

Lemma parseLocation_loop buffer (expected : nat -> option location) :
  (forall i, (i < 1024)%nat ->
     exists w, readUInt32BE buffer (Z.of_nat i * 4) = Some w /\
               decode_location w = expected i) ->
  forall n, (n <= 1024)%nat ->
  exists locs,
    for_loop n (parseLocation buffer) (repeat None 1024) = Some locs /\
    List.length locs = 1024%nat /\
    forall i, nth i locs None = if (i <? n)%nat then expected i else None.
Proof.
  intros Hread. induction n as [|n IH]; intros Hn.
  - exists (repeat None 1024). split; [reflexivity|]. split.
    + apply repeat_length.
    + intros i. apply nth_repeat.
  - destruct (IH ltac:(lia)) as (locs & Hloop & Hlen & Hnth).
    destruct (Hread n ltac:(lia)) as (w & Hw & Hdec).
    rewrite for_loop_S, Hloop. cbn [obind]. unfold parseLocation. rewrite Hw.
    cbn [obind]. unfold decode_location in Hdec.
    destruct (negb (js_and (js_sar w 8) 16777215 =? 0) && negb (js_and w 255 =? 0)).
    + eexists. split; [reflexivity|]. split; [rewrite length_array_set; lia|].
      intros i. destruct (Nat.eq_dec i n) as [->|Hne].
      * rewrite nth_array_set_eq, Hdec.
        destruct (Nat.ltb_spec n (S n)); [reflexivity | lia].
      * rewrite nth_array_set_ne by lia. rewrite Hnth.
        destruct (Nat.ltb_spec i n); destruct (Nat.ltb_spec i (S n)); try lia; reflexivity.
    + exists locs. split; [reflexivity|]. split; [exact Hlen|].
      intros i. rewrite Hnth.
      destruct (Nat.eq_dec i n) as [->|Hne].
      * destruct (Nat.ltb_spec n n); [lia|].
        destruct (Nat.ltb_spec n (S n)); [auto | lia].
      * destruct (Nat.ltb_spec i n); destruct (Nat.ltb_spec i (S n)); try lia; reflexivity.
Qed.

Lemma readUInt32BE_in_bounds buffer o :
  0 <= o -> o + 4 <= len buffer -> exists w, readUInt32BE buffer o = Some w.
Proof.
  intros H0 H1. unfold readUInt32BE, bytesAt, buflen. fold (len buffer).
  destruct (Z.leb_spec 0 o); [|lia].
  destruct (Z.leb_spec (o + 4) (len buffer)); [|lia]. simpl. eauto.
Qed.




Hypothesis inflate_deflate : forall data, inflateSync (deflateSync data) = Some data.













Lemma map_get_In {V} k (m : list (string * V)) v :
  map_get k m = Some v -> In (k, v) m.
Proof.
  induction m as [|[k0 v0] m IH]; simpl; [discriminate|].
  destruct (String.eqb_spec k0 k) as [->|_]; intros H.
  - apply Some_eq in H. subst. now left.
  - right. auto.
Qed.




End SaveLoad.

(** ** The round trip of an archive *)






(** The archive of scenario S5: small compounds at (0, 0) and (5, 9). *)
Definition two_chunk_mca : MCAFile :=
  setChunk 1700000001
    (setChunk 1700000000 newMCAFile 0 0 (RTag hello_doc))
    5 9 (RTag empty_byte_list_doc).


(** * The text form ([snbt-converter.js])

    Texts are strings of bytes.  The whitespace of the model is the ASCII
    part of the class [\s]; the length of a text is its number of bytes. *)

Local Open Scope string_scope.
Local Open Scope Z_scope.

Fixpoint repeat_string (s : string) (n : nat) : string :=
  match n with
  | O => ""
  | S k => s ++ repeat_string s k
  end.

(** [s.replace(/c/g, by)] *)
Fixpoint replace_all (c : ascii) (by_ : string) (s : string) : string :=
  match s with
  | EmptyString => ""
  | String a r =>
      if Ascii.eqb a c then by_ ++ replace_all c by_ r
      else String a (replace_all c by_ r)
  end.

Definition code (c : ascii) : nat := nat_of_ascii c.

Definition is_digit (c : ascii) : bool := ((48 <=? code c) && (code c <=? 57))%nat.
Definition is_alpha (c : ascii) : bool :=
  (((65 <=? code c) && (code c <=? 90)) || ((97 <=? code c) && (code c <=? 122)))%nat.

(** [/[a-zA-Z0-9_\-\.\+]/] *)
Definition is_key_char (c : ascii) : bool :=
  is_alpha c || is_digit c || Ascii.eqb c "_" || Ascii.eqb c "-"
  || Ascii.eqb c "." || Ascii.eqb c "+".

(** [/^[a-zA-Z_][a-zA-Z0-9_\-\.\+]*$/] *)
Fixpoint all_chars (p : ascii -> bool) (s : string) : bool :=
  match s with
  | EmptyString => true
  | String c r => p c && all_chars p r
  end.

Definition is_plain_key (key : string) : bool :=
  match key with
  | EmptyString => false
  | String c r => (is_alpha c || Ascii.eqb c "_") && all_chars is_key_char r
  end.

(** [/[0-9.]/], [/[bslfdBSLFD]/] and [/\s/] *)
Definition is_digit_or_dot (c : ascii) : bool := is_digit c || Ascii.eqb c ".".

Definition is_suffix (c : ascii) : bool :=
  existsb (Ascii.eqb c) (list_ascii_of_string "bslfdBSLFD").

Definition is_space (c : ascii) : bool :=
  Ascii.eqb c " " || ((9 <=? code c) && (code c <=? 13))%nat.

(** [l.map(f)] with [f] possibly throwing. *)
Fixpoint map_option {A B} (f : A -> option B) (l : list A) : option (list B) :=
  match l with
  | [] => Some []
  | x :: r => y <- f x ;; ys <- map_option f r ;; Some (y :: ys)
  end.

Definition newline : string := String (ascii_of_nat 10) "".
Definition quote : string := String (ascii_of_nat 34) "".
Definition backslash : string := String (ascii_of_nat 92) "".

Section TextForm.

(** The text of a Number held by a Float or a Double tag. *)
Variable showFloat : Z -> string.
Variable showDouble : Z -> string.

(** [`${value}`] for a primitive; the text of an integral Number is taken
    to be its decimal digits. *)
Definition showValue (value : payload) : option string :=
  match value with
  | PNum z => Some (showZ z)
  | PNaN => Some "NaN"
  | PBig z => Some (showZ z)
  | PFloat w => Some (showFloat w)
  | PDouble w => Some (showDouble w)
  | PStr s => Some s
  | _ => None
  end.

Definition withSuffix (suffix : string) (value : payload) : option string :=
  t <- showValue value ;; Some (t ++ suffix).

Definition escapeString (value : string) : string :=
  replace_all (ascii_of_nat 34) (backslash ++ quote)
    (replace_all (ascii_of_nat 92) (backslash ++ backslash) value).

(** The two layouts of a list or a compound: on one line when every item
    is shorter than [limit], else one item per line. *)
Definition layout (open close : string) (limit : nat) (indentStr nextIndentStr : string)
    (items : list string) : string :=
  if forallb (fun item => (String.length item <? limit)%nat) items
  then open ++ String.concat "," items ++ close
  else open ++ newline
       ++ String.concat ("," ++ newline) (map (fun item => nextIndentStr ++ item) items)
       ++ newline ++ indentStr ++ close.

Fixpoint toSNBT (type : option tagType) (value : payload) (indent : Z) {struct value}
  : option string :=
  if indent <? 0 then None          (* '  '.repeat(indent) throws *)
  else
    let indentStr := repeat_string "  " (Z.to_nat indent) in
    let nextIndentStr := repeat_string "  " (Z.to_nat (indent + 1)) in
    match type with
    | Some BYTE => withSuffix "b" value
    | Some SHORT => withSuffix "s" value
    | Some INT => withSuffix "" value
    | Some LONG => withSuffix "L" value
    | Some FLOAT => withSuffix "f" value
    | Some DOUBLE => withSuffix "d" value
    | Some STRING =>
        match value with
        | PStr s => Some (quote ++ escapeString s ++ quote)
        | _ => None
        end
    | Some BYTE_ARRAY =>
        match value with
        | PArr a =>
            ts <- map_option (withSuffix "b") a ;;
            Some ("[B;" ++ String.concat "," ts ++ "]")
        | _ => None
        end
    | Some INT_ARRAY =>
        match value with
        | PArr a =>
            ts <- map_option showValue a ;;
            Some ("[I;" ++ String.concat "," ts ++ "]")
        | _ => None
        end
    | Some LONG_ARRAY =>
        match value with
        | PArr a =>
            ts <- map_option (withSuffix "L") a ;;
            Some ("[L;" ++ String.concat "," ts ++ "]")
        | _ => None
        end
    | Some LIST =>
        match value with
        | PList ty [] => Some "[]"
        | PList ty items =>
            listItems <- map_option (fun item => toSNBT ty item (indent + 1)) items ;;
            Some (layout "[" "]" 20 indentStr nextIndentStr listItems)
        | _ => None
        end
    | Some COMPOUND =>
        match value with
        | PObj [] => Some "{}"
        | PObj entries =>
            compoundItems <-
              map_option (fun e : string * (tagType * payload) =>
                            let '(key, (ty, v)) := e in
                            let keyStr := if is_plain_key key then key
                                          else quote ++ key ++ quote in
                            valueStr <- toSNBT (Some ty) v (indent + 1) ;;
                            Some (keyStr ++ ":" ++ valueStr)) entries ;;
            Some (layout "{" "}" 30 indentStr nextIndentStr compoundItems)
        | _ => None
        end
    | Some END | None => Some "null"
    end.

End TextForm.

(** ** SNBTParser

    The parser only moves forward, so its state is the text that is
    left. *)

Definition parsed (A : Type) := outcome (A * string).

Fixpoint skipWhitespace (s : string) : string :=
  match s with
  | String c r => if is_space c then skipWhitespace r else s
  | EmptyString => s
  end.

(** [consume()] and [consume(expected)] *)
Definition consumeAny (s : string) : parsed ascii :=
  match s with
  | EmptyString => Throw           (* Unexpected end of input *)
  | String c r => Ok (c, r)
  end.

Definition consume (expected : ascii) (s : string) : outcome string :=
  match s with
  | EmptyString => Throw
  | String c r => if Ascii.eqb c expected then Ok r else Throw
  end.

Definition peek_is (c : ascii) (s : string) : bool :=
  match s with
  | String a _ => Ascii.eqb a c
  | EmptyString => false
  end.

(** The characters at the head of [s] that satisfy [p], and the rest. *)
Fixpoint span (p : ascii -> bool) (s : string) : string * string :=
  match s with
  | String c r =>
      if p c then let '(a, b) := span p r in (String c a, b) else (EmptyString, s)
  | EmptyString => (EmptyString, EmptyString)
  end.

Definition unescape (escaped : ascii) : ascii :=
  if Ascii.eqb escaped "n" then ascii_of_nat 10
  else if Ascii.eqb escaped "t" then ascii_of_nat 9
  else if Ascii.eqb escaped "r" then ascii_of_nat 13
  else escaped.

(** The loop of [parseString] and the closing [consume(quote)]. *)
Fixpoint stringBody (q : ascii) (s : string) : parsed string :=
  match s with
  | EmptyString => Throw
  | String c r =>
      if Ascii.eqb c q then Ok (EmptyString, r)
      else if Ascii.eqb c (ascii_of_nat 92) then
        match r with
        | EmptyString => Throw
        | String escaped r' =>
            bindO (stringBody q r') (fun vr => Ok (String (unescape escaped) (fst vr), snd vr))
        end
      else bindO (stringBody q r) (fun vr => Ok (String c (fst vr), snd vr))
  end.

Definition parseString (s : string) : parsed string :=
  bindO (consumeAny s) (fun qr => stringBody (fst qr) (snd qr)).

Definition is_quote (c : ascii) : bool :=
  Ascii.eqb c (ascii_of_nat 34) || Ascii.eqb c "'".

Definition starts_with (p : ascii -> bool) (s : string) : bool :=
  match s with
  | String c _ => p c
  | EmptyString => false
  end.

Definition parseKey (s : string) : parsed string :=
  let s := skipWhitespace s in
  if starts_with is_quote s then parseString s
  else Ok (span is_key_char s).

Definition uint_value (digits : string) : Z :=
  match NilEmpty.uint_of_string digits with
  | Some d => Z.of_uint d
  | None => 0
  end.

(** The sign of a numeric text and what follows it. *)
Definition split_sign (value : string) : bool * string :=
  match value with
  | String c r => if Ascii.eqb c "-" then (true, r) else (false, value)
  | EmptyString => (false, value)
  end.

(** [parseInt(value)] on a text made of an optional sign, digits and
    dots: the digits before the first dot. *)
Definition parseInt (value : string) : payload :=
  let '(negative, body) := split_sign value in
  let digits := fst (span is_digit body) in
  if String.eqb digits "" then PNaN
  else PNum (if negative then - uint_value digits else uint_value digits).

(** [BigInt(value)] on such a text: 0 for the empty text, and a
    SyntaxError unless the text is an integer. *)
Definition parseBigInt (value : string) : outcome payload :=
  if String.eqb value "" then Ok (PBig 0)
  else
    let '(negative, body) := split_sign value in
    if negb (String.eqb body "") && all_chars is_digit body
    then Ok (PBig (if negative then - uint_value body else uint_value body))
    else Throw.

Definition suffix_type (c : ascii) (type : tagType) : tagType :=
  let c := lower_ascii c in
  if Ascii.eqb c "b" then BYTE else if Ascii.eqb c "s" then SHORT
  else if Ascii.eqb c "l" then LONG else if Ascii.eqb c "f" then FLOAT
  else if Ascii.eqb c "d" then DOUBLE else type.

Fixpoint contains_char (c : ascii) (s : string) : bool :=
  match s with
  | EmptyString => false
  | String a r => Ascii.eqb a c || contains_char c r
  end.

Section TextParser.

(** The value that [parseFloat] makes of a text, under the type float and
    under the type double. *)
Variable floatOfString : string -> payload.
Variable doubleOfString : string -> payload.

(** The conversion of the scanned text, by type. *)
Definition numValue (type : tagType) (value : string) : outcome payload :=
  match type with
  | LONG => parseBigInt value
  | FLOAT => Ok (floatOfString value)
  | DOUBLE => Ok (doubleOfString value)
  | _ => Ok (parseInt value)
  end.

(** The type suffix, if one follows. *)
Definition typeSuffix (type : tagType) (s : string) : tagType * string :=
  match s with
  | String c r => if is_suffix c then (suffix_type c type, r) else (type, s)
  | EmptyString => (type, s)
  end.

Definition parseNumber (s : string) : parsed (tagType * payload) :=
  let '(sign, s) := if peek_is "-" s
                    then ("-", match s with String _ r => r | _ => s end)
                    else ("", s) in
  let '(digits, s) := span is_digit_or_dot s in
  let value := sign ++ digits in
  let type := if contains_char "." digits then DOUBLE else INT in
  let '(type, s) := typeSuffix type s in
  bindO (numValue type value) (fun v => Ok ((type, v), s)).

(** The loop of [parseTypedArray]. *)
Fixpoint typedArrayLoop (fuel : nat) (items : list payload) (s : string)
  : parsed (list payload) :=
  match fuel with
  | O => OutOfFuel
  | S fuel =>
      if peek_is "]" s then Ok (items, s)
      else
        let s := skipWhitespace s in
        bindO (parseNumber s) (fun vr =>
        let items := (items ++ [snd (fst vr)])%list in
        let s := skipWhitespace (snd vr) in
        if peek_is "]" s then Ok (items, s)
        else bindO (consume "," s) (typedArrayLoop fuel items))
  end.

(** The loops of [parseCompound] and of [parseArray], over a given
    [parseValue]. *)
Fixpoint compoundLoop (parseValue : string -> parsed (tagType * payload)) (fuel : nat)
    (compound : list (string * (tagType * payload))) (s : string)
  : parsed (tagType * payload) :=
  match fuel with
  | O => OutOfFuel
  | S fuel =>
      let s := skipWhitespace s in
      bindO (parseKey s) (fun kr =>
      let s := skipWhitespace (snd kr) in
      bindO (consume ":" s) (fun s =>
      let s := skipWhitespace s in
      bindO (parseValue s) (fun vr =>
      let compound := obj_set (fst kr) (fst vr) compound in
      let s := skipWhitespace (snd vr) in
      if peek_is "}" s
      then bindO (consume "}" s) (fun s => Ok ((COMPOUND, PObj compound), s))
      else bindO (consume "," s) (compoundLoop parseValue fuel compound))))
  end.

Fixpoint listLoop (parseValue : string -> parsed (tagType * payload)) (fuel : nat)
    (listType : option tagType) (items : list payload) (s : string)
  : parsed (tagType * payload) :=
  match fuel with
  | O => OutOfFuel
  | S fuel =>
      let s := skipWhitespace s in
      bindO (parseValue s) (fun vr =>
      let listType := match listType with
                      | None => Some (fst (fst vr))
                      | Some _ => listType
                      end in
      let items := (items ++ [snd (fst vr)])%list in
      let s := skipWhitespace (snd vr) in
      if peek_is "]" s
      then bindO (consume "]" s) (fun s => Ok ((LIST, PList listType items), s))
      else bindO (consume "," s) (listLoop parseValue fuel listType items))
  end.

Definition parseCompound (parseValue : string -> parsed (tagType * payload))
    (fuel : nat) (s : string) : parsed (tagType * payload) :=
  bindO (consume "{" s) (fun s =>
  let s := skipWhitespace s in
  if peek_is "}" s
  then bindO (consume "}" s) (fun s => Ok ((COMPOUND, PObj []), s))
  else compoundLoop parseValue fuel [] s).

Definition parseArray (parseValue : string -> parsed (tagType * payload))
    (fuel : nat) (s : string) : parsed (tagType * payload) :=
  bindO (consume "[" s) (fun s =>
  let s := skipWhitespace s in
  if peek_is "B" s || peek_is "I" s || peek_is "L" s then
    bindO (consumeAny s) (fun tr =>
    bindO (consume ";" (snd tr)) (fun s =>
    bindO (typedArrayLoop fuel [] (skipWhitespace s)) (fun ar =>
    bindO (consume "]" (snd ar)) (fun s =>
    let type := if Ascii.eqb (fst tr) "B" then BYTE_ARRAY
                else if Ascii.eqb (fst tr) "I" then INT_ARRAY else LONG_ARRAY in
    Ok ((type, PArr (fst ar)), s)))))
  else
    let s := skipWhitespace s in
    if peek_is "]" s
    then bindO (consume "]" s) (fun s => Ok ((LIST, PList (Some BYTE) []), s))
    else listLoop parseValue fuel None [] s).

(** [parseValue]; the fuel bounds the nesting depth and the number of
    items of each list, array and compound. *)
Fixpoint parseValue (fuel : nat) (s : string) : parsed (tagType * payload) :=
  match fuel with
  | O => OutOfFuel
  | S fuel =>
      let s := skipWhitespace s in
      if peek_is "{" s then parseCompound (parseValue fuel) fuel s
      else if peek_is "[" s then parseArray (parseValue fuel) fuel s
      else if starts_with is_quote s then
        bindO (parseString s) (fun vr => Ok ((STRING, PStr (fst vr)), snd vr))
      else parseNumber s
  end.

(** [s.trim()] *)
Fixpoint trimEnd (s : string) : string :=
  match s with
  | EmptyString => EmptyString
  | String c r =>
      match trimEnd r with
      | EmptyString => if is_space c then EmptyString else String c EmptyString
      | r' => String c r'
      end
  end.

Definition trim (s : string) : string := trimEnd (skipWhitespace s).

(** [SNBTConverter.fromSNBT] *)
Definition fromSNBT (fuel : nat) (snbtString : string) : outcome (tagType * payload) :=
  let input := trim snbtString in
  bindO (parseValue fuel (skipWhitespace input)) (fun vr => Ok (fst vr)).

End TextParser.

(** * Properties of texts *)

Lemma append_assoc (a b c : string) : (a ++ b) ++ c = a ++ (b ++ c).
Proof. induction a as [|x a IH]; simpl; [reflexivity | now rewrite IH]. Qed.

Lemma append_nil_r (a : string) : a ++ "" = a.
Proof. induction a as [|x a IH]; simpl; [reflexivity | now rewrite IH]. Qed.

Lemma all_chars_app p a b :
  all_chars p (a ++ b) = all_chars p a && all_chars p b.
Proof.
  induction a as [|x a IH]; simpl; [reflexivity|].
  now rewrite IH, andb_assoc.
Qed.

(** [s] is empty or starts with a character that fails [p]. *)
Definition stops (p : ascii -> bool) (s : string) : bool := negb (starts_with p s).

Lemma span_app p a rest :
  all_chars p a = true -> stops p rest = true -> span p (a ++ rest) = (a, rest).
Proof.
  intros Ha Hr. induction a as [|x a IH]; simpl in *.
  - destruct rest as [|c r]; [reflexivity|]. unfold stops in Hr. simpl in Hr.
    apply negb_true_iff in Hr. cbn [span]. now rewrite Hr.
  - apply andb_true_iff in Ha as [Hx Ha]. rewrite Hx, (IH Ha). reflexivity.
Qed.

Lemma skipWhitespace_app ws s :
  all_chars is_space ws = true -> stops is_space s = true ->
  skipWhitespace (ws ++ s) = s.
Proof.
  intros Hw Hs. induction ws as [|x ws IH]; simpl in *.
  - destruct s as [|c r]; [reflexivity|]. unfold stops in Hs. simpl in Hs.
    apply negb_true_iff in Hs. cbn [skipWhitespace]. now rewrite Hs.
  - apply andb_true_iff in Hw as [Hx Hw]. rewrite Hx. auto.
Qed.

Lemma skipWhitespace_stops s : stops is_space s = true -> skipWhitespace s = s.
Proof. intros H. apply (skipWhitespace_app "" s eq_refl H). Qed.

(** ** The digits of an integer *)

Lemma all_digits_uint d : all_chars is_digit (NilEmpty.string_of_uint d) = true.
Proof. induction d; simpl; auto. Qed.

Lemma uint_value_string d : uint_value (NilEmpty.string_of_uint d) = Z.of_uint d.
Proof. unfold uint_value. now rewrite NilEmpty.usu. Qed.

Lemma string_of_uint_nonempty d : d <> Decimal.Nil -> NilEmpty.string_of_uint d <> "".
Proof. destruct d; simpl; congruence. Qed.

(** The text of [z]: its sign and its digits. *)
Definition digits_of (z : Z) : string :=
  match Z.to_int z with
  | Decimal.Pos d | Decimal.Neg d => NilZero.string_of_uint d
  end.

Lemma showZ_digits z :
  showZ z = (if z <? 0 then "-" else "") ++ digits_of z.
Proof. unfold showZ, digits_of. destruct z; reflexivity. Qed.

Lemma to_uint_nonnil p : Pos.to_uint p <> Decimal.Nil.
Proof.
  intros H. pose proof (DecimalPos.Unsigned.of_to p) as E. rewrite H in E.
  discriminate E.
Qed.

Lemma string_of_uint_nonnil d :
  d <> Decimal.Nil -> NilZero.string_of_uint d = NilEmpty.string_of_uint d.
Proof. destruct d; simpl; congruence. Qed.

Lemma digits_of_spec z :
  all_chars is_digit (digits_of z) = true /\ digits_of z <> "" /\
  uint_value (digits_of z) = Z.abs z.
Proof.
  unfold digits_of. pose proof (DecimalZ.of_to z) as E.
  destruct z as [|p|p]; cbn [Z.to_int Z.of_int] in *.
  - repeat split; discriminate.
  - pose proof (to_uint_nonnil p) as Hn. rewrite string_of_uint_nonnil by exact Hn.
    split; [apply all_digits_uint|]. split; [now apply string_of_uint_nonempty|].
    rewrite uint_value_string. exact E.
  - pose proof (to_uint_nonnil p) as Hn. rewrite string_of_uint_nonnil by exact Hn.
    split; [apply all_digits_uint|]. split; [now apply string_of_uint_nonempty|].
    rewrite uint_value_string. cbn [Z.abs]. lia.
Qed.

(** ** Scanning a number *)

Lemma is_digit_not_minus c : is_digit_or_dot c = true -> Ascii.eqb c "-" = false.
Proof.
  destruct c as [[] [] [] [] [] [] [] []]; try discriminate; reflexivity.
Qed.

Lemma is_digit_digit_or_dot c : is_digit c = true -> is_digit_or_dot c = true.
Proof. unfold is_digit_or_dot. now intros ->. Qed.

Lemma is_digit_not_dot c : is_digit c = true -> Ascii.eqb c "." = false.
Proof.
  destruct c as [[] [] [] [] [] [] [] []]; try discriminate; reflexivity.
Qed.

Lemma all_chars_impl (p q : ascii -> bool) s :
  (forall c, p c = true -> q c = true) -> all_chars p s = true -> all_chars q s = true.
Proof.
  intros Hpq. induction s as [|c r IH]; simpl; [reflexivity|].
  intros H. apply andb_true_iff in H as [Hc Hr]. now rewrite (Hpq c Hc), IH.
Qed.

Lemma digits_no_dot s : all_chars is_digit s = true -> contains_char "." s = false.
Proof.
  induction s as [|c r IH]; simpl; [reflexivity|].
  intros H. apply andb_true_iff in H as [Hc Hr].
  now rewrite (is_digit_not_dot c Hc), IH.
Qed.

(** A numeric text: an optional sign before a non-empty run of digits
    and dots. *)
Definition numeric_text (t : string) : bool :=
  let body := snd (split_sign t) in
  negb (String.eqb body "") && all_chars is_digit_or_dot body.

Lemma numeric_text_split t :
  numeric_text t = true ->
  exists sign body,
    t = sign ++ body /\ (sign = "" \/ sign = "-") /\
    body <> "" /\ all_chars is_digit_or_dot body = true /\
    split_sign t = (if String.eqb sign "" then false else true, body).
Proof.
  unfold numeric_text. intros H. apply andb_true_iff in H as [Hne Hall].
  apply negb_true_iff in Hne. apply String.eqb_neq in Hne.
  destruct t as [|c r]; [now elim Hne|]. unfold split_sign in *.
  destruct (Ascii.eqb_spec c "-") as [->|Hc]; cbn [snd] in *.
  - exists "-", r. repeat split; auto.
  - exists "", (String c r). repeat split; auto.
Qed.

Lemma parseNumber_scan floatOfString doubleOfString t tail :
  numeric_text t = true -> stops is_digit_or_dot tail = true ->
  parseNumber floatOfString doubleOfString (t ++ tail)
  = let type0 := if contains_char "." (snd (split_sign t)) then DOUBLE else INT in
    let '(type, s) := typeSuffix type0 tail in
    bindO (numValue floatOfString doubleOfString type t) (fun v => Ok ((type, v), s)).
Proof.
  intros Ht Htail.
  destruct (numeric_text_split t Ht) as (sign & body & -> & Hsign & Hne & Hall & Hsplit).
  rewrite Hsplit. cbn [snd]. unfold parseNumber.
  destruct body as [|c body]; [now elim Hne|].
  cbn [all_chars] in Hall. apply andb_true_iff in Hall as [Hc Hall].
  destruct Hsign as [-> | ->].
  - cbn [append peek_is]. rewrite (is_digit_not_minus c Hc).
    change (String c (body ++ tail)) with (String c body ++ tail).
    rewrite span_app; [reflexivity | | exact Htail].
    cbn [all_chars]. now rewrite Hc, Hall.
  - cbn [append peek_is]. change (Ascii.eqb "-" "-") with true. cbn iota.
    change (String c (body ++ tail)) with (String c body ++ tail).
    rewrite span_app; [reflexivity | | exact Htail].
    cbn [all_chars]. now rewrite Hc, Hall.
Qed.

Lemma split_sign_digits s :
  all_chars is_digit s = true -> split_sign s = (false, s).
Proof.
  destruct s as [|c r]; [reflexivity|]. cbn [all_chars split_sign]. intros H.
  apply andb_true_iff in H as [Hc _].
  now rewrite (is_digit_not_minus c (is_digit_digit_or_dot c Hc)).
Qed.

Lemma showZ_split z :
  split_sign (showZ z) = (z <? 0, digits_of z).
Proof.
  rewrite showZ_digits. destruct (digits_of_spec z) as (Hall & _ & _).
  destruct (z <? 0).
  - reflexivity.
  - cbn [append]. now apply split_sign_digits.
Qed.

Lemma numeric_text_showZ z : numeric_text (showZ z) = true.
Proof.
  unfold numeric_text. rewrite showZ_split. cbn [snd].
  destruct (digits_of_spec z) as (Hall & Hne & _).
  apply String.eqb_neq in Hne. rewrite Hne. cbn.
  eapply all_chars_impl; [|exact Hall]. apply is_digit_digit_or_dot.
Qed.

Lemma span_all p a : all_chars p a = true -> span p a = (a, "").
Proof.
  intros H. rewrite <- (append_nil_r a) at 1. now apply span_app.
Qed.

Lemma parseInt_showZ z : parseInt (showZ z) = PNum z.
Proof.
  unfold parseInt. rewrite showZ_split.
  destruct (digits_of_spec z) as (Hall & Hne & Hval).
  cbv beta iota. rewrite (span_all _ _ Hall). cbn [fst].
  apply String.eqb_neq in Hne. rewrite Hne, Hval.
  destruct (Z.ltb_spec z 0); f_equal; lia.
Qed.

Lemma parseBigInt_showZ z : parseBigInt (showZ z) = Ok (PBig z).
Proof.
  unfold parseBigInt. destruct (digits_of_spec z) as (Hall & Hne & Hval).
  assert (Hs : String.eqb (showZ z) "" = false).
  { apply String.eqb_neq. rewrite showZ_digits.
    destruct (z <? 0); [discriminate | exact Hne]. }
  rewrite Hs, showZ_split. cbv beta iota.
  apply String.eqb_neq in Hne. rewrite Hne, Hall, Hval.
  cbn [negb andb]. destruct (Z.ltb_spec z 0); do 2 f_equal; lia.
Qed.

(** ** Strings and keys *)

Lemma replace_all_app c by_ a b :
  replace_all c by_ (a ++ b) = replace_all c by_ a ++ replace_all c by_ b.
Proof.
  induction a as [|x a IH]; simpl; [reflexivity|].
  destruct (Ascii.eqb x c); rewrite IH; [now rewrite append_assoc | reflexivity].
Qed.

Definition escapeChar (c : ascii) : string :=
  if Ascii.eqb c (ascii_of_nat 92) then backslash ++ backslash
  else if Ascii.eqb c (ascii_of_nat 34) then backslash ++ quote
  else String c "".

Lemma escapeString_cons c r :
  escapeString (String c r) = escapeChar c ++ escapeString r.
Proof.
  unfold escapeString, escapeChar. cbn [replace_all].
  destruct (Ascii.eqb_spec c (ascii_of_nat 92)) as [->|Hb].
  - rewrite replace_all_app. reflexivity.
  - cbn [replace_all]. destruct (Ascii.eqb c (ascii_of_nat 34)); reflexivity.
Qed.

Lemma stringBody_escape_gen s tail rest :
  stringBody (ascii_of_nat 34) tail = Ok ("", rest) ->
  stringBody (ascii_of_nat 34) (escapeString s ++ tail) = Ok (s, rest).
Proof.
  intros Htail. induction s as [|c r IH].
  - exact Htail.
  - rewrite escapeString_cons, append_assoc. unfold escapeChar.
    destruct (Ascii.eqb_spec c (ascii_of_nat 92)) as [->|Hb].
    + cbn [append backslash stringBody]. change (Ascii.eqb _ _) with false at 1.
      cbv iota. change (Ascii.eqb _ _) with true at 1. cbv iota.
      rewrite IH. reflexivity.
    + destruct (Ascii.eqb_spec c (ascii_of_nat 34)) as [->|Hq].
      * cbn [append backslash quote stringBody]. change (Ascii.eqb _ _) with false at 1.
        cbv iota. change (Ascii.eqb _ _) with true at 1. cbv iota.
        rewrite IH. reflexivity.
      * cbn [append stringBody].
        apply Ascii.eqb_neq in Hb, Hq. rewrite Hq, Hb, IH. reflexivity.
Qed.

Lemma stringBody_escape s rest :
  stringBody (ascii_of_nat 34) (escapeString s ++ quote ++ rest) = Ok (s, rest).
Proof. now apply stringBody_escape_gen. Qed.

Lemma parseString_escape s rest :
  parseString (quote ++ escapeString s ++ quote ++ rest) = Ok (s, rest).
Proof. unfold parseString. cbn. apply stringBody_escape. Qed.

(** A key that can stand between quotes as it is. *)
Definition quotable (key : string) : bool :=
  negb (contains_char (ascii_of_nat 34) key)
  && negb (contains_char (ascii_of_nat 92) key).

Lemma stringBody_quotable key rest :
  quotable key = true ->
  stringBody (ascii_of_nat 34) (key ++ quote ++ rest) = Ok (key, rest).
Proof.
  unfold quotable. induction key as [|c r IH]; intros H; [reflexivity|].
  cbn [contains_char] in H. apply andb_true_iff in H as [Hq Hb].
  apply negb_true_iff in Hq, Hb. apply orb_false_iff in Hq as [Hq Hq'].
  apply orb_false_iff in Hb as [Hb Hb'].
  cbn [append stringBody]. rewrite Hq, Hb, IH; [reflexivity|].
  now rewrite Hq', Hb'.
Qed.

Lemma key_start_facts c :
  (is_alpha c || Ascii.eqb c "_") = true ->
  is_space c = false /\ is_quote c = false /\ is_key_char c = true.
Proof.
  destruct c as [[] [] [] [] [] [] [] []]; try discriminate; repeat split.
Qed.

(** The text of a key, as the emitter writes it. *)
Definition keyText (key : string) : string :=
  if is_plain_key key then key else quote ++ key ++ quote.

Lemma parseKey_keyText key rest :
  is_plain_key key = true \/ quotable key = true ->
  parseKey (keyText key ++ ":" ++ rest) = Ok (key, ":" ++ rest).
Proof.
  unfold keyText. destruct (is_plain_key key) eqn:Hp.
  - intros _. destruct key as [|c r]; [discriminate Hp|].
    cbn [is_plain_key] in Hp. apply andb_true_iff in Hp as [Hc Hr].
    destruct (key_start_facts c Hc) as (Hs & Hq & Hk).
    set (tail := ":" ++ rest).
    unfold parseKey. cbn [append skipWhitespace]. rewrite Hs.
    cbn [starts_with]. rewrite Hq.
    change (String c (r ++ tail)) with (String c r ++ tail).
    rewrite span_app; [reflexivity | | reflexivity].
    cbn [all_chars]. now rewrite Hk, Hr.
  - intros [H|H]; [discriminate H|].
    unfold parseKey. rewrite !append_assoc. cbn.
    unfold parseString. cbn. apply (stringBody_quotable key (":" ++ rest) H).
Qed.

(** ** What may follow a value, and how a value starts *)

(** A text that does not continue a number: it is empty or starts with a
    character that is neither a digit, a dot nor a type suffix. *)
Definition follow (s : string) : bool :=
  stops (fun c => is_digit_or_dot c || is_suffix c) s.

(** The first character of the text of a value. *)
Definition value_start (c : ascii) : bool :=
  is_digit_or_dot c || Ascii.eqb c "-" || Ascii.eqb c "{" || Ascii.eqb c "["
  || Ascii.eqb c (ascii_of_nat 34).

Lemma follow_stops s : follow s = true -> stops is_digit_or_dot s = true.
Proof.
  unfold follow, stops. destruct s as [|c r]; [reflexivity|]. cbn [starts_with].
  intros H. apply negb_true_iff in H. apply orb_false_iff in H as [H _].
  now rewrite H.
Qed.

Lemma follow_typeSuffix type s : follow s = true -> typeSuffix type s = (type, s).
Proof.
  unfold follow, stops. destruct s as [|c r]; [reflexivity|]. cbn [starts_with typeSuffix].
  intros H. apply negb_true_iff in H. apply orb_false_iff in H as [_ H].
  now rewrite H.
Qed.

Lemma space_follow c : is_space c = true -> is_digit_or_dot c || is_suffix c = false.
Proof.
  destruct c as [[] [] [] [] [] [] [] []]; try discriminate; reflexivity.
Qed.

Lemma follow_space ws s :
  all_chars is_space ws = true -> follow s = true -> follow (ws ++ s) = true.
Proof.
  destruct ws as [|c r]; [intros _ H; exact H|]. cbn [all_chars]. intros H _.
  apply andb_true_iff in H as [H _]. unfold follow, stops. cbn [append starts_with].
  now rewrite (space_follow c H).
Qed.

Lemma value_start_facts c :
  value_start c = true ->
  is_space c = false /\ Ascii.eqb c "B" = false /\ Ascii.eqb c "I" = false
  /\ Ascii.eqb c "L" = false /\ Ascii.eqb c "]" = false /\ Ascii.eqb c "}" = false.
Proof.
  destruct c as [[] [] [] [] [] [] [] []]; try discriminate; repeat split.
Qed.

Lemma number_start_facts c :
  is_digit_or_dot c || Ascii.eqb c "-" = true ->
  value_start c = true /\ Ascii.eqb c "{" = false /\ Ascii.eqb c "[" = false
  /\ is_quote c = false.
Proof.
  destruct c as [[] [] [] [] [] [] [] []]; try discriminate; repeat split.
Qed.

Lemma starts_with_app p a b : starts_with p a = true -> starts_with p (a ++ b) = true.
Proof. destruct a; [discriminate | intros H; exact H]. Qed.

Lemma value_start_stops t tail :
  starts_with value_start t = true -> stops is_space (t ++ tail) = true.
Proof.
  destruct t as [|c r]; [discriminate|]. cbn [starts_with]. intros H.
  unfold stops. cbn [append starts_with].
  now destruct (value_start_facts c H) as (-> & _).
Qed.

Lemma numeric_text_start t :
  numeric_text t = true ->
  starts_with (fun c => is_digit_or_dot c || Ascii.eqb c "-") t = true.
Proof.
  intros H. destruct (numeric_text_split t H) as (sign & body & -> & Hs & Hne & Hall & _).
  destruct Hs as [-> | ->]; [|reflexivity].
  destruct body as [|c r]; [now elim Hne|]. cbn [append starts_with].
  cbn [all_chars] in Hall. apply andb_true_iff in Hall as [-> _]. reflexivity.
Qed.

(** ** Trimming *)

Definition not_space (c : ascii) : bool := negb (is_space c).

Lemma trimEnd_not_space s : all_chars not_space s = true -> trimEnd s = s.
Proof.
  induction s as [|c r IH]; [reflexivity|]. cbn [all_chars trimEnd]. intros H.
  apply andb_true_iff in H as [Hc Hr]. rewrite (IH Hr).
  destruct r; [|reflexivity]. unfold not_space in Hc. apply negb_true_iff in Hc.
  now rewrite Hc.
Qed.

Lemma trimEnd_last a c :
  is_space c = false -> trimEnd (a ++ String c "") = a ++ String c "".
Proof.
  intros Hc. induction a as [|x a IH]; cbn [append trimEnd].
  - now rewrite Hc.
  - rewrite IH. destruct a; reflexivity.
Qed.

Lemma digit_or_dot_not_space c : is_digit_or_dot c = true -> not_space c = true.
Proof.
  destruct c as [[] [] [] [] [] [] [] []]; try discriminate; reflexivity.
Qed.

Lemma numeric_text_not_space t :
  numeric_text t = true -> all_chars not_space t = true.
Proof.
  intros H. destruct (numeric_text_split t H) as (sign & body & -> & Hs & _ & Hall & _).
  rewrite all_chars_app.
  rewrite (all_chars_impl is_digit_or_dot not_space body digit_or_dot_not_space Hall).
  destruct Hs as [-> | ->]; reflexivity.
Qed.

Lemma starts_with_impl (p q : ascii -> bool) s :
  (forall c, p c = true -> q c = true) -> starts_with p s = true -> starts_with q s = true.
Proof. destruct s as [|c r]; [discriminate|]. intros H. apply H. Qed.

Lemma suffix_facts c :
  is_suffix c = true ->
  not_space c = true /\ is_digit_or_dot c = false /\ suffix_type c DOUBLE = suffix_type c INT.
Proof.
  destruct c as [[] [] [] [] [] [] [] []]; try discriminate; repeat split.
Qed.

(** * The round trip through the text form *)

Section RoundTrip.

Variable showFloat : Z -> string.
Variable showDouble : Z -> string.
Variable floatOfString : string -> payload.
Variable doubleOfString : string -> payload.

(** [text] is read back as the tag [(type, value)] by [pv], whatever
    follows it. *)
Definition parses (pv : string -> parsed (tagType * payload)) (type : tagType)
    (value : payload) (text : string) : Prop :=
  starts_with value_start text = true /\ trimEnd text = text /\
  forall tail, follow tail = true -> pv (text ++ tail) = Ok ((type, value), tail).

(** The suffix that the emitter puts after the number of a tag. *)
Definition suffix_of (type : tagType) (suffix : string) : Prop :=
  (suffix = "" /\ type = INT)
  \/ exists c, suffix = String c "" /\ is_suffix c = true /\ suffix_type c INT = type.

Lemma parses_number t suffix type value :
  numeric_text t = true -> suffix_of type suffix ->
  (type = INT -> contains_char "." (snd (split_sign t)) = false) ->
  numValue floatOfString doubleOfString type t = Ok value ->
  parses (parseNumber floatOfString doubleOfString) type value (t ++ suffix).
Proof.
  intros Ht Hs Hdot Hv. split; [|split].
  - apply starts_with_app.
    apply (starts_with_impl _ _ _ (fun c H => proj1 (number_start_facts c H))).
    now apply numeric_text_start.
  - apply trimEnd_not_space. rewrite all_chars_app, numeric_text_not_space by exact Ht.
    destruct Hs as [[-> _] | (c & -> & Hc & _)]; [reflexivity|].
    cbn [all_chars andb]. now destruct (suffix_facts c Hc) as (-> & _).
  - intros tail Hf. rewrite append_assoc.
    destruct Hs as [[-> ->] | (c & -> & Hc & <-)].
    + cbn [append]. rewrite parseNumber_scan by (auto using follow_stops).
      rewrite (Hdot eq_refl). cbv zeta. rewrite follow_typeSuffix by exact Hf.
      now rewrite Hv.
    + destruct (suffix_facts c Hc) as (_ & Hd & Hty).
      cbn [append]. rewrite parseNumber_scan; [|exact Ht|unfold stops; cbn [starts_with]; now rewrite Hd].
      cbv zeta. cbn [typeSuffix]. rewrite Hc.
      destruct (contains_char "." (snd (split_sign t))); rewrite ?Hty, Hv; reflexivity.
Qed.

Lemma parseValue_number fuel s :
  starts_with (fun c => is_digit_or_dot c || Ascii.eqb c "-") s = true ->
  parseValue floatOfString doubleOfString (S fuel) s
  = parseNumber floatOfString doubleOfString s.
Proof.
  destruct s as [|c r]; [discriminate|]. cbn [starts_with]. intros H.
  destruct (number_start_facts c H) as (Hv & H1 & H2 & H3).
  destruct (value_start_facts c Hv) as (Hs & _).
  cbn [parseValue skipWhitespace]. rewrite Hs. cbn [peek_is starts_with].
  now rewrite H1, H2, H3.
Qed.

Lemma parses_value_number fuel t suffix type value :
  numeric_text t = true ->
  parses (parseNumber floatOfString doubleOfString) type value (t ++ suffix) ->
  parses (parseValue floatOfString doubleOfString (S fuel)) type value (t ++ suffix).
Proof.
  intros Ht (H1 & H2 & H3). split; [exact H1|]. split; [exact H2|].
  intros tail Hf. rewrite parseValue_number; [now apply H3|].
  rewrite append_assoc. apply starts_with_app. now apply numeric_text_start.
Qed.

Lemma showZ_no_dot z : contains_char "." (snd (split_sign (showZ z))) = false.
Proof.
  rewrite showZ_split. cbn [snd]. apply digits_no_dot.
  now destruct (digits_of_spec z) as (H & _).
Qed.

Lemma parses_int_number z suffix type :
  suffix_of type suffix -> type <> LONG -> type <> FLOAT -> type <> DOUBLE ->
  parses (parseNumber floatOfString doubleOfString) type (PNum z) (showZ z ++ suffix).
Proof.
  intros Hs H1 H2 H3. apply parses_number; auto using numeric_text_showZ.
  - intros _. apply showZ_no_dot.
  - destruct type; try congruence; cbn [numValue]; now rewrite parseInt_showZ.
Qed.

Lemma parses_big_number z :
  parses (parseNumber floatOfString doubleOfString) LONG (PBig z) (showZ z ++ "L").
Proof.
  apply parses_number; auto using numeric_text_showZ.
  - right. exists "L"%char. repeat split.
  - discriminate.
  - cbn [numValue]. apply parseBigInt_showZ.
Qed.

(** ** The layout of the items of a list or a compound *)

(** What follows the first item: each further item after a comma and the
    white space [pre], then [post] and the closing bracket. *)
Fixpoint items_tail (pre post close : string) (items : list string) (rest : string)
  : string :=
  match items with
  | [] => post ++ close ++ rest
  | x :: r => "," ++ pre ++ x ++ items_tail pre post close r rest
  end.

Lemma concat_items w n post close rest r : forall x,
  String.concat ("," ++ w) (map (append n) (x :: r)) ++ post ++ close ++ rest
  = n ++ x ++ items_tail (w ++ n) post close r rest.
Proof.
  induction r as [|y r IH]; intros x.
  - cbn [map String.concat items_tail]. apply append_assoc.
  - change (String.concat ("," ++ w) (map (append n) (x :: y :: r)))
      with ((n ++ x) ++ ("," ++ w) ++ String.concat ("," ++ w) (map (append n) (y :: r))).
    rewrite !append_assoc, IH. cbn [items_tail]. now rewrite !append_assoc.
Qed.

Lemma map_append_empty (l : list string) : map (append "") l = l.
Proof. induction l as [|x l IH]; [reflexivity|]. cbn [map]. now rewrite IH. Qed.

Lemma repeat_string_space n : all_chars is_space (repeat_string "  " n) = true.
Proof. induction n as [|n IH]; [reflexivity|]. cbn [repeat_string append all_chars]. exact IH. Qed.

Lemma layout_items open close limit i n x r rest :
  exists pre post,
    all_chars is_space pre = true /\ all_chars is_space post = true /\
    layout open close limit (repeat_string "  " i) (repeat_string "  " n) (x :: r) ++ rest
    = open ++ pre ++ x ++ items_tail pre post close r rest.
Proof.
  unfold layout. destruct (forallb _ (x :: r)).
  - exists "", "". split; [reflexivity|]. split; [reflexivity|].
    rewrite !append_assoc. f_equal.
    rewrite <- (map_append_empty (x :: r)) at 1.
    exact (concat_items "" "" "" close rest r x).
  - exists (newline ++ repeat_string "  " n), (newline ++ repeat_string "  " i).
    split; [apply repeat_string_space|]. split; [apply repeat_string_space|].
    rewrite !append_assoc. f_equal. f_equal.
    rewrite <- (append_assoc newline (repeat_string "  " i)).
    exact (concat_items newline (repeat_string "  " n) _ close rest r x).
Qed.

(** The layout ends with the closing bracket. *)
Lemma layout_last open close limit i n items :
  exists a, layout open close limit i n items = a ++ close.
Proof.
  unfold layout. destruct (forallb _ items).
  - eexists. now rewrite <- append_assoc.
  - eexists. now rewrite <- !append_assoc.
Qed.

Lemma map_option_Forall2 {A B} (f : A -> option B) (R : A -> B -> Prop) l :
  Forall (fun x => exists y, f x = Some y /\ R x y) l ->
  exists ys, map_option f l = Some ys /\ Forall2 R l ys.
Proof.
  induction 1 as [|x l (y & Hy & HR) _ (ys & Hys & HF)].
  - exists []. split; [reflexivity | constructor].
  - exists (y :: ys). cbn [map_option]. rewrite Hy, Hys. split; [reflexivity|].
    now constructor.
Qed.

Lemma concat_comma_items x r close rest :
  String.concat "," (x :: r) ++ close ++ rest = x ++ items_tail "" "" close r rest.
Proof.
  rewrite <- (map_append_empty (x :: r)) at 1.
  exact (concat_items "" "" "" close rest r x).
Qed.

Lemma follow_items_tail pre post close items rest :
  all_chars is_space post = true -> follow (close ++ rest) = true ->
  follow (items_tail pre post close items rest) = true.
Proof.
  intros Hp Hc. destruct items; [|reflexivity]. now apply follow_space.
Qed.

Lemma Forall2_map_left {A B C} (f : A -> B) (R : B -> C -> Prop) l l' :
  Forall2 (fun x y => R (f x) y) l l' -> Forall2 R (map f l) l'.
Proof. induction 1; constructor; auto. Qed.

(** ** The loops of the parser over the items of a layout *)

Lemma listLoop_items pv type pre post rest :
  all_chars is_space pre = true -> all_chars is_space post = true ->
  forall vs ts, Forall2 (parses pv type) vs ts ->
  forall fuel listType acc ws v t,
    parses pv type v t -> all_chars is_space ws = true ->
    (List.length ts < fuel)%nat ->
    listLoop pv fuel listType acc (ws ++ t ++ items_tail pre post "]" ts rest)
    = Ok ((LIST, PList (Some (match listType with Some l => l | None => type end))
                   (acc ++ v :: vs)), rest).
Proof.
  intros Hpre Hpost vs ts HF.
  induction HF as [|v' t' vs ts Hp' HF IH]; intros fuel listType acc ws v t Hp Hws Hfuel;
    (destruct fuel as [|fuel]; [cbn [List.length] in Hfuel; lia|]);
    destruct Hp as (Hstart & _ & Hparse); cbn [listLoop];
    rewrite (skipWhitespace_app ws _ Hws (value_start_stops _ _ Hstart));
    rewrite Hparse by (now apply follow_items_tail); cbn [bindO fst snd].
  - cbn [items_tail]. rewrite (skipWhitespace_app post ("]" ++ rest) Hpost eq_refl).
    cbn [append peek_is consume]. change (Ascii.eqb "]" "]") with true.
    cbn [bindO]. now destruct listType.
  - cbn [items_tail]. change (skipWhitespace ("," ++ ?s)) with ("," ++ s).
    cbn [append peek_is consume].
    change (Ascii.eqb "," "]") with false. change (Ascii.eqb "," ",") with true.
    cbn [bindO]. cbn [List.length] in Hfuel.
    rewrite (IH fuel _ (acc ++ [v])%list pre v' t' Hp' Hpre) by lia.
    rewrite <- app_assoc. now destruct listType.
Qed.

Lemma typedArrayLoop_items type rest :
  forall vs ts,
    Forall2 (parses (parseNumber floatOfString doubleOfString) type) vs ts ->
  forall fuel acc v t,
    parses (parseNumber floatOfString doubleOfString) type v t ->
    (List.length ts < fuel)%nat ->
    typedArrayLoop floatOfString doubleOfString fuel acc
      (t ++ items_tail "" "" "]" ts rest)
    = Ok ((acc ++ v :: vs)%list, "]" ++ rest).
Proof.
  intros vs ts HF.
  induction HF as [|v' t' vs ts Hp' HF IH]; intros fuel acc v t Hp Hfuel;
    (destruct fuel as [|fuel]; [cbn [List.length] in Hfuel; lia|]);
    destruct Hp as (Hstart & _ & Hparse); cbn [typedArrayLoop];
    (destruct t as [|c r]; [discriminate Hstart|]);
    destruct (value_start_facts c Hstart) as (Hs & _ & _ & _ & Hb & _);
    cbn [append peek_is skipWhitespace]; rewrite Hb, Hs;
    change (String c (r ++ ?s)) with (String c r ++ s);
    rewrite Hparse by (now apply follow_items_tail); cbn [bindO fst snd].
  - reflexivity.
  - cbn [items_tail]. change (skipWhitespace ("," ++ ?s)) with ("," ++ s).
    cbn [append peek_is consume].
    change (Ascii.eqb "," "]") with false. change (Ascii.eqb "," ",") with true.
    cbn [bindO]. cbn [List.length] in Hfuel.
    rewrite (IH fuel (acc ++ [v])%list v' t' Hp') by lia.
    now rewrite <- app_assoc.
Qed.

(** A key that the parser reads back: written bare, or free of quotes
    and backslashes. *)
Definition key_ok (key : string) : Prop :=
  is_plain_key key = true \/ quotable key = true.

Lemma keyText_start key :
  exists c r, keyText key = String c r /\ is_space c = false /\ Ascii.eqb c "}" = false.
Proof.
  unfold keyText. destruct (is_plain_key key) eqn:Hp.
  - destruct key as [|c r]; [discriminate Hp|]. exists c, r.
    cbn [is_plain_key] in Hp. apply andb_true_iff in Hp as [Hc _].
    split; [reflexivity|]. destruct (key_start_facts c Hc) as (Hs & _ & _).
    split; [exact Hs|].
    destruct c as [[] [] [] [] [] [] [] []]; try discriminate; reflexivity.
  - eexists _, _. split; [reflexivity|]. split; reflexivity.
Qed.

(** The text of an entry that is read back as the entry [e]. *)
Definition entry_parses (pv : string -> parsed (tagType * payload))
    (e : string * (tagType * payload)) (item : string) : Prop :=
  exists t, item = keyText (fst e) ++ ":" ++ t /\ key_ok (fst e)
            /\ parses pv (fst (snd e)) (snd (snd e)) t.

Lemma compoundLoop_items pv pre post rest :
  all_chars is_space pre = true -> all_chars is_space post = true ->
  forall es items, Forall2 (entry_parses pv) es items ->
  forall fuel acc ws e item,
    entry_parses pv e item -> all_chars is_space ws = true ->
    (List.length items < fuel)%nat ->
    compoundLoop pv fuel acc (ws ++ item ++ items_tail pre post "}" items rest)
    = Ok ((COMPOUND,
           PObj (fold_left (fun o e => obj_set (fst e) (snd e) o) (e :: es) acc)), rest).
Proof.
  intros Hpre Hpost es items HF.
  induction HF as [|e' item' es items Hp' HF IH]; intros fuel acc ws e item Hp Hws Hfuel;
    (destruct fuel as [|fuel]; [cbn [List.length] in Hfuel; lia|]);
    destruct Hp as (t & -> & Hkey & Hstart & _ & Hparse); cbn [compoundLoop];
    destruct (keyText_start (fst e)) as (c & r & Ekey & Hc & _);
    rewrite !append_assoc;
    (rewrite (skipWhitespace_app ws);
       [|exact Hws|rewrite Ekey; unfold stops; cbn [append starts_with]; now rewrite Hc]);
    rewrite (parseKey_keyText _ _ Hkey); cbn [bindO fst snd];
    change (skipWhitespace (":" ++ ?s)) with (":" ++ s);
    cbn [append consume]; change (Ascii.eqb ":" ":") with true; cbn [bindO];
    rewrite (skipWhitespace_stops _ (value_start_stops _ _ Hstart));
    rewrite Hparse by (now apply follow_items_tail); cbn [bindO fst snd].
  - cbn [items_tail]. rewrite (skipWhitespace_app post ("}" ++ rest) Hpost eq_refl).
    cbn [append peek_is consume]. change (Ascii.eqb "}" "}") with true.
    cbn [bindO fold_left]. now destruct e as [k [ty v]].
  - cbn [items_tail]. change (skipWhitespace ("," ++ ?s)) with ("," ++ s).
    cbn [append peek_is consume].
    change (Ascii.eqb "," "}") with false. change (Ascii.eqb "," ",") with true.
    cbn [bindO]. cbn [List.length] in Hfuel.
    rewrite (IH fuel _ pre e' item' Hp' Hpre) by lia.
    cbn [fold_left]. now destruct e as [k [ty v]].
Qed.

(** ** Arrays, lists and compounds *)

Definition array_type (c : ascii) : tagType :=
  if Ascii.eqb c "B" then BYTE_ARRAY
  else if Ascii.eqb c "I" then INT_ARRAY else LONG_ARRAY.

Lemma parseArray_typed_head pv fuel c s :
  c = "B"%char \/ c = "I"%char \/ c = "L"%char ->
  parseArray floatOfString doubleOfString pv fuel (String "[" (String c (String ";" s)))
  = bindO (typedArrayLoop floatOfString doubleOfString fuel [] (skipWhitespace s))
      (fun ar => bindO (consume "]" (snd ar))
                   (fun s => Ok ((array_type c, PArr (fst ar)), s))).
Proof. intros [->|[->| ->]]; reflexivity. Qed.

Lemma parseArray_typed pv fuel c type vs ts tail :
  c = "B"%char \/ c = "I"%char \/ c = "L"%char ->
  Forall2 (parses (parseNumber floatOfString doubleOfString) type) vs ts ->
  (List.length ts < fuel)%nat ->
  parseArray floatOfString doubleOfString pv fuel
    ("[" ++ String c ";" ++ String.concat "," ts ++ "]" ++ tail)
  = Ok ((array_type c, PArr vs), tail).
Proof.
  intros Hc HF Hfuel.
  change ("[" ++ String c ";" ++ String.concat "," ts ++ "]" ++ tail)
    with (String "[" (String c (String ";" (String.concat "," ts ++ "]" ++ tail)))).
  rewrite (parseArray_typed_head pv fuel c _ Hc).
  destruct HF as [|v t vs ts Hp HF].
  - destruct fuel as [|fuel]; [cbn [List.length] in Hfuel; lia|]. reflexivity.
  - rewrite concat_comma_items.
    rewrite (skipWhitespace_stops _ (value_start_stops _ _ (proj1 Hp))).
    cbn [List.length] in Hfuel.
    rewrite (typedArrayLoop_items type tail vs ts HF fuel [] v t Hp) by lia.
    reflexivity.
Qed.

Lemma parseArray_list pv fuel pre post listType v t vs ts tail :
  all_chars is_space pre = true -> all_chars is_space post = true ->
  parses pv listType v t -> Forall2 (parses pv listType) vs ts ->
  (List.length ts < fuel)%nat ->
  parseArray floatOfString doubleOfString pv fuel
    ("[" ++ pre ++ t ++ items_tail pre post "]" ts tail)
  = Ok ((LIST, PList (Some listType) (v :: vs)), tail).
Proof.
  intros Hpre Hpost Hp HF Hfuel. unfold parseArray. cbn [append consume].
  change (Ascii.eqb "[" "[") with true. cbn [bindO].
  assert (Hstops := value_start_stops t (items_tail pre post "]" ts tail) (proj1 Hp)).
  rewrite (skipWhitespace_app pre _ Hpre Hstops), (skipWhitespace_stops _ Hstops).
  destruct t as [|c r]; [now destruct Hp|].
  destruct (value_start_facts c (proj1 Hp)) as (_ & H1 & H2 & H3 & H4 & _).
  cbn [append peek_is]. rewrite H1, H2, H3, H4. cbn [orb].
  exact (listLoop_items pv listType pre post tail Hpre Hpost vs ts HF fuel None []
           "" v (String c r) Hp eq_refl Hfuel).
Qed.

Lemma parseCompound_entries pv fuel pre post e item es items tail :
  all_chars is_space pre = true -> all_chars is_space post = true ->
  entry_parses pv e item -> Forall2 (entry_parses pv) es items ->
  (List.length items < fuel)%nat ->
  parseCompound pv fuel ("{" ++ pre ++ item ++ items_tail pre post "}" items tail)
  = Ok ((COMPOUND,
         PObj (fold_left (fun o e => obj_set (fst e) (snd e) o) (e :: es) [])), tail).
Proof.
  intros Hpre Hpost Hp HF Hfuel. unfold parseCompound. cbn [append consume].
  change (Ascii.eqb "{" "{") with true. cbn [bindO].
  destruct Hp as (t & -> & Hp).
  destruct (keyText_start (fst e)) as (c & r & Ekey & Hc & Hclose).
  assert (Hitem : exists s, (keyText (fst e) ++ ":" ++ t)
                            ++ items_tail pre post "}" items tail = String c s)
    by (rewrite Ekey; eexists; reflexivity).
  destruct Hitem as (s & Es).
  rewrite (skipWhitespace_app pre); [|exact Hpre|rewrite Es; unfold stops; cbn [starts_with]; now rewrite Hc].
  rewrite Es at 1. cbn [peek_is]. rewrite Hclose.
  apply (compoundLoop_items pv pre post tail Hpre Hpost es items HF fuel [] "" e
           (keyText (fst e) ++ ":" ++ t)); [|reflexivity|exact Hfuel].
  exists t. split; [reflexivity | exact Hp].
Qed.

Lemma parseValue_bracket fuel s :
  parseValue floatOfString doubleOfString (S fuel) ("[" ++ s)
  = parseArray floatOfString doubleOfString
      (parseValue floatOfString doubleOfString fuel) fuel ("[" ++ s).
Proof. reflexivity. Qed.

Lemma parseValue_brace fuel s :
  parseValue floatOfString doubleOfString (S fuel) ("{" ++ s)
  = parseCompound (parseValue floatOfString doubleOfString fuel) fuel ("{" ++ s).
Proof. reflexivity. Qed.

Lemma parseValue_quote fuel s :
  parseValue floatOfString doubleOfString (S fuel) (quote ++ s)
  = bindO (parseString (quote ++ s)) (fun vr => Ok ((STRING, PStr (fst vr)), snd vr)).
Proof. reflexivity. Qed.

(** ** Tags that are read back *)

(** What the parser returns for the text of a value: the value itself,
    but for the element type of an empty list, which the text does not
    carry and the parser takes to be byte. *)
Fixpoint as_parsed (value : payload) : payload :=
  match value with
  | PList ty items =>
      match items with
      | [] => PList (Some BYTE) []
      | _ :: _ => PList ty (map as_parsed items)
      end
  | PObj entries =>
      PObj (map (fun e : string * (tagType * payload) =>
                   (fst e, (fst (snd e), as_parsed (snd (snd e))))) entries)
  | _ => value
  end.

(** The values whose text the parser can scan: the text of every float
    and double is a numeric text that [parseFloat] maps back to the
    number, and every key is bare or free of quotes and backslashes. *)
Fixpoint textual (value : payload) : Prop :=
  match value with
  | PFloat w => numeric_text (showFloat w) = true /\ floatOfString (showFloat w) = PFloat w
  | PDouble w =>
      numeric_text (showDouble w) = true /\ doubleOfString (showDouble w) = PDouble w
  | PList _ items =>
      (fix all (l : list payload) : Prop :=
         match l with
         | [] => True
         | x :: r => textual x /\ all r
         end) items
  | PObj entries =>
      (fix all (l : list (string * (tagType * payload))) : Prop :=
         match l with
         | [] => True
         | e :: r => (key_ok (fst e) /\ textual (snd (snd e))) /\ all r
         end) entries
  | _ => True
  end.

(** The fuel that reading the text of a value takes. *)
Fixpoint ssize (value : payload) : nat :=
  match value with
  | PArr a => S (S (List.length a))
  | PList _ items => S (list_sum (map ssize items))
  | PObj entries =>
      S (list_sum (map (fun e : string * (tagType * payload) => ssize (snd (snd e)))
                     entries))
  | _ => 1%nat
  end.

Lemma textual_list ty items : textual (PList ty items) <-> Forall textual items.
Proof.
  cbn [textual]. induction items as [|x r IH].
  - split; auto.
  - split.
    + intros [Hx Hr]. constructor; [exact Hx | now apply IH].
    + intros H. inversion H; subst. split; [assumption | now apply IH].
Qed.

Lemma textual_obj entries :
  textual (PObj entries)
  <-> Forall (fun e : string * (tagType * payload) =>
                key_ok (fst e) /\ textual (snd (snd e))) entries.
Proof.
  cbn [textual]. induction entries as [|x r IH].
  - split; auto.
  - split.
    + intros [Hx Hr]. constructor; [exact Hx | now apply IH].
    + intros H. inversion H; subst. split; [assumption | now apply IH].
Qed.

Lemma ssize_pos v : (1 <= ssize v)%nat.
Proof. destruct v; cbn [ssize]; lia. Qed.

Lemma ssize_in_list x (items : list payload) :
  In x items -> (ssize x <= list_sum (map ssize items))%nat.
Proof.
  induction items as [|y r IH]; simpl; [tauto|].
  intros [->|H]; [lia | specialize (IH H); lia].
Qed.

Lemma ssize_length (items : list payload) :
  (List.length items <= list_sum (map ssize items))%nat.
Proof.
  induction items as [|y r IH]; simpl; [lia|].
  pose proof (ssize_pos y). lia.
Qed.

Lemma ssize_in_entries (e : string * (tagType * payload)) entries :
  In e entries ->
  (ssize (snd (snd e))
   <= list_sum (map (fun e : string * (tagType * payload) => ssize (snd (snd e)))
                  entries))%nat.
Proof.
  induction entries as [|y r IH]; simpl; [tauto|].
  intros [->|H]; [lia | specialize (IH H); lia].
Qed.

Lemma ssize_length_entries (entries : list (string * (tagType * payload))) :
  (List.length entries
   <= list_sum (map (fun e : string * (tagType * payload) => ssize (snd (snd e)))
                  entries))%nat.
Proof.
  induction entries as [|y r IH]; simpl; [lia|].
  pose proof (ssize_pos (snd (snd y))). lia.
Qed.

(** The tag [(type, value)] has a text, and the parser reads that text
    back as [(type, as_parsed value)]. *)
Definition round_trips (type : tagType) (value : payload) (indent : Z) : Prop :=
  exists text,
    toSNBT showFloat showDouble (Some type) value indent = Some text /\
    forall fuel, (ssize value <= fuel)%nat ->
      parses (parseValue floatOfString doubleOfString fuel) type (as_parsed value) text.

Lemma round_trips_number type value indent t suffix :
  0 <= indent ->
  toSNBT showFloat showDouble (Some type) value indent = Some (t ++ suffix) ->
  ssize value = 1%nat -> numeric_text t = true ->
  parses (parseNumber floatOfString doubleOfString) type (as_parsed value) (t ++ suffix) ->
  round_trips type value indent.
Proof.
  intros Hi Ht Hs Hn Hp. exists (t ++ suffix). split; [exact Ht|].
  intros fuel Hf. destruct fuel as [|fuel]; [lia|].
  now apply parses_value_number.
Qed.

Lemma indent_ok indent : 0 <= indent -> (indent <? 0) = false.
Proof. intros H. apply Z.ltb_ge. exact H. Qed.

Lemma round_trips_num type z indent :
  valid type (PNum z) = true -> 0 <= indent -> round_trips type (PNum z) indent.
Proof.
  intros Hv Hi. pose proof (indent_ok indent Hi) as Hlt.
  destruct type; try discriminate Hv.
  - apply (round_trips_number _ _ _ (showZ z) "b"); auto using numeric_text_showZ.
    + cbn [toSNBT]. now rewrite Hlt.
    + apply parses_int_number; try discriminate. right. exists "b"%char. repeat split.
  - apply (round_trips_number _ _ _ (showZ z) "s"); auto using numeric_text_showZ.
    + cbn [toSNBT]. now rewrite Hlt.
    + apply parses_int_number; try discriminate. right. exists "s"%char. repeat split.
  - apply (round_trips_number _ _ _ (showZ z) ""); auto using numeric_text_showZ.
    + cbn [toSNBT]. now rewrite Hlt.
    + apply parses_int_number; try discriminate. left. split; reflexivity.
Qed.

Lemma round_trips_big type z indent :
  valid type (PBig z) = true -> 0 <= indent -> round_trips type (PBig z) indent.
Proof.
  intros Hv Hi. pose proof (indent_ok indent Hi) as Hlt.
  destruct type; try discriminate Hv.
  apply (round_trips_number _ _ _ (showZ z) "L"); auto using numeric_text_showZ.
  - cbn [toSNBT]. now rewrite Hlt.
  - apply parses_big_number.
Qed.

Lemma round_trips_float type w indent :
  valid type (PFloat w) = true -> textual (PFloat w) -> 0 <= indent ->
  round_trips type (PFloat w) indent.
Proof.
  intros Hv [Hn Hw] Hi. pose proof (indent_ok indent Hi) as Hlt.
  destruct type; try discriminate Hv.
  apply (round_trips_number _ _ _ (showFloat w) "f"); auto.
  - cbn [toSNBT]. now rewrite Hlt.
  - apply parses_number; auto; try discriminate.
    + right. exists "f"%char. repeat split.
    + cbn [numValue]. now rewrite Hw.
Qed.

Lemma round_trips_double type w indent :
  valid type (PDouble w) = true -> textual (PDouble w) -> 0 <= indent ->
  round_trips type (PDouble w) indent.
Proof.
  intros Hv [Hn Hw] Hi. pose proof (indent_ok indent Hi) as Hlt.
  destruct type; try discriminate Hv.
  apply (round_trips_number _ _ _ (showDouble w) "d"); auto.
  - cbn [toSNBT]. now rewrite Hlt.
  - apply parses_number; auto; try discriminate.
    + right. exists "d"%char. repeat split.
    + cbn [numValue]. now rewrite Hw.
Qed.

Lemma round_trips_str type s indent :
  valid type (PStr s) = true -> 0 <= indent -> round_trips type (PStr s) indent.
Proof.
  intros Hv Hi. pose proof (indent_ok indent Hi) as Hlt.
  destruct type; try discriminate Hv.
  exists (quote ++ escapeString s ++ quote). split; [cbn [toSNBT]; now rewrite Hlt|].
  intros fuel Hf. destruct fuel as [|fuel]; [cbn [ssize] in Hf; lia|].
  split; [reflexivity|]. split.
  - rewrite <- append_assoc. now apply trimEnd_last.
  - intros tail _. rewrite !append_assoc, parseValue_quote, parseString_escape.
    reflexivity.
Qed.

Lemma parses_array c type (f : payload -> option string) a :
  c = "B"%char \/ c = "I"%char \/ c = "L"%char ->
  Forall (fun x => exists y, f x = Some y
                   /\ parses (parseNumber floatOfString doubleOfString) type x y) a ->
  exists ts,
    map_option f a = Some ts /\
    forall fuel, (ssize (PArr a) <= fuel)%nat ->
      parses (parseValue floatOfString doubleOfString fuel) (array_type c) (PArr a)
        ("[" ++ String c ";" ++ String.concat "," ts ++ "]").
Proof.
  intros Hc Ha. destruct (map_option_Forall2 f _ a Ha) as (ts & Hts & HF).
  exists ts. split; [exact Hts|]. intros fuel Hf. cbn [ssize] in Hf.
  destruct fuel as [|fuel]; [lia|]. split; [reflexivity|]. split.
  - rewrite <- !append_assoc. now apply trimEnd_last.
  - intros tail _. rewrite !append_assoc, parseValue_bracket.
    apply (parseArray_typed _ fuel c type a ts tail Hc HF).
    rewrite <- (Forall2_length HF). lia.
Qed.

Lemma is_num_text lo hi suffix type :
  suffix_of type suffix -> type <> LONG -> type <> FLOAT -> type <> DOUBLE ->
  forall a, forallb (is_num lo hi) a = true ->
  Forall (fun x => exists y, withSuffix showFloat showDouble suffix x = Some y
                   /\ parses (parseNumber floatOfString doubleOfString) type x y) a.
Proof.
  intros Hs H1 H2 H3 a Ha. apply forallb_Forall in Ha.
  apply (Forall_impl _ (P := fun x => is_num lo hi x = true)); [|exact Ha].
  intros [z| | | | | | | |]; try discriminate. intros _.
  exists (showZ z ++ suffix). split; [reflexivity|]. now apply parses_int_number.
Qed.

Lemma is_big_text lo hi a :
  forallb (is_big lo hi) a = true ->
  Forall (fun x => exists y, withSuffix showFloat showDouble "L" x = Some y
                   /\ parses (parseNumber floatOfString doubleOfString) LONG x y) a.
Proof.
  intros Ha. apply forallb_Forall in Ha.
  apply (Forall_impl _ (P := fun x => is_big lo hi x = true)); [|exact Ha].
  intros [| |z| | | | | |]; try discriminate. intros _.
  exists (showZ z ++ "L"). split; [reflexivity|]. apply parses_big_number.
Qed.

Lemma showValue_withSuffix value :
  showValue showFloat showDouble value = withSuffix showFloat showDouble "" value.
Proof.
  unfold withSuffix. destruct (showValue showFloat showDouble value); cbn [obind];
    [now rewrite append_nil_r | reflexivity].
Qed.

Lemma map_option_ext {A B} (f g : A -> option B) l :
  (forall x, f x = g x) -> map_option f l = map_option g l.
Proof.
  intros H. induction l as [|x l IH]; [reflexivity|]. cbn [map_option].
  now rewrite H, IH.
Qed.

Lemma round_trips_arr type a indent :
  valid type (PArr a) = true -> 0 <= indent -> round_trips type (PArr a) indent.
Proof.
  intros Hv Hi. pose proof (indent_ok indent Hi) as Hlt. unfold round_trips.
  destruct type; try discriminate Hv; cbn [valid] in Hv;
    apply andb_true_iff in Hv as [_ Hv]; cbn [toSNBT as_parsed]; rewrite Hlt.
  - destruct (parses_array "B" BYTE (withSuffix showFloat showDouble "b") a) as (ts & -> & H);
      [auto | | exists ("[B;" ++ String.concat "," ts ++ "]"); split; [reflexivity | exact H]].
    apply (is_num_text _ _ "b" BYTE) in Hv; try discriminate; [exact Hv|].
    right. exists "b"%char. repeat split.
  - rewrite (map_option_ext _ _ a showValue_withSuffix).
    destruct (parses_array "I" INT (withSuffix showFloat showDouble "") a) as (ts & -> & H);
      [auto | | exists ("[I;" ++ String.concat "," ts ++ "]"); split; [reflexivity | exact H]].
    apply (is_num_text _ _ "" INT) in Hv; try discriminate; [exact Hv|].
    left. split; reflexivity.
  - destruct (parses_array "L" LONG (withSuffix showFloat showDouble "L") a) as (ts & -> & H);
      [auto | | exists ("[L;" ++ String.concat "," ts ++ "]"); split; [reflexivity | exact H]].
    now apply is_big_text in Hv.
Qed.

Lemma Forall2_fuel {A} (size : A -> nat) (R : nat -> A -> string -> Prop) fuel l ts :
  Forall2 (fun x t => forall fuel, (size x <= fuel)%nat -> R fuel x t) l ts ->
  Forall (fun x => (size x <= fuel)%nat) l ->
  Forall2 (R fuel) l ts.
Proof.
  induction 1 as [|x t l ts Hx _ IH]; intros Hs; [constructor|].
  inversion Hs; subst. constructor; auto.
Qed.

Lemma round_trips_list ty items type indent :
  Forall (fun v => forall type indent,
            valid type v = true -> textual v -> 0 <= indent -> round_trips type v indent)
    items ->
  valid type (PList ty items) = true -> textual (PList ty items) -> 0 <= indent ->
  round_trips type (PList ty items) indent.
Proof.
  intros IH Hv Ht Hi. pose proof (indent_ok indent Hi) as Hlt.
  destruct type; try discriminate Hv. destruct ty as [listType|]; [|discriminate Hv].
  cbn [valid] in Hv. apply andb_true_iff in Hv as [_ Hv].
  apply forallb_Forall in Hv. apply textual_list in Ht.
  destruct items as [|x r].
  - exists "[]". split; [cbn [toSNBT]; now rewrite Hlt|].
    intros fuel Hf. destruct fuel as [|fuel]; [cbn [ssize] in Hf; simpl in Hf; lia|].
    split; [reflexivity|]. split; reflexivity.
  - set (R := fun (item : payload) (t : string) =>
                forall fuel, (ssize item <= fuel)%nat ->
                  parses (parseValue floatOfString doubleOfString fuel) listType
                    (as_parsed item) t).
    assert (HF : Forall (fun item => exists t,
                   toSNBT showFloat showDouble (Some listType) item (indent + 1) = Some t
                   /\ R item t) (x :: r)).
    { rewrite Forall_forall in *. intros item Hin.
      apply (IH item Hin listType (indent + 1)); auto. lia. }
    destruct (map_option_Forall2 _ R _ HF) as (ys & Hys & HF2).
    inversion HF2 as [|? t0 ? ts Hx Hr]; subst.
    exists (layout "[" "]" 20 (repeat_string "  " (Z.to_nat indent))
              (repeat_string "  " (Z.to_nat (indent + 1))) (t0 :: ts)).
    split; [cbn [toSNBT]; rewrite Hlt, Hys; reflexivity|].
    intros fuel Hf. cbn [ssize] in Hf. destruct fuel as [|f]; [lia|].
    assert (Hsum : (list_sum (map ssize (x :: r)) <= f)%nat) by lia.
    split; [unfold layout; destruct (forallb _ _); reflexivity|]. split.
    + destruct (layout_last "[" "]" 20 (repeat_string "  " (Z.to_nat indent))
                  (repeat_string "  " (Z.to_nat (indent + 1))) (t0 :: ts)) as (a & ->).
      now apply trimEnd_last.
    + intros tail _.
      destruct (layout_items "[" "]" 20 (Z.to_nat indent) (Z.to_nat (indent + 1))
                  t0 ts tail) as (pre & post & Hpre & Hpost & ->).
      rewrite parseValue_bracket. cbn [as_parsed map].
      apply (parseArray_list _ f pre post listType (as_parsed x) t0
               (map as_parsed r) ts tail Hpre Hpost).
      * apply Hx. pose proof (ssize_in_list x (x :: r) (or_introl eq_refl)). lia.
      * apply Forall2_map_left.
        apply (Forall2_fuel ssize
                 (fun fuel v t => parses (parseValue floatOfString doubleOfString fuel)
                                    listType (as_parsed v) t) f r ts Hr).
        apply Forall_forall. intros item Hin.
        pose proof (ssize_in_list item (x :: r) (or_intror Hin)). lia.
      * rewrite <- (Forall2_length Hr).
        pose proof (ssize_length (x :: r)) as Hl. cbn [List.length] in Hl. lia.
Qed.

Definition parsed_entry (e : string * (tagType * payload)) : string * (tagType * payload) :=
  (fst e, (fst (snd e), as_parsed (snd (snd e)))).

Lemma fold_obj_set_entries (entries : list (string * (tagType * payload))) :
  own_keys (map fst entries) = true ->
  fold_left (fun o e => obj_set (fst e) (snd e) o) entries [] = entries.
Proof.
  intros H. apply own_keys_spec in H as [H Hp].
  rewrite (fold_obj_set fst snd entries []) by assumption.
  cbn [app]. clear H Hp. induction entries as [|[k v] r IH]; [reflexivity|].
  cbn [map fst snd]. now rewrite IH.
Qed.

Lemma map_fst_parsed entries : map fst (map parsed_entry entries) = map fst entries.
Proof. rewrite map_map. apply map_ext. reflexivity. Qed.

Lemma round_trips_obj entries type indent :
  Forall (fun e : string * (tagType * payload) =>
            forall type indent,
              valid type (snd (snd e)) = true -> textual (snd (snd e)) -> 0 <= indent ->
              round_trips type (snd (snd e)) indent) entries ->
  valid type (PObj entries) = true -> textual (PObj entries) -> 0 <= indent ->
  round_trips type (PObj entries) indent.
Proof.
  intros IH Hv Ht Hi. pose proof (indent_ok indent Hi) as Hlt.
  destruct type; try discriminate Hv.
  cbn [valid] in Hv. apply andb_true_iff in Hv as [Hnd Hv].
  apply forallb_Forall in Hv. apply textual_obj in Ht.
  destruct entries as [|x r].
  - exists "{}". split; [cbn [toSNBT]; now rewrite Hlt|].
    intros fuel Hf. destruct fuel as [|fuel]; [cbn [ssize] in Hf; simpl in Hf; lia|].
    split; [reflexivity|]. split; reflexivity.
  - set (R := fun (e : string * (tagType * payload)) (item : string) =>
                forall fuel, (ssize (snd (snd e)) <= fuel)%nat ->
                  entry_parses (parseValue floatOfString doubleOfString fuel)
                    (parsed_entry e) item).
    set (f := fun e : string * (tagType * payload) =>
                let '(key, (ty, v)) := e in
                let keyStr := if is_plain_key key then key else quote ++ key ++ quote in
                obind (toSNBT showFloat showDouble (Some ty) v (indent + 1))
                  (fun valueStr => Some (keyStr ++ ":" ++ valueStr))).
    assert (HF : Forall (fun e => exists item, f e = Some item /\ R e item) (x :: r)).
    { rewrite Forall_forall in *. intros [key [ty v]] Hin.
      specialize (Hv _ Hin). cbn beta iota in Hv. apply andb_true_iff in Hv as [_ Hv].
      destruct (Ht _ Hin) as [Hkey Htext]. cbn [fst snd] in Hkey, Htext.
      destruct (IH _ Hin ty (indent + 1) Hv Htext ltac:(lia)) as (t & Et & Hp).
      exists (keyText key ++ ":" ++ t). split.
      - unfold f. cbn [snd] in Et. rewrite Et. reflexivity.
      - intros fuel Hf. exists t. split; [reflexivity|]. split; [exact Hkey|].
        now apply Hp. }
    destruct (map_option_Forall2 _ R _ HF) as (ys & Hys & HF2).
    inversion HF2 as [|? t0 ? ts Hx Hr]; subst.
    exists (layout "{" "}" 30 (repeat_string "  " (Z.to_nat indent))
              (repeat_string "  " (Z.to_nat (indent + 1))) (t0 :: ts)).
    split; [cbn [toSNBT]; rewrite Hlt; fold f; rewrite Hys; reflexivity|].
    intros fuel Hf. cbn [ssize] in Hf. destruct fuel as [|fu]; [lia|].
    split; [unfold layout; destruct (forallb _ _); reflexivity|]. split.
    + destruct (layout_last "{" "}" 30 (repeat_string "  " (Z.to_nat indent))
                  (repeat_string "  " (Z.to_nat (indent + 1))) (t0 :: ts)) as (a & ->).
      now apply trimEnd_last.
    + intros tail _.
      destruct (layout_items "{" "}" 30 (Z.to_nat indent) (Z.to_nat (indent + 1))
                  t0 ts tail) as (pre & post & Hpre & Hpost & ->).
      rewrite parseValue_brace.
      rewrite (parseCompound_entries _ fu pre post (parsed_entry x) t0
                 (map parsed_entry r) ts tail Hpre Hpost).
      * change (parsed_entry x :: map parsed_entry r) with (map parsed_entry (x :: r)).
        rewrite fold_obj_set_entries by (now rewrite map_fst_parsed). reflexivity.
      * apply Hx. pose proof (ssize_in_entries x (x :: r) (or_introl eq_refl)). lia.
      * apply Forall2_map_left.
        apply (Forall2_fuel (fun e : string * (tagType * payload) => ssize (snd (snd e)))
                 (fun fuel e item =>
                    entry_parses (parseValue floatOfString doubleOfString fuel)
                      (parsed_entry e) item) fu r ts Hr).
        apply Forall_forall. intros e Hin.
        pose proof (ssize_in_entries e (x :: r) (or_intror Hin)). lia.
      * rewrite <- (Forall2_length Hr).
        pose proof (ssize_length_entries (x :: r)) as Hl. cbn [List.length] in Hl. lia.
Qed.

(** Every valid tag whose text can be scanned has a text, at every
    indentation, and the parser reads it back. *)
Lemma round_trips_all value : forall type indent,
  valid type value = true -> textual value -> 0 <= indent ->
  round_trips type value indent.
Proof.
  induction value using payload_rect'; intros type indent Hv Ht Hi.
  - now apply round_trips_num.
  - destruct type; discriminate Hv.
  - now apply round_trips_big.
  - now apply round_trips_float.
  - now apply round_trips_double.
  - now apply round_trips_str.
  - now apply round_trips_arr.
  - now apply round_trips_list.
  - now apply round_trips_obj.
Qed.

(** Every empty list of the value has the element type byte: the values
    that [as_parsed] leaves alone. *)
Fixpoint byte_empty_lists (value : payload) : bool :=
  match value with
  | PList ty items =>
      match items with
      | [] => match ty with Some BYTE => true | _ => false end
      | _ :: _ => forallb byte_empty_lists items
      end
  | PObj entries =>
      forallb (fun e : string * (tagType * payload) => byte_empty_lists (snd (snd e)))
        entries
  | _ => true
  end.

Lemma as_parsed_id value : byte_empty_lists value = true -> as_parsed value = value.
Proof.
  induction value using payload_rect'; cbn [byte_empty_lists as_parsed];
    intros Hn; try reflexivity.
  - destruct items as [|x r].
    + destruct ty as [[]|]; try discriminate Hn. reflexivity.
    + f_equal. apply forallb_Forall in Hn. rewrite Forall_forall in *.
      rewrite <- (map_id (x :: r)) at 2. apply map_ext_in.
      intros y Hy. apply H; auto.
  - f_equal. apply forallb_Forall in Hn. rewrite Forall_forall in *.
    rewrite <- (map_id entries) at 2. apply map_ext_in.
    intros [name [ty v]] He. specialize (H _ He). specialize (Hn _ He).
    cbn [fst snd] in *. now rewrite H.
Qed.

Lemma fromSNBT_parses fuel type value text :
  parses (parseValue floatOfString doubleOfString fuel) type value text ->
  fromSNBT floatOfString doubleOfString fuel text = Ok (type, value).
Proof.
  intros (Hstart & Htrim & Hparse). unfold fromSNBT, trim.
  pose proof (value_start_stops text "" Hstart) as Hs. rewrite append_nil_r in Hs.
  rewrite (skipWhitespace_stops _ Hs), Htrim, (skipWhitespace_stops _ Hs).
  rewrite <- (append_nil_r text) at 1. now rewrite (Hparse "" eq_refl).
Qed.

(** C3, amended: every well-formed tag whose floats and doubles have a
    plain numeric text that [parseFloat] maps back to them, and whose keys
    are bare or free of quotes and backslashes, has a text at every
    indentation; parsing that text yields the tag with the element type of
    each empty list replaced by byte, which is the tag itself when every
    empty list of the tag has the element type byte. *)
Theorem stf_roundtrip (type : tagType) (value : payload) (indent : Z) :
  valid type value = true -> textual value -> 0 <= indent ->
  exists text,
    toSNBT showFloat showDouble (Some type) value indent = Some text /\
    forall fuel, (ssize value <= fuel)%nat ->
      fromSNBT floatOfString doubleOfString fuel text = Ok (type, as_parsed value) /\
      (byte_empty_lists value = true ->
       fromSNBT floatOfString doubleOfString fuel text = Ok (type, value)).
Proof.
  intros Hv Ht Hi. destruct (round_trips_all value type indent Hv Ht Hi) as (text & Et & Hp).
  exists text. split; [exact Et|]. intros fuel Hf.
  pose proof (fromSNBT_parses fuel _ _ _ (Hp fuel Hf)) as E.
  split; [exact E|]. intros Hb. now rewrite E, (as_parsed_id value Hb).
Qed.

End RoundTrip.

(** ** Examples

    The texts of the Numbers that the examples hold, and the Numbers that
    [parseFloat] makes of these texts; the examples do not depend on the
    other cases. *)

Definition double_1_5 : Z := 4609434218613702656.    (* 0x3FF8000000000000 *)
Definition float_1_5 : Z := 1069547520.              (* 0x3FC00000 *)

Definition sample_showFloat (w : Z) : string :=
  if w =? float_1_5 then "1.5" else "NaN".
Definition sample_showDouble (w : Z) : string :=
  if w =? double_1_5 then "1.5" else "NaN".
Definition sample_floatOfString (s : string) : payload :=
  if String.eqb s "1.5" then PFloat float_1_5 else PNaN.
Definition sample_doubleOfString (s : string) : payload :=
  if String.eqb s "1.5" then PDouble double_1_5 else PNaN.

Definition sample_toSNBT := toSNBT sample_showFloat sample_showDouble.
Definition sample_fromSNBT := fromSNBT sample_floatOfString sample_doubleOfString.

(** An empty list of ints, and a compound with a key that holds a quote. *)
Definition empty_int_list : payload := PList (Some INT) [].
Definition quote_key_compound : payload :=
  PObj [("a" ++ quote ++ "b", (INT, PNum 1))].

(** C3, as stated, fails: the text of an empty list of ints is [[]], which
    is read back as an empty list of bytes; and the text of a compound
    whose key holds a double quote makes the parser throw. *)
Lemma stf_roundtrip_counterexample :
  (valid LIST empty_int_list = true /\
   exists text, sample_toSNBT (Some LIST) empty_int_list 0 = Some text /\
     forall fuel, sample_fromSNBT fuel text <> Ok (LIST, empty_int_list))
  /\
  (valid COMPOUND quote_key_compound = true /\
   exists text, sample_toSNBT (Some COMPOUND) quote_key_compound 0 = Some text /\
     forall fuel, sample_fromSNBT fuel text <> Ok (COMPOUND, quote_key_compound)).
Proof.
  split; (split; [reflexivity|]); eexists; (split; [reflexivity|]);
    intros fuel; destruct fuel as [|[|[|fuel]]]; vm_compute; discriminate.
Qed.

(** Scenario S3 of the specification, with a double added. *)
Definition s3_tag : payload :=
  PObj [("a", (BYTE, PNum 1));
        ("b", (INT_ARRAY, PArr [PNum 1; PNum 2; PNum 3]));
        ("c", (STRING, PStr "x y"));
        ("d", (DOUBLE, PDouble double_1_5))].

Lemma stf_roundtrip_witness :
  exists text,
    sample_toSNBT (Some COMPOUND) s3_tag 0 = Some text /\
    forall fuel, (ssize s3_tag <= fuel)%nat ->
      sample_fromSNBT fuel text = Ok (COMPOUND, as_parsed s3_tag) /\
      (byte_empty_lists s3_tag = true -> sample_fromSNBT fuel text = Ok (COMPOUND, s3_tag)).
Proof.
  apply (stf_roundtrip sample_showFloat sample_showDouble sample_floatOfString
           sample_doubleOfString COMPOUND s3_tag 0).
  - reflexivity.
  - cbn [textual s3_tag fst snd]. unfold key_ok.
    repeat split; try (left; reflexivity).
  - lia.
Defined.

(** * Further properties of the region archive *)

(** ** Storing, fetching and counting chunks *)

(** The index of the slot that the coordinates [(x, z)] address. *)
Definition slotOf (x z : Z) : nat := Z.to_nat ((z mod 32) * 32 + x mod 32).

(** [getChunkCount] *)
Definition getChunkCount (mca : MCAFile) : Z := len (chunks mca).

Lemma chunkKey_slot_eqb x z x' z' :
  String.eqb (chunkKey (x mod 32) (z mod 32)) (chunkKey (x' mod 32) (z' mod 32))
  = (x mod 32 =? x' mod 32) && (z mod 32 =? z' mod 32).
Proof.
  destruct (String.eqb_spec (chunkKey (x mod 32) (z mod 32))
              (chunkKey (x' mod 32) (z' mod 32))) as [E|N].
  - apply chunkKey_inj in E; try (apply Z.mod_pos_bound; lia).
    destruct E as [-> ->]. now rewrite !Z.eqb_refl.
  - destruct (Z.eqb_spec (x mod 32) (x' mod 32)) as [Ex|]; [|reflexivity].
    destruct (Z.eqb_spec (z mod 32) (z' mod 32)) as [Ez|]; [|reflexivity].
    elim N. now rewrite Ex, Ez.
Qed.

(** X1: after [setChunk(x, z, d)], [getChunk] returns [d] at the
    coordinates that address the same slot (those equal to [x] and [z]
    modulo 32) and what it returned before at all others. *)
Theorem getChunk_setChunk (now : Z) (mca : MCAFile) (x z x' z' : Z) (d : readResult) :
  getChunk (setChunk now mca x z d) x' z'
  = if (x mod 32 =? x' mod 32) && (z mod 32 =? z' mod 32) then Some d
    else getChunk mca x' z'.
Proof.
  unfold getChunk, setChunk. cbn [chunks]. rewrite !js_and_31, map_get_set.
  now rewrite chunkKey_slot_eqb.
Qed.

(** X2: [setChunk] stamps the slot it addresses with the current time and
    changes no other timestamp and no location. *)
Theorem setChunk_tables (now : Z) (mca : MCAFile) (x z : Z) (d : readResult) :
  List.length (timestamps mca) = 1024%nat ->
  locations (setChunk now mca x z d) = locations mca /\
  List.length (timestamps (setChunk now mca x z d)) = 1024%nat /\
  nth_error (timestamps (setChunk now mca x z d)) (slotOf x z) = Some now /\
  forall j, j <> slotOf x z ->
    nth_error (timestamps (setChunk now mca x z d)) j = nth_error (timestamps mca) j.
Proof.
  intros Hlen. unfold setChunk, slotOf. cbn [locations timestamps]. rewrite !js_and_31.
  pose proof (Z.mod_pos_bound x 32 ltac:(lia)) as Hx.
  pose proof (Z.mod_pos_bound z 32 ltac:(lia)) as Hz.
  split; [reflexivity|]. split; [rewrite length_array_set; lia|].
  split; [apply nth_error_array_set_eq|].
  intros j Hj. apply nth_error_array_set_ne; [lia | exact Hj].
Qed.

Lemma setChunk_tables_witness :
  locations (setChunk 1700000000 newMCAFile 37 (-1) REnd) = locations newMCAFile /\
  List.length (timestamps (setChunk 1700000000 newMCAFile 37 (-1) REnd)) = 1024%nat /\
  nth_error (timestamps (setChunk 1700000000 newMCAFile 37 (-1) REnd)) (slotOf 37 (-1))
  = Some 1700000000 /\
  forall j, j <> slotOf 37 (-1) ->
    nth_error (timestamps (setChunk 1700000000 newMCAFile 37 (-1) REnd)) j
    = nth_error (timestamps newMCAFile) j.
Proof.
  apply (setChunk_tables 1700000000 newMCAFile 37 (-1) REnd). reflexivity.
Defined.

Lemma map_delete_assoc_set_fresh {V} k (v : V) m :
  map_get k m = None -> map_delete k (assoc_set k v m) = m.
Proof.
  induction m as [|[k0 v0] m IH]; simpl; intros H.
  - now rewrite String.eqb_refl.
  - destruct (String.eqb k0 k) eqn:E; [discriminate H|]. simpl. rewrite E.
    now rewrite IH.
Qed.

Lemma length_assoc_set {V} k (v : V) m :
  List.length (assoc_set k v m)
  = if map_has k m then List.length m else S (List.length m).
Proof.
  unfold map_has. induction m as [|[k0 v0] m IH]; simpl; [reflexivity|].
  destruct (String.eqb k0 k); simpl; [reflexivity|]. rewrite IH.
  now destruct (map_get k m).
Qed.

Lemma length_map_delete {V} k (m : list (string * V)) :
  map_has k m = true -> S (List.length (map_delete k m)) = List.length m.
Proof.
  unfold map_has. induction m as [|[k0 v0] m IH]; simpl; [discriminate|].
  destruct (String.eqb k0 k); simpl; [reflexivity|]. intros H. now rewrite IH.
Qed.

(** X3: storing a chunk in an empty slot and removing it again gives the
    chunk map back as it was; [removeChunk] answers true, and the slot is
    left without location and with timestamp 0, not with the timestamp it
    had before. *)
Theorem removeChunk_setChunk (now : Z) (mca : MCAFile) (x z : Z) (d : readResult) :
  getChunk mca x z = None ->
  fst (removeChunk (setChunk now mca x z d) x z) = true /\
  chunks (snd (removeChunk (setChunk now mca x z d) x z)) = chunks mca /\
  nth_error (locations (snd (removeChunk (setChunk now mca x z d) x z))) (slotOf x z)
  = Some None /\
  nth_error (timestamps (snd (removeChunk (setChunk now mca x z d) x z))) (slotOf x z)
  = Some 0.
Proof.
  unfold getChunk, removeChunk, setChunk, slotOf, map_has, map_set.
  cbn [chunks locations timestamps]. rewrite !js_and_31. intros Hnone.
  set (key := chunkKey (x mod 32) (z mod 32)) in *.
  assert (E : map_get key (assoc_set key d (chunks mca)) = Some d).
  { change (assoc_set key d (chunks mca)) with (map_set key d (chunks mca)).
    now rewrite map_get_set, String.eqb_refl. }
  rewrite E. cbn [fst snd chunks locations timestamps].
  split; [reflexivity|]. split; [now apply map_delete_assoc_set_fresh|].
  split; apply nth_error_array_set_eq.
Qed.

Lemma removeChunk_setChunk_witness :
  fst (removeChunk (setChunk 1700000000 newMCAFile 3 4 REnd) 3 4) = true /\
  chunks (snd (removeChunk (setChunk 1700000000 newMCAFile 3 4 REnd) 3 4))
  = chunks newMCAFile /\
  nth_error (locations (snd (removeChunk (setChunk 1700000000 newMCAFile 3 4 REnd) 3 4)))
    (slotOf 3 4) = Some None /\
  nth_error (timestamps (snd (removeChunk (setChunk 1700000000 newMCAFile 3 4 REnd) 3 4)))
    (slotOf 3 4) = Some 0.
Proof.
  apply (removeChunk_setChunk 1700000000 newMCAFile 3 4 REnd). reflexivity.
Defined.

(** X4: [getChunkCount] goes up by one when [setChunk] fills an empty slot
    and stays when it replaces a chunk; it goes down by one when
    [removeChunk] answers true and stays when it answers false. *)
Theorem getChunkCount_updates (now : Z) (mca : MCAFile) (x z : Z) (d : readResult) :
  getChunkCount (setChunk now mca x z d)
  = getChunkCount mca + (match getChunk mca x z with Some _ => 0 | None => 1 end) /\
  getChunkCount (snd (removeChunk mca x z))
  = getChunkCount mca - (if fst (removeChunk mca x z) then 1 else 0).
Proof.
  unfold getChunkCount, getChunk, setChunk, removeChunk, map_set, len.
  cbn [chunks]. split.
  - rewrite length_assoc_set. unfold map_has.
    destruct (map_get _ (chunks mca)); lia.
  - destruct (map_has _ (chunks mca)) eqn:E; cbn [fst snd chunks]; [|lia].
    apply length_map_delete in E. lia.
Qed.

(** ** The keys of the chunk map *)

(** A key of the chunk map that names a slot of the 32 x 32 grid. *)
Definition is_slot_key (key : string) : bool :=
  match keyCoords key with
  | Some (x, z) => String.eqb key (chunkKey x z) && in_range 0 31 x && in_range 0 31 z
  | None => false
  end.

(** The keys of the chunk map are distinct and each names a slot. *)
Definition slot_keys (mca : MCAFile) : bool :=
  nodupb (map fst (chunks mca)) && forallb is_slot_key (map fst (chunks mca)).

Lemma is_slot_key_chunkKey x z :
  0 <= x < 32 -> 0 <= z < 32 -> is_slot_key (chunkKey x z) = true.
Proof.
  intros Hx Hz. unfold is_slot_key. rewrite keyCoords_chunkKey by assumption.
  rewrite String.eqb_refl. cbn [andb]. apply andb_true_iff.
  split; apply in_range_spec; lia.
Qed.

Lemma is_slot_key_inv key :
  is_slot_key key = true ->
  exists x z, 0 <= x < 32 /\ 0 <= z < 32 /\ key = chunkKey x z
              /\ keyCoords key = Some (x, z).
Proof.
  unfold is_slot_key. destruct (keyCoords key) as [[x z]|]; [|discriminate].
  intros H. apply andb_true_iff in H as [H Hz]. apply andb_true_iff in H as [E Hx].
  apply String.eqb_eq in E. apply in_range_spec in Hx, Hz.
  exists x, z. repeat split; try lia; assumption.
Qed.

Lemma map_fst_assoc_set {V} k (v : V) m :
  map fst (assoc_set k v m)
  = if map_has k m then map fst m else (map fst m ++ [k])%list.
Proof.
  unfold map_has. induction m as [|[k0 v0] m IH]; simpl; [reflexivity|].
  destruct (String.eqb_spec k0 k) as [->|]; simpl; [reflexivity|]. rewrite IH.
  now destruct (map_get k m).
Qed.

Lemma map_has_existsb {V} k (m : list (string * V)) :
  map_has k m = existsb (String.eqb k) (map fst m).
Proof.
  unfold map_has. induction m as [|[k0 v0] m IH]; simpl; [reflexivity|].
  rewrite (String.eqb_sym k k0). destruct (String.eqb k0 k); [reflexivity | exact IH].
Qed.

Lemma nodupb_snoc k l :
  nodupb l = true -> existsb (String.eqb k) l = false -> nodupb (l ++ [k]) = true.
Proof.
  induction l as [|x l IH]; simpl; intros Hn Hk; [reflexivity|].
  apply andb_true_iff in Hn as [Hx Hn]. apply orb_false_iff in Hk as [Hkx Hk].
  rewrite IH by assumption. rewrite andb_true_r. apply negb_true_iff.
  rewrite existsb_app. apply negb_true_iff in Hx. rewrite Hx. simpl.
  now rewrite String.eqb_sym, Hkx.
Qed.

Lemma slot_keys_set k (d : readResult) m :
  is_slot_key k = true ->
  nodupb (map fst m) && forallb is_slot_key (map fst m) = true ->
  nodupb (map fst (assoc_set k d m)) && forallb is_slot_key (map fst (assoc_set k d m))
  = true.
Proof.
  intros Hk H. rewrite map_fst_assoc_set.
  destruct (map_has k m) eqn:E; [exact H|].
  apply andb_true_iff in H as [Hn Hf]. rewrite map_has_existsb in E.
  rewrite nodupb_snoc by assumption. rewrite forallb_app, Hf. simpl. now rewrite Hk.
Qed.

Lemma slot_keys_filter (f : string * readResult -> bool) m :
  nodupb (map fst m) && forallb is_slot_key (map fst m) = true ->
  nodupb (map fst (filter f m)) && forallb is_slot_key (map fst (filter f m)) = true.
Proof.
  induction m as [|[k v] m IH]; simpl; [auto|]. intros H.
  apply andb_true_iff in H as [Hn Hf]. apply andb_true_iff in Hn as [Hk Hn].
  apply andb_true_iff in Hf as [Hs Hf].
  specialize (IH ltac:(now rewrite Hn, Hf)). apply andb_true_iff in IH as [IH1 IH2].
  destruct (f (k, v)); simpl; [|now rewrite IH1, IH2].
  rewrite Hs, IH1, IH2, !andb_true_r. apply negb_true_iff. apply negb_true_iff in Hk.
  apply existsb_eqb_false. intros Hin. apply in_map_iff in Hin as [[k' v'] [E Hin]].
  apply filter_In in Hin as [Hin _]. simpl in E. subst k'.
  assert (Hex : existsb (String.eqb k) (map fst m) = true).
  { apply existsb_exists. exists k. split; [|apply String.eqb_refl].
    apply in_map_iff. now exists (k, v'). }
  congruence.
Qed.

Lemma slot_keys_loaded gunzipSync inflateSync fuel buffer locs n :
  (n <= 1024)%nat ->
  nodupb (map fst (loaded_chunks gunzipSync inflateSync fuel buffer locs n))
  && forallb is_slot_key (map fst (loaded_chunks gunzipSync inflateSync fuel buffer locs n))
  = true.
Proof.
  induction n as [|n IH]; intros Hn; [reflexivity|].
  rewrite loaded_chunks_S. specialize (IH ltac:(lia)).
  destruct (chunk_at _ _ _ _ _ n) as [data|]; [|now rewrite app_nil_r].
  apply andb_true_iff in IH as [IH1 IH2]. rewrite map_app. simpl.
  rewrite nodupb_snoc, forallb_app, IH2; [| exact IH1 |].
  - simpl. rewrite andb_true_r. unfold slotKey. apply is_slot_key_chunkKey.
    + apply Z.mod_pos_bound. lia.
    + split; [apply Z.div_pos; lia | apply Z.div_lt_upper_bound; lia].
  - apply existsb_eqb_false. intros Hin.
    apply loaded_chunks_keys in Hin as [i [Hi E]]. apply slotKey_inj in E; lia.
Qed.

(** X5: the keys of the chunk map stay distinct names of slots of the
    32 x 32 grid: this holds of a new archive and of every archive that
    [load] returns, and [setChunk] and [removeChunk] keep it. *)
Theorem slot_keys_invariant
    (gunzipSync inflateSync : list byte -> option (list byte)) (fuel : nat)
    (buffer : list byte) (now : Z) (mca : MCAFile) (x z : Z) (d : readResult) :
  slot_keys newMCAFile = true /\
  (forall mca', load gunzipSync inflateSync fuel buffer = Some mca' ->
                slot_keys mca' = true) /\
  (slot_keys mca = true -> slot_keys (setChunk now mca x z d) = true) /\
  (slot_keys mca = true -> slot_keys (snd (removeChunk mca x z)) = true).
Proof.
  split; [reflexivity|]. split; [|split].
  - intros mca' Hload. apply load_inv in Hload as (_ & _ & Hchunks).
    unfold slot_keys. rewrite Hchunks. now apply slot_keys_loaded.
  - unfold slot_keys, setChunk. cbn [chunks]. rewrite !js_and_31.
    apply slot_keys_set. apply is_slot_key_chunkKey; apply Z.mod_pos_bound; lia.
  - unfold slot_keys, removeChunk. intros H.
    destruct (map_has _ (chunks mca)); cbn [snd chunks]; [|exact H].
    rewrite map_delete_filter by (now apply andb_true_iff in H as [H _]).
    now apply slot_keys_filter.
Qed.

(** ** Listing the chunks *)

(** [getAllChunks]: the objects [{x, z, data}], in the order of the
    chunk map. *)
Definition getAllChunks (mca : MCAFile) : option (list (Z * Z * readResult)) :=
  map_option (fun e : string * readResult =>
                '(x, z) <- keyCoords (fst e) ;; Some (x, z, snd e)) (chunks mca).

Lemma map_get_In_nodup {V} k (v : V) m :
  nodupb (map fst m) = true -> In (k, v) m -> map_get k m = Some v.
Proof.
  induction m as [|[k0 v0] m IH]; simpl; [tauto|]. intros Hn Hin.
  apply andb_true_iff in Hn as [Hk Hn]. apply negb_true_iff in Hk.
  destruct Hin as [E|Hin].
  - injection E as -> ->. now rewrite String.eqb_refl.
  - destruct (String.eqb_spec k0 k) as [->|]; [|auto].
    assert (Hex : existsb (String.eqb k) (map fst m) = true).
    { apply existsb_exists. exists k. split; [|apply String.eqb_refl].
      apply in_map_iff. now exists (k, v). }
    congruence.
Qed.

Lemma getAllChunks_spec m :
  forallb is_slot_key (map fst m) = true ->
  exists l,
    map_option (fun e : string * readResult =>
                  '(x, z) <- keyCoords (fst e) ;; Some (x, z, snd e)) m = Some l /\
    List.length l = List.length m /\
    forall x z d, In (x, z, d) l
                  <-> 0 <= x < 32 /\ 0 <= z < 32 /\ In (chunkKey x z, d) m.
Proof.
  induction m as [|[k v] m IH]; cbn [map forallb fst]; intros H.
  - exists []. split; [reflexivity|]. split; [reflexivity|]. simpl. tauto.
  - apply andb_true_iff in H as [Hk Hm]. destruct (IH Hm) as (l & El & Hl & Hin).
    destruct (is_slot_key_inv k Hk) as (x0 & z0 & Hx0 & Hz0 & Ek & Ec).
    exists ((x0, z0, v) :: l). cbn [map_option fst snd]. rewrite Ec, El.
    split; [reflexivity|]. split; [simpl; now rewrite Hl|].
    intros x z d. simpl. rewrite Hin. split.
    + intros [E|(Hx & Hz & Hi)].
      * injection E as <- <- <-. repeat split; try lia. left. now rewrite Ek.
      * repeat split; try lia. now right.
    + intros (Hx & Hz & [E|Hi]).
      * left. injection E as E <-. rewrite Ek in E.
        apply chunkKey_inj in E; try lia. destruct E as [-> ->]. reflexivity.
      * right. auto.
Qed.

(** X6: in an archive whose keys are distinct names of slots,
    [getAllChunks] lists every stored chunk once, with the coordinates
    between 0 and 31 of its slot: its entries are the triples [(x, z, d)]
    with [getChunk(x, z)] equal to [d]. *)
Theorem getAllChunks_getChunk (mca : MCAFile) :
  slot_keys mca = true ->
  exists l,
    getAllChunks mca = Some l /\
    len l = getChunkCount mca /\
    forall x z d,
      In (x, z, d) l <-> 0 <= x < 32 /\ 0 <= z < 32 /\ getChunk mca x z = Some d.
Proof.
  unfold slot_keys. intros H. apply andb_true_iff in H as [Hn Hf].
  destruct (getAllChunks_spec (chunks mca) Hf) as (l & El & Hl & Hin).
  exists l. split; [exact El|]. split; [unfold getChunkCount, len; now rewrite Hl|].
  intros x z d. rewrite Hin. unfold getChunk. rewrite !js_and_31. split.
  - intros (Hx & Hz & Hi). repeat split; try lia.
    rewrite !Z.mod_small by lia. now apply map_get_In_nodup.
  - intros (Hx & Hz & Hg). repeat split; try lia.
    rewrite !Z.mod_small in Hg by lia. now apply map_get_In.
Qed.

Lemma getAllChunks_getChunk_witness :
  exists l,
    getAllChunks two_chunk_mca = Some l /\
    len l = getChunkCount two_chunk_mca /\
    forall x z d,
      In (x, z, d) l
      <-> 0 <= x < 32 /\ 0 <= z < 32 /\ getChunk two_chunk_mca x z = Some d.
Proof. apply (getAllChunks_getChunk two_chunk_mca). reflexivity. Defined.

(** ** The bounds of a region *)

Record regionBounds := RegionBounds {
  minX : JsNumber; maxX : JsNumber; minZ : JsNumber; maxZ : JsNumber
}.

(** [getRegionBounds]: [null] for an archive without chunks. *)
Definition getRegionBounds (mca : MCAFile) : option (option regionBounds) :=
  if getChunkCount mca =? 0 then Some None
  else
    b <- fold_left (fun acc key =>
                      b <- acc ;;
                      '(x, z) <- keyCoords key ;;
                      Some (RegionBounds (Math_min x (minX b)) (Math_max x (maxX b))
                                         (Math_min z (minZ b)) (Math_max z (maxZ b))))
           (map fst (chunks mca))
           (Some (RegionBounds (NInf false) (NInf true) (NInf false) (NInf true))) ;;
    Some (Some b).

(** The bounds [b] are those of the coordinates [seen]. *)
Definition bounds_of (seen : list (Z * Z)) (b : regionBounds) : Prop :=
  match seen with
  | [] => b = RegionBounds (NInf false) (NInf true) (NInf false) (NInf true)
  | _ :: _ =>
      exists x0 x1 z0 z1,
        b = RegionBounds (NInt x0) (NInt x1) (NInt z0) (NInt z1) /\
        Forall (fun p => x0 <= fst p <= x1 /\ z0 <= snd p <= z1) seen /\
        In x0 (map fst seen) /\ In x1 (map fst seen) /\
        In z0 (map snd seen) /\ In z1 (map snd seen)
  end.

Lemma bounds_of_step seen b x z :
  bounds_of seen b ->
  bounds_of (seen ++ [(x, z)])
    (RegionBounds (Math_min x (minX b)) (Math_max x (maxX b))
                  (Math_min z (minZ b)) (Math_max z (maxZ b))).
Proof.
  destruct seen as [|p seen]; cbn [bounds_of app].
  - intros ->. cbn. exists x, x, z, z. split; [reflexivity|].
    split; [constructor; [simpl; lia | constructor]|]. simpl. tauto.
  - intros (x0 & x1 & z0 & z1 & -> & HF & H0 & H1 & H2 & H3).
    cbn [minX maxX minZ maxZ Math_min Math_max].
    exists (Z.min x x0), (Z.max x x1), (Z.min z z0), (Z.max z z1).
    split; [reflexivity|].
    change (p :: seen ++ [(x, z)])%list with ((p :: seen) ++ [(x, z)])%list.
    split.
    + apply Forall_app. split.
      * eapply Forall_impl; [|exact HF]. simpl. intros a. lia.
      * constructor; [simpl; lia | constructor].
    + rewrite !map_app, !in_app_iff. cbn [map fst snd In].
      repeat split.
      * destruct (Z.min_spec x x0) as [[_ ->]|[_ ->]]; auto.
      * destruct (Z.max_spec x x1) as [[_ ->]|[_ ->]]; auto.
      * destruct (Z.min_spec z z0) as [[_ ->]|[_ ->]]; auto.
      * destruct (Z.max_spec z z1) as [[_ ->]|[_ ->]]; auto.
Qed.

Lemma bounds_fold keys : forall seen b,
  forallb is_slot_key keys = true -> bounds_of seen b ->
  exists coords b',
    map_option keyCoords keys = Some coords /\
    fold_left (fun acc key =>
                 b <- acc ;;
                 '(x, z) <- keyCoords key ;;
                 Some (RegionBounds (Math_min x (minX b)) (Math_max x (maxX b))
                                    (Math_min z (minZ b)) (Math_max z (maxZ b))))
      keys (Some b) = Some b' /\
    bounds_of (seen ++ coords) b'.
Proof.
  induction keys as [|k keys IH]; intros seen b Hk Hb.
  - exists [], b. rewrite app_nil_r. auto.
  - cbn [forallb] in Hk. apply andb_true_iff in Hk as [Hk Hks].
    destruct (is_slot_key_inv k Hk) as (x & z & _ & _ & _ & Ec).
    destruct (IH (seen ++ [(x, z)])%list _ Hks (bounds_of_step seen b x z Hb))
      as (coords & b' & Em & Ef & Hb').
    exists ((x, z) :: coords), b'. cbn [map_option fold_left obind]. rewrite Ec, Em.
    cbn [obind]. split; [reflexivity|]. split; [exact Ef|].
    now rewrite <- app_assoc in Hb'.
Qed.

Lemma coords_getChunk (m : list (string * readResult)) coords :
  nodupb (map fst m) = true -> forallb is_slot_key (map fst m) = true ->
  map_option keyCoords (map fst m) = Some coords ->
  forall x z, In (x, z) coords
              <-> 0 <= x < 32 /\ 0 <= z < 32 /\ map_get (chunkKey x z) m <> None.
Proof.
  intros Hn. revert coords.
  induction m as [|[k v] m IH]; cbn [map forallb fst map_option]; intros coords Hf Hc.
  - apply Some_eq in Hc. subst. simpl. intros x z. split; [tauto|]. intros (_ & _ & H).
    now elim H.
  - apply andb_true_iff in Hf as [Hk Hf].
    destruct (is_slot_key_inv k Hk) as (x0 & z0 & Hx0 & Hz0 & Ek & Ec).
    rewrite Ec in Hc. cbn [obind] in Hc.
    destruct (map_option keyCoords (map fst m)) as [cs|] eqn:Em; [|discriminate Hc].
    cbn [obind] in Hc. apply Some_eq in Hc. subst coords.
    cbn [map nodupb fst] in Hn. apply andb_true_iff in Hn as [_ Hn].
    specialize (IH Hn cs Hf eq_refl).
    intros x z. cbn [In map_get]. rewrite IH. split.
    + intros [E|(Hx & Hz & Hg)].
      * injection E as <- <-. repeat split; try lia. rewrite Ek, String.eqb_refl.
        discriminate.
      * repeat split; try lia. destruct (String.eqb k (chunkKey x z)); [discriminate|auto].
    + intros (Hx & Hz & Hg).
      destruct (String.eqb_spec k (chunkKey x z)) as [E|]; [|right; auto].
      left. rewrite Ek in E. apply chunkKey_inj in E; try lia. now destruct E as [-> ->].
Qed.

(** X7: [getRegionBounds] returns [null] for an archive without chunks.
    For an archive with chunks, whose keys are distinct names of slots, it
    returns integral bounds; every stored chunk lies within them, and each
    bound is the coordinate of some stored chunk. *)
Theorem getRegionBounds_tight (mca : MCAFile) :
  slot_keys mca = true ->
  (chunks mca = [] -> getRegionBounds mca = Some None) /\
  (chunks mca <> [] ->
   exists x0 x1 z0 z1,
     getRegionBounds mca
     = Some (Some (RegionBounds (NInt x0) (NInt x1) (NInt z0) (NInt z1))) /\
     (forall x z d, 0 <= x < 32 -> 0 <= z < 32 -> getChunk mca x z = Some d ->
                    x0 <= x <= x1 /\ z0 <= z <= z1) /\
     (exists z, getChunk mca x0 z <> None) /\ (exists z, getChunk mca x1 z <> None) /\
     (exists x, getChunk mca x z0 <> None) /\ (exists x, getChunk mca x z1 <> None)).
Proof.
  unfold slot_keys, getRegionBounds, getChunkCount, len. intros H.
  apply andb_true_iff in H as [Hn Hf]. split.
  - intros ->. reflexivity.
  - intros Hne. destruct (chunks mca) as [|e m] eqn:Em; [now elim Hne|].
    rewrite <- Em in *. replace (Z.of_nat (List.length (chunks mca)) =? 0) with false
      by (rewrite Em; reflexivity).
    destruct (bounds_fold (map fst (chunks mca)) [] _ Hf eq_refl)
      as (coords & b' & Ec & Ef & Hb).
    rewrite Ef. cbn [obind app] in *.
    pose proof (coords_getChunk _ _ Hn Hf Ec) as Hin.
    destruct coords as [|c coords].
    { rewrite Em in Ec. cbn [map map_option] in Ec.
      destruct (keyCoords (fst e)); [|discriminate Ec]. cbn [obind] in Ec.
      destruct (map_option keyCoords (map fst m)); discriminate Ec. }
    destruct Hb as (x0 & x1 & z0 & z1 & -> & HF & H0 & H1 & H2 & H3).
    assert (Hchunk : forall x z, In (x, z) (c :: coords) ->
                                 getChunk mca x z <> None).
    { intros x z Hi. apply Hin in Hi as (Hx & Hz & Hg). unfold getChunk.
      now rewrite !js_and_31, !Z.mod_small by lia. }
    exists x0, x1, z0, z1. split; [reflexivity|]. split.
    + intros x z d Hx Hz Hg. rewrite Forall_forall in HF.
      apply (HF (x, z)). apply Hin. repeat split; try lia.
      unfold getChunk in Hg. rewrite !js_and_31, !Z.mod_small in Hg by lia.
      now rewrite Hg.
    + repeat split.
      * apply in_map_iff in H0 as [[x z] [E Hi]]. simpl in E. subst. exists z. auto.
      * apply in_map_iff in H1 as [[x z] [E Hi]]. simpl in E. subst. exists z. auto.
      * apply in_map_iff in H2 as [[x z] [E Hi]]. simpl in E. subst. exists x. auto.
      * apply in_map_iff in H3 as [[x z] [E Hi]]. simpl in E. subst. exists x. auto.
Qed.

Lemma getRegionBounds_tight_witness :
  (chunks two_chunk_mca = [] -> getRegionBounds two_chunk_mca = Some None) /\
  (chunks two_chunk_mca <> [] ->
   exists x0 x1 z0 z1,
     getRegionBounds two_chunk_mca
     = Some (Some (RegionBounds (NInt x0) (NInt x1) (NInt z0) (NInt z1))) /\
     (forall x z d, 0 <= x < 32 -> 0 <= z < 32 ->
                    getChunk two_chunk_mca x z = Some d ->
                    x0 <= x <= x1 /\ z0 <= z <= z1) /\
     (exists z, getChunk two_chunk_mca x0 z <> None) /\
     (exists z, getChunk two_chunk_mca x1 z <> None) /\
     (exists x, getChunk two_chunk_mca x z0 <> None) /\
     (exists x, getChunk two_chunk_mca x z1 <> None)).
Proof. apply (getRegionBounds_tight two_chunk_mca). reflexivity. Defined.

(** ** Loading a file of any content *)

Lemma for_loop_fails {St} (body : nat -> St -> option St) (i n : nat) (s : St) :
  (forall s', body i s' = None) -> (i < n)%nat -> for_loop n body s = None.
Proof.
  intros Hfail. induction n as [|n IH]; intros Hi; [lia|].
  rewrite for_loop_S. destruct (Nat.eq_dec i n) as [->|Hne].
  - destruct (for_loop n body s); [apply Hfail | reflexivity].
  - now rewrite IH by lia.
Qed.

Lemma readUInt32BE_out_of_bounds buffer o :
  len buffer < o + 4 -> readUInt32BE buffer o = None.
Proof.
  intros H. unfold readUInt32BE, bytesAt, buflen. fold (len buffer).
  destruct (Z.leb_spec (o + 4) (len buffer)); [lia|]. now rewrite andb_false_r.
Qed.

(** The word of the header at index [i] of the table that starts at
    [base]. *)
Definition header_word (buffer : list byte) (base : Z) (i : nat) : Z :=
  match readUInt32BE buffer (base + Z.of_nat i * 4) with
  | Some w => w
  | None => 0
  end.

Lemma parseTimestamp_loop_values buffer :
  8192 <= len buffer ->
  forall n, (n <= 1024)%nat ->
  exists ts,
    for_loop n (parseTimestamp buffer) (repeat 0 1024) = Some ts /\
    List.length ts = 1024%nat /\
    forall i, nth i ts 0 = if (i <? n)%nat then header_word buffer 4096 i else 0.
Proof.
  intros Hlen. induction n as [|n IH]; intros Hn.
  - exists (repeat 0 1024). split; [reflexivity|]. split; [apply repeat_length|].
    intros i. apply nth_repeat.
  - destruct (IH ltac:(lia)) as (ts & Hloop & Hl & Hnth).
    rewrite for_loop_S, Hloop. cbn [obind]. unfold parseTimestamp, HEADER_SIZE.
    pose proof (readUInt32BE_in_bounds buffer (4096 + Z.of_nat n * 4)
                  ltac:(lia) ltac:(lia)) as [w Hw].
    rewrite Hw. cbn [obind]. eexists. split; [reflexivity|].
    split; [rewrite length_array_set; lia|]. intros i.
    destruct (Nat.eq_dec i n) as [->|Hne].
    + rewrite nth_array_set_eq. destruct (Nat.ltb_spec n (S n)); [|lia].
      unfold header_word. now rewrite Hw.
    + rewrite nth_array_set_ne by lia. rewrite Hnth.
      destruct (Nat.ltb_spec i n); destruct (Nat.ltb_spec i (S n)); try lia; reflexivity.
Qed.

Lemma load_short gunzipSync inflateSync fuel buffer :
  len buffer < 8192 -> load gunzipSync inflateSync fuel buffer = None.
Proof.
  unfold load, parseFile. cbn [locations timestamps chunks newMCAFile].
  intros Hlen. destruct (Z.lt_ge_cases (len buffer) 4096) as [Hs|Hs].
  - rewrite (for_loop_fails (parseLocation buffer) 1023 1024); [reflexivity | | lia].
    intros s. unfold parseLocation.
    now rewrite readUInt32BE_out_of_bounds by (change (Z.of_nat 1023) with 1023; lia).
  - destruct (for_loop 1024 (parseLocation buffer) (repeat None 1024));
      [|reflexivity].
    cbn [obind].
    rewrite (for_loop_fails (parseTimestamp buffer) 1023 1024); [reflexivity | | lia].
    intros s. unfold parseTimestamp, HEADER_SIZE.
    now rewrite readUInt32BE_out_of_bounds by (change (Z.of_nat 1023) with 1023; lia).
Qed.

Lemma load_long gunzipSync inflateSync fuel buffer :
  8192 <= len buffer ->
  exists mca,
    load gunzipSync inflateSync fuel buffer = Some mca /\
    List.length (locations mca) = 1024%nat /\
    List.length (timestamps mca) = 1024%nat /\
    forall i, (i < 1024)%nat ->
      nth i (timestamps mca) 0 = header_word buffer 4096 i /\
      nth i (locations mca) None = decode_location (header_word buffer 0 i).
Proof.
  unfold load, parseFile. cbn [locations timestamps chunks newMCAFile].
  intros Hlen.
  destruct (parseLocation_loop buffer
              (fun i => decode_location (header_word buffer 0 i))) with (n := 1024%nat)
    as (locs & Hlocs & Hll & Hnl); [|lia|].
  { intros i Hi.
    destruct (readUInt32BE_in_bounds buffer (Z.of_nat i * 4) ltac:(lia) ltac:(lia))
      as [w Hw].
    exists w. split; [exact Hw|]. unfold header_word. cbn [Z.add]. now rewrite Hw. }
  destruct (parseTimestamp_loop_values buffer Hlen 1024 ltac:(lia))
    as (ts & Hts & Hlt & Hnt).
  rewrite Hlocs. cbn [obind]. rewrite Hts. cbn [obind].
  rewrite parseChunks_loaded by lia. cbn [obind].
  eexists. split; [reflexivity|]. cbn [locations timestamps].
  split; [exact Hll|]. split; [exact Hlt|]. intros i Hi.
  rewrite Hnt, Hnl. destruct (Nat.ltb_spec i 1024) as [_|Hge]; [|lia].
  split; reflexivity.
Qed.

(** X8: [load] throws exactly when the file is shorter than the two
    header sectors, whatever the chunk blobs hold.  When it returns, both
    tables have 1024 entries: each timestamp is the word of the second
    sector at its index, and each location is decoded from the word of the
    first sector (offset in the high three bytes, count in the low byte;
    no location when either is 0). *)
Theorem load_header
    (gunzipSync inflateSync : list byte -> option (list byte)) (fuel : nat)
    (buffer : list byte) :
  (len buffer < 8192 -> load gunzipSync inflateSync fuel buffer = None) /\
  (8192 <= len buffer ->
   exists mca,
     load gunzipSync inflateSync fuel buffer = Some mca /\
     List.length (locations mca) = 1024%nat /\
     List.length (timestamps mca) = 1024%nat /\
     forall i, (i < 1024)%nat ->
       nth i (timestamps mca) 0 = header_word buffer 4096 i /\
       nth i (locations mca) None = decode_location (header_word buffer 0 i)).
Proof.
  split; intros Hlen.
  - now apply load_short.
  - now apply load_long.
Qed.

(** ** The tables of a saved archive *)





(** ** The JSON form of an archive: [MCAFile.toJSON] and [MCAFile.fromJSON] *)

(** The object [{chunks, timestamps}], both keyed by ["x,z"]. *)
Record mcaJSON := McaJSON {
  json_chunks : list (string * readResult);
  json_timestamps : list (string * Z)
}.

(** The loop of [toJSON].  A timestamp that is [undefined] (an index
    outside the table) is outside the model, which then answers [None]. *)
Fixpoint toJSON_entries (ts : list Z) (entries : list (string * readResult))
    (result : mcaJSON) : option mcaJSON :=
  match entries with
  | [] => Some result
  | (key, data) :: rest =>
      '(x, z) <- keyCoords key ;;
      let index := z * 32 + x in
      if index <? 0 then None
      else
        timestamp <- nth_error ts (Z.to_nat index) ;;
        toJSON_entries ts rest
          (McaJSON (obj_set (chunkKey x z) data (json_chunks result))
                   (obj_set (chunkKey x z) timestamp (json_timestamps result)))
  end.

Definition MCAFile_toJSON (mca : MCAFile) : option mcaJSON :=
  toJSON_entries (timestamps mca) (chunks mca) (McaJSON [] []).

(** The two loops of [fromJSON]; [clock k] is the time at the [k]-th call
    of [setChunk].  An index outside the table is outside the model. *)
Fixpoint fromJSON_chunks (clock : nat -> Z) (k : nat) (entries : list (string * readResult))
    (mca : MCAFile) : option MCAFile :=
  match entries with
  | [] => Some mca
  | (key, data) :: rest =>
      '(x, z) <- keyCoords key ;;
      fromJSON_chunks clock (S k) rest (setChunk (clock k) mca x z data)
  end.

Fixpoint fromJSON_timestamps (entries : list (string * Z)) (mca : MCAFile)
  : option MCAFile :=
  match entries with
  | [] => Some mca
  | (key, timestamp) :: rest =>
      '(x, z) <- keyCoords key ;;
      let index := z * 32 + x in
      if (index <? 0) || (1024 <=? index) then None
      else
        fromJSON_timestamps rest
          (MCA (chunks mca) (locations mca)
               (array_set 0 (Z.to_nat index) timestamp (timestamps mca)))
  end.

Definition MCAFile_fromJSON (clock : nat -> Z) (jsonData : mcaJSON) : option MCAFile :=
  mca <- fromJSON_chunks clock 0 (json_chunks jsonData) newMCAFile ;;
  fromJSON_timestamps (json_timestamps jsonData) mca.

(** The slot that a key names. *)
Definition key_slot (key : string) : nat :=
  match keyCoords key with
  | Some (x, z) => Z.to_nat (z * 32 + x)
  | None => 0
  end.

Lemma is_slot_key_not_proto key : is_slot_key key = true -> is_proto key = false.
Proof.
  unfold is_slot_key, is_proto. destruct (String.eqb_spec key "__proto__") as [->|];
    [discriminate | reflexivity].
Qed.

Lemma key_slot_inj k k' :
  is_slot_key k = true -> is_slot_key k' = true -> key_slot k = key_slot k' -> k = k'.
Proof.
  intros H H'. unfold key_slot.
  destruct (is_slot_key_inv k H) as (x & z & Hx & Hz & -> & ->).
  destruct (is_slot_key_inv k' H') as (x' & z' & Hx' & Hz' & -> & ->).
  intros E. assert (x = x' /\ z = z') as [-> ->] by lia. reflexivity.
Qed.

Lemma toJSON_entries_spec ts entries : forall result,
  List.length ts = 1024%nat ->
  forallb is_slot_key (map fst entries) = true ->
  nodupb (map fst (json_chunks result) ++ map fst entries) = true ->
  map fst (json_timestamps result) = map fst (json_chunks result) ->
  toJSON_entries ts entries result
  = Some (McaJSON (json_chunks result ++ entries)
            (json_timestamps result
             ++ map (fun e => (fst e, nth (key_slot (fst e)) ts 0)) entries)).
Proof.
  induction entries as [|[key data] rest IH]; intros result Hts Hk Hn Hsame.
  - cbn [toJSON_entries map]. rewrite !app_nil_r. now destruct result.
  - cbn [map forallb fst] in Hk. apply andb_true_iff in Hk as [Hkey Hk].
    destruct (is_slot_key_inv key Hkey) as (x & z & Hx & Hz & Ekey & Ec).
    cbn [toJSON_entries]. rewrite Ec. cbn [obind].
    destruct (Z.ltb_spec (z * 32 + x) 0); [lia|].
    destruct (nth_error ts (Z.to_nat (z * 32 + x))) as [t|] eqn:Et.
    2:{ apply nth_error_None in Et. lia. }
    cbn [obind]. cbn [map fst] in Hn. apply nodupb_app_cons in Hn as [Hfresh Hn].
    rewrite <- Ekey.
    rewrite !obj_set_fresh;
      try (now apply is_slot_key_not_proto); try exact Hfresh; [|now rewrite Hsame].
    rewrite IH; cbn [json_chunks json_timestamps]; try assumption.
    + rewrite <- !app_assoc. cbn [app map fst]. unfold key_slot at 2. rewrite Ec.
      now rewrite (nth_error_nth _ _ 0 Et).
    + rewrite map_app. exact Hn.
    + rewrite !map_app, Hsame. reflexivity.
Qed.

Lemma fromJSON_chunks_spec clock entries : forall k mca,
  forallb is_slot_key (map fst entries) = true ->
  nodupb (map fst (chunks mca) ++ map fst entries) = true ->
  List.length (timestamps mca) = 1024%nat ->
  exists ts,
    fromJSON_chunks clock k entries mca
    = Some (MCA (chunks mca ++ entries) (locations mca) ts) /\
    List.length ts = 1024%nat /\
    forall i, ~ In i (map (fun e => key_slot (fst e)) entries) ->
              nth i ts 0 = nth i (timestamps mca) 0.
Proof.
  induction entries as [|[key data] rest IH]; intros k mca Hk Hn Hts.
  - exists (timestamps mca). cbn [fromJSON_chunks]. rewrite app_nil_r.
    split; [now destruct mca|]. auto.
  - cbn [map forallb fst] in Hk. apply andb_true_iff in Hk as [Hkey Hk].
    destruct (is_slot_key_inv key Hkey) as (x & z & Hx & Hz & Ekey & Ec).
    cbn [fromJSON_chunks]. rewrite Ec. cbn [obind].
    cbn [map fst] in Hn. apply nodupb_app_cons in Hn as [Hfresh Hn].
    assert (Eset : setChunk (clock k) mca x z data
                   = MCA (chunks mca ++ [(key, data)]) (locations mca)
                       (array_set 0 (Z.to_nat (z * 32 + x)) (clock k) (timestamps mca))).
    { unfold setChunk, map_set. rewrite !js_and_31, !Z.mod_small by lia.
      rewrite <- Ekey. now rewrite assoc_set_fresh. }
    rewrite Eset.
    destruct (IH (S k) (MCA (chunks mca ++ [(key, data)]) (locations mca)
                     (array_set 0 (Z.to_nat (z * 32 + x)) (clock k) (timestamps mca))))
      as (ts & E & Hl & Hnth); cbn [chunks locations timestamps].
    + exact Hk.
    + rewrite map_app. exact Hn.
    + rewrite length_array_set; lia.
    + cbn [chunks locations timestamps] in E, Hnth.
      exists ts. rewrite E, <- app_assoc. split; [reflexivity|]. split; [exact Hl|].
      intros i Hi. cbn [map fst In] in Hi. rewrite Hnth by tauto.
      unfold key_slot in Hi. rewrite Ec in Hi.
      apply nth_array_set_ne; [lia|]. intros ->. tauto.
Qed.

Lemma fromJSON_timestamps_spec (entries : list (string * Z)) : forall mca,
  forallb is_slot_key (map fst entries) = true ->
  nodupb (map fst entries) = true ->
  List.length (timestamps mca) = 1024%nat ->
  exists ts,
    fromJSON_timestamps entries mca = Some (MCA (chunks mca) (locations mca) ts) /\
    List.length ts = 1024%nat /\
    (forall i, ~ In i (map (fun e => key_slot (fst e)) entries) ->
               nth i ts 0 = nth i (timestamps mca) 0) /\
    (forall key t, In (key, t) entries -> nth (key_slot key) ts 0 = t).
Proof.
  induction entries as [|[key t] rest IH]; intros mca Hk Hn Hts.
  - exists (timestamps mca). cbn [fromJSON_timestamps].
    split; [now destruct mca|]. split; [exact Hts|]. split; [auto|]. intros ? ? [].
  - cbn [map forallb fst] in Hk. apply andb_true_iff in Hk as [Hkey Hk].
    destruct (is_slot_key_inv key Hkey) as (x & z & Hx & Hz & Ekey & Ec).
    cbn [fromJSON_timestamps]. rewrite Ec. cbn [obind].
    destruct (Z.ltb_spec (z * 32 + x) 0); [lia|].
    destruct (Z.leb_spec 1024 (z * 32 + x)); [lia|]. cbn [orb].
    cbn [map nodupb fst] in Hn. apply andb_true_iff in Hn as [Hfresh Hn].
    apply negb_true_iff in Hfresh.
    destruct (IH (MCA (chunks mca) (locations mca)
                    (array_set 0 (Z.to_nat (z * 32 + x)) t (timestamps mca))) Hk Hn)
      as (ts & E & Hl & Hother & Hin); cbn [chunks locations timestamps] in *.
    { rewrite length_array_set; lia. }
    exists ts. split; [exact E|]. split; [exact Hl|].
    assert (Hslot : key_slot key = Z.to_nat (z * 32 + x))
      by (unfold key_slot; now rewrite Ec).
    assert (Hnotin : ~ In (key_slot key) (map (fun e => key_slot (fst e)) rest)).
    { intros Hi. apply in_map_iff in Hi as ([k' t'] & Ek & Hi'). cbn [fst] in Ek.
      rewrite forallb_forall in Hk.
      assert (Hk' : is_slot_key k' = true)
        by (apply Hk; apply in_map_iff; now exists (k', t')).
      apply key_slot_inj in Ek; [|assumption..]. subst k'.
      assert (Hex : existsb (String.eqb key) (map fst rest) = true).
      { apply existsb_exists. exists key. split; [|apply String.eqb_refl].
        apply in_map_iff. now exists (key, t'). }
      congruence. }
    split.
    + intros i Hi. cbn [map fst In] in Hi. rewrite Hother by tauto.
      apply nth_array_set_ne; [lia|]. rewrite <- Hslot. intros ->. tauto.
    + intros k' t' [E'|Hi].
      * injection E' as <- <-. rewrite (Hother _ Hnotin), Hslot.
        apply nth_array_set_eq.
      * now apply Hin.
Qed.

(** X10: [MCAFile.fromJSON] of [toJSON] gives back the chunk map, in
    its order, of an archive whose keys are distinct names of slots; the
    timestamp of every slot that holds a chunk is kept, whatever the clock
    says while the chunks are set; the locations, and the timestamps of
    the slots without chunk, are not kept: they come back as those of a
    new archive. *)
Theorem MCAFile_fromJSON_toJSON (clock : nat -> Z) (mca : MCAFile) :
  slot_keys mca = true -> List.length (timestamps mca) = 1024%nat ->
  exists jsonData mca',
    MCAFile_toJSON mca = Some jsonData /\
    MCAFile_fromJSON clock jsonData = Some mca' /\
    chunks mca' = chunks mca /\
    locations mca' = locations newMCAFile /\
    forall x z, 0 <= x < 32 -> 0 <= z < 32 ->
      nth (slotOf x z) (timestamps mca') 0
      = match getChunk mca x z with
        | Some _ => nth (slotOf x z) (timestamps mca) 0
        | None => 0
        end.
Proof.
  unfold slot_keys. intros Hk Hts. apply andb_true_iff in Hk as [Hn Hk].
  pose proof (toJSON_entries_spec (timestamps mca) (chunks mca) (McaJSON [] [])
                Hts Hk Hn eq_refl) as HJ.
  cbn [json_chunks json_timestamps app] in HJ.
  set (stamps := map (fun e : string * readResult =>
                        (fst e, nth (key_slot (fst e)) (timestamps mca) 0)) (chunks mca))
    in *.
  assert (Hkeys : map fst stamps = map fst (chunks mca))
    by (unfold stamps; rewrite map_map; reflexivity).
  destruct (fromJSON_chunks_spec clock (chunks mca) 0 newMCAFile Hk Hn eq_refl)
    as (ts1 & E1 & Hl1 & Hother1).
  cbn [chunks locations timestamps newMCAFile app] in E1, Hother1.
  destruct (fromJSON_timestamps_spec stamps (MCA (chunks mca) (repeat None 1024) ts1))
    as (ts2 & E2 & Hl2 & Hother2 & Hin2); try (rewrite Hkeys; assumption);
    [exact Hl1|]. cbn [chunks locations timestamps] in *.
  exists (McaJSON (chunks mca) stamps), (MCA (chunks mca) (repeat None 1024) ts2).
  split; [exact HJ|].
  split; [unfold MCAFile_fromJSON; cbn [json_chunks json_timestamps]; now rewrite E1|].
  split; [reflexivity|]. split; [reflexivity|].
  intros x z Hx Hz. unfold slotOf, getChunk. rewrite !js_and_31, !Z.mod_small by lia.
  cbn [timestamps].
  assert (Hslot : key_slot (chunkKey x z) = Z.to_nat (z * 32 + x))
    by (unfold key_slot; now rewrite keyCoords_chunkKey).
  destruct (map_get (chunkKey x z) (chunks mca)) as [d|] eqn:E.
  - apply map_get_In in E. rewrite <- Hslot.
    apply Hin2. unfold stamps. apply in_map_iff. now exists (chunkKey x z, d).
  - assert (Hnotin : ~ In (Z.to_nat (z * 32 + x))
                       (map (fun e : string * readResult => key_slot (fst e)) (chunks mca))).
    { intros Hi. apply in_map_iff in Hi as ([k' d'] & Ek & Hi'). cbn [fst] in Ek.
      rewrite forallb_forall in Hk.
      assert (Hk' : is_slot_key k' = true)
        by (apply Hk; apply in_map_iff; now exists (k', d')).
      rewrite <- Hslot in Ek. apply key_slot_inj in Ek;
        [| assumption | apply is_slot_key_chunkKey; lia]. subst k'.
      rewrite (map_get_In_nodup _ _ _ Hn Hi') in E. discriminate E. }
    rewrite Hother2, Hother1.
    + apply nth_repeat.
    + exact Hnotin.
    + unfold stamps. rewrite map_map. exact Hnotin.
Qed.

Lemma MCAFile_fromJSON_toJSON_witness :
  exists jsonData mca',
    MCAFile_toJSON two_chunk_mca = Some jsonData /\
    MCAFile_fromJSON (fun k => 1800000000 + Z.of_nat k) jsonData = Some mca' /\
    chunks mca' = chunks two_chunk_mca /\
    locations mca' = locations newMCAFile /\
    forall x z, 0 <= x < 32 -> 0 <= z < 32 ->
      nth (slotOf x z) (timestamps mca') 0
      = match getChunk two_chunk_mca x z with
        | Some _ => nth (slotOf x z) (timestamps two_chunk_mca) 0
        | None => 0
        end.
Proof.
  apply (MCAFile_fromJSON_toJSON (fun k => 1800000000 + Z.of_nat k) two_chunk_mca);
    reflexivity.
Defined.

(** * Further properties of the binary format *)



Lemma readUByte_head b rest : readUByte (b :: rest) 0 = Some (Z_of_byte b, 1).
Proof.
  unfold readUByte, bytesAt, buflen. cbn [List.length].
  replace (0 + 1 <=? Z.of_nat (S (List.length rest))) with true
    by (symmetry; apply Z.leb_le; lia).
  reflexivity.
Qed.

(** X12: a buffer that starts with a zero byte parses to the End marker,
    whatever follows; and [NBT.stringify] throws on every tag of type
    end, so the End marker that [parse] returns cannot be written back. *)
Theorem end_marker (fuel : nat) (rest : list byte) (name : string) (value : payload) :
  parse fuel (x00 :: rest) = Some REnd /\ stringify (Doc END name value) = None.
Proof.
  split.
  - unfold parse, readTag, readTagWith. now rewrite readUByte_head.
  - unfold stringify, writeTag. cbn [doc_type doc_name doc_value].
    destruct (writeUByte (TAG_TYPES END)); [|reflexivity]. cbn [obind].
    destruct (writeString name); [|reflexivity]. cbn [obind].
    now destruct value.
Qed.

Lemma readTagValue_unknown buffer fuel type off :
  13 <= type -> readTagValue buffer fuel type off = None.
Proof.
  intros H. destruct fuel as [|fuel]; [reflexivity|]. cbn [readTagValue].
  destruct type as [|p|p]; try lia.
  repeat (destruct p as [p|p|]; try lia; try reflexivity).
Qed.

(** X13: a buffer whose first byte is no tag id (13 or more) makes
    [NBT.parse] throw, whatever follows. *)
Theorem parse_unknown_id (fuel : nat) (b : byte) (rest : list byte) :
  13 <= Z_of_byte b -> parse fuel (b :: rest) = None.
Proof.
  intros Hb. unfold parse, readTag, readTagWith. rewrite readUByte_head.
  cbn [obind]. replace (Z_of_byte b =? TAG_TYPES END) with false
    by (symmetry; apply Z.eqb_neq; cbn [TAG_TYPES]; lia).
  destruct (readString (b :: rest) 1) as [[name off]|]; [|reflexivity].
  cbn [obind]. now rewrite readTagValue_unknown.
Qed.

Lemma parse_unknown_id_witness : parse 5 (x0d :: [x00; x00]) = None.
Proof. apply (parse_unknown_id 5 x0d [x00; x00]). vm_compute. discriminate. Defined.

(** X14: a Long tag may hold an integral Number: the writer takes it
    through [BigInt(value)] and writes the bytes of the BigInt, so the
    reader returns the tag with the BigInt in place of the Number. *)
Theorem long_number_becomes_bigint (name : string) (z : Z) (fuel : nat) :
  valid_document (Doc LONG name (PBig z)) = true -> (1 <= fuel)%nat ->
  exists bs,
    stringify (Doc LONG name (PNum z)) = Some bs /\
    parse fuel bs = Some (RTag (Doc LONG name (PBig z))).
Proof.
  intros Hv Hf. destruct (stringify_total _ Hv) as [bs Hbs].
  exists bs. split; [exact Hbs|].
  apply (parse_stringify (Doc LONG name (PBig z)) bs fuel Hv Hbs). exact Hf.
Qed.

Lemma long_number_becomes_bigint_witness :
  exists bs,
    stringify (Doc LONG "n" (PNum 9223372036854775807)) = Some bs /\
    parse 1 bs = Some (RTag (Doc LONG "n" (PBig 9223372036854775807))).
Proof.
  apply (long_number_becomes_bigint "n" 9223372036854775807 1).
  - vm_compute. reflexivity.
  - lia.
Defined.

Lemma list_byte_of_string_app a b :
  list_byte_of_string (a ++ b) = (list_byte_of_string a ++ list_byte_of_string b)%list.
Proof.
  induction a as [|c a IH]; [reflexivity|].
  cbn [append]. unfold list_byte_of_string in *. cbn [list_ascii_of_string map app].
  now rewrite IH.
Qed.

Lemma toString_tail pre bs n :
  len bs <= n ->
  toString (pre ++ bs) (len pre) (len pre + n) = string_of_list_byte bs.
Proof.
  intros Hn. unfold toString, buflen. fold (len (pre ++ bs)%list). rewrite len_app.
  pose proof (len_nonneg pre) as Hp. pose proof (len_nonneg bs) as Hb.
  destruct (Z.geb_spec (len pre) (len pre + len bs)) as [H|H].
  - assert (E : bs = []) by (destruct bs; [reflexivity | unfold len in *; cbn [List.length] in *; lia]).
    now subst.
  - rewrite Z.max_r by lia.
    assert (Hend : (if len pre + n >? len pre + len bs
                    then len pre + len bs else len pre + n) = len pre + len bs).
    { destruct (Z.gtb_spec (len pre + n) (len pre + len bs)); lia. }
    rewrite Hend. destruct (Z.leb_spec (len pre + len bs) (len pre)) as [H'|_]; [lia|].
    replace (len pre + len bs - len pre) with (len bs) by lia.
    unfold len. rewrite !Nat2Z.id, skipn_app, skipn_all, Nat.sub_diag. cbn [skipn app].
    now rewrite firstn_all.
Qed.

(** X15: a string whose declared length runs past the end of the buffer
    is no error: the reader returns the bytes that are there.  So a
    String tag whose encoding lost its last bytes parses to the tag of the
    shortened string. *)
Theorem truncated_string (name s1 s2 : string) (fuel : nat) :
  valid_string name = true -> valid_string (s1 ++ s2) = true -> (1 <= fuel)%nat ->
  exists bs,
    stringify (Doc STRING name (PStr (s1 ++ s2)))
    = Some (bs ++ list_byte_of_string s2)%list /\
    parse fuel bs = Some (RTag (Doc STRING name (PStr s1))).
Proof.
  intros Hname Hs Hf. destruct fuel as [|fuel]; [lia|].
  unfold stringify, writeTag. cbn [doc_type doc_name doc_value writeTagValue].
  destruct (writeUByte_TAG_TYPES STRING) as [t Ht].
  destruct (writeShort_len_total _ Hname) as [n Hn].
  destruct (writeShort_len_total _ Hs) as [v Hv].
  rewrite Ht, Hn, Hv. cbn [obind].
  unfold writeString in Hv. apply obind_inv in Hv as (l & Hl & Hv).
  apply Some_eq in Hv. subst v. rewrite list_byte_of_string_app.
  exists (t ++ n ++ l ++ list_byte_of_string s1)%list.
  split; [now rewrite <- !app_assoc|].
  set (buffer := (t ++ n ++ l ++ list_byte_of_string s1)%list).
  pose proof (has_at_whole buffer) as Hat. unfold buffer in Hat at 2.
  apply has_at_app in Hat as [Hat1 Hat2]. apply has_at_app in Hat2 as [Hat2 Hat3].
  apply has_at_app in Hat3 as [Hat3 _].
  unfold parse, readTag, readTagWith.
  rewrite (readUByte_write _ _ _ _ Ht Hat1). cbn [obind].
  change (TAG_TYPES STRING =? TAG_TYPES END) with false. cbv iota.
  rewrite (readString_write _ _ _ _ Hn Hat2). cbn [obind readTagValue TAG_TYPES].
  unfold readString at 1. rewrite (readShort_write _ _ _ _ Hl Hat3). cbn [obind].
  rewrite list_byte_of_string_app, length_app, Nat2Z.inj_add.
  fold (len (list_byte_of_string s1)). fold (len (list_byte_of_string s2)).
  pose proof (len_nonneg (list_byte_of_string s1)) as H1.
  pose proof (len_nonneg (list_byte_of_string s2)) as H2.
  assert (Es1 : string_of_list_byte (list_byte_of_string s1) = s1)
    by apply string_of_list_byte_of_string.
  destruct (Z.eqb_spec (len (list_byte_of_string s1) + len (list_byte_of_string s2)) 0)
    as [E|E]; cbn [obind]; cbn [TYPE_NAMES].
  - assert (E1 : list_byte_of_string s1 = [])
      by (destruct (list_byte_of_string s1); [reflexivity | unfold len in *; cbn [List.length] in *; lia]).
    rewrite E1 in Es1. cbn in Es1. now subst s1.
  - replace (0 + len t + len n + len l)
      with (len (t ++ n ++ l)%list) by (rewrite !len_app; lia).
    unfold buffer. replace (t ++ n ++ l ++ list_byte_of_string s1)%list
      with ((t ++ n ++ l) ++ list_byte_of_string s1)%list by (now rewrite <- !app_assoc).
    rewrite toString_tail by lia. now rewrite Es1.
Qed.

Lemma truncated_string_witness :
  exists bs,
    stringify (Doc STRING "" (PStr ("he" ++ "llo")))
    = Some (bs ++ list_byte_of_string "llo")%list /\
    parse 1 bs = Some (RTag (Doc STRING "" (PStr "he"))).
Proof.
  apply (truncated_string "" "he" "llo" 1); [reflexivity | reflexivity | lia].
Defined.

(** * Further properties of the text form *)

(** ** The front end: [MinecraftNBT.toSNBT] *)

Section TextFrontEnd.

Variable showFloat : Z -> string.
Variable showDouble : Z -> string.

(** [toSNBT(nbtData, pretty = true)] of [mc-nbt.js]: the indent handed to
    the converter is 0 or -1. *)
Definition MinecraftNBT_toSNBT (type : option tagType) (value : payload) (pretty : bool)
  : option string :=
  toSNBT showFloat showDouble type value (if pretty then 0 else -1).

(** X16: with [pretty] false the front end hands the indent -1 to the
    converter, whose first statement [repeat(indent)] throws on a negative
    count: the compact mode throws on every tag. *)
Theorem compact_mode_throws (type : option tagType) (value : payload) :
  MinecraftNBT_toSNBT type value false = None.
Proof. unfold MinecraftNBT_toSNBT. destruct value; reflexivity. Qed.

End TextFrontEnd.

(** ** White space and what follows a value *)

Lemma skipWhitespace_spaces ws s :
  all_chars is_space ws = true -> skipWhitespace (ws ++ s) = skipWhitespace s.
Proof.
  induction ws as [|c ws IH]; [reflexivity|]. cbn [all_chars append skipWhitespace].
  intros H. apply andb_true_iff in H as [-> H]. auto.
Qed.

Lemma trimEnd_spaces_only ws : all_chars is_space ws = true -> trimEnd ws = "".
Proof.
  induction ws as [|c ws IH]; [reflexivity|]. cbn [all_chars trimEnd].
  intros H. apply andb_true_iff in H as [Hc H]. now rewrite (IH H), Hc.
Qed.

(** [trimEnd] of a concatenation. *)
Lemma trimEnd_app a b :
  trimEnd (a ++ b) = match trimEnd b with
                     | EmptyString => trimEnd a
                     | String c r => a ++ String c r
                     end.
Proof.
  induction a as [|x a IH]; cbn [append trimEnd].
  - now destruct (trimEnd b).
  - rewrite IH. destruct (trimEnd b) as [|c r]; [reflexivity|].
    now destruct a.
Qed.

Lemma skipWhitespace_all_spaces ws :
  all_chars is_space ws = true -> skipWhitespace ws = "".
Proof.
  intros H. rewrite <- (append_nil_r ws). now rewrite skipWhitespace_spaces.
Qed.

Lemma trim_spaces ws1 ws2 text :
  all_chars is_space ws1 = true -> all_chars is_space ws2 = true ->
  trim (ws1 ++ text ++ ws2) = trim text.
Proof.
  intros H1 H2. unfold trim. rewrite skipWhitespace_spaces by exact H1.
  induction text as [|c r IH]; cbn [append skipWhitespace].
  - now rewrite (skipWhitespace_all_spaces ws2 H2).
  - destruct (is_space c); [exact IH|].
    change (String c (r ++ ws2)) with (String c r ++ ws2).
    now rewrite trimEnd_app, (trimEnd_spaces_only ws2 H2).
Qed.

(** X17: white space before and after a text is ignored: [fromSNBT]
    returns for the padded text what it returns for the text (a value, or
    the same failure). *)
Theorem fromSNBT_padding (floatOfString doubleOfString : string -> payload)
    (fuel : nat) (ws1 ws2 text : string) :
  all_chars is_space ws1 = true -> all_chars is_space ws2 = true ->
  fromSNBT floatOfString doubleOfString fuel (ws1 ++ text ++ ws2)
  = fromSNBT floatOfString doubleOfString fuel text.
Proof. intros H1 H2. unfold fromSNBT. now rewrite trim_spaces. Qed.

Lemma fromSNBT_padding_witness :
  fromSNBT (fun _ => PNaN) (fun _ => PNaN) 3 ("  " ++ "[1b]" ++ newline)
  = fromSNBT (fun _ => PNaN) (fun _ => PNaN) 3 "[1b]".
Proof.
  apply (fromSNBT_padding (fun _ => PNaN) (fun _ => PNaN) 3 "  " newline "[1b]");
    reflexivity.
Defined.

(** X18: a blank text (empty, or white space only) is no error: the
    parser falls through to [parseNumber], which scans nothing, and
    returns an Int tag holding NaN. *)
Theorem fromSNBT_blank (floatOfString doubleOfString : string -> payload)
    (fuel : nat) (ws : string) :
  all_chars is_space ws = true ->
  fromSNBT floatOfString doubleOfString (S fuel) ws = Ok (INT, PNaN).
Proof.
  intros H. unfold fromSNBT, trim.
  now rewrite (skipWhitespace_all_spaces ws H).
Qed.

Lemma fromSNBT_blank_witness :
  fromSNBT (fun _ => PNaN) (fun _ => PNaN) 1 "   " = Ok (INT, PNaN).
Proof. apply (fromSNBT_blank (fun _ => PNaN) (fun _ => PNaN) 0 "   "). reflexivity. Defined.

Lemma trimEnd_first s c r : trimEnd s = String c r -> exists r', s = String c r'.
Proof.
  destruct s as [|x s]; cbn [trimEnd]; [discriminate|].
  destruct (trimEnd s).
  - destruct (is_space x); [discriminate|]. intros E. injection E as <- _. eauto.
  - intros E. injection E as <- _. eauto.
Qed.

(** X19: the parser stops after the first complete value and never looks
    at what follows: the text of a tag followed by anything that does not
    continue a number (anything that does not start with a digit, a dot or
    a type suffix) is read back as the tag alone. *)
Theorem fromSNBT_trailing
    (showFloat showDouble : Z -> string) (floatOfString doubleOfString : string -> payload)
    (type : tagType) (value : payload) (indent : Z) (tail : string) :
  valid type value = true ->
  textual showFloat showDouble floatOfString doubleOfString value ->
  0 <= indent -> follow tail = true ->
  exists text,
    toSNBT showFloat showDouble (Some type) value indent = Some text /\
    forall fuel, (ssize value <= fuel)%nat ->
      fromSNBT floatOfString doubleOfString fuel (text ++ tail)
      = Ok (type, as_parsed value).
Proof.
  intros Hv Ht Hi Hf.
  destruct (round_trips_all showFloat showDouble floatOfString doubleOfString
              value type indent Hv Ht Hi) as (text & Et & Hp).
  exists text. split; [exact Et|]. intros fuel Hfuel.
  destruct (Hp fuel Hfuel) as (Hstart & Htrim & Hparse).
  unfold fromSNBT, trim.
  rewrite (skipWhitespace_stops _ (value_start_stops text tail Hstart)).
  rewrite trimEnd_app, Htrim.
  destruct (trimEnd tail) as [|c r] eqn:E.
  - pose proof (value_start_stops text "" Hstart) as Hs. rewrite append_nil_r in Hs.
    rewrite (skipWhitespace_stops _ Hs).
    rewrite <- (append_nil_r text) at 1. now rewrite (Hparse "" eq_refl).
  - rewrite (skipWhitespace_stops _ (value_start_stops text _ Hstart)).
    rewrite Hparse; [reflexivity|].
    apply trimEnd_first in E as [r' ->]. exact Hf.
Qed.

Lemma fromSNBT_trailing_witness :
  exists text,
    toSNBT sample_showFloat sample_showDouble (Some COMPOUND) s3_tag 0 = Some text /\
    forall fuel, (ssize s3_tag <= fuel)%nat ->
      fromSNBT sample_floatOfString sample_doubleOfString fuel (text ++ "} and more")
      = Ok (COMPOUND, as_parsed s3_tag).
Proof.
  apply (fromSNBT_trailing sample_showFloat sample_showDouble sample_floatOfString
           sample_doubleOfString COMPOUND s3_tag 0 "} and more").
  - reflexivity.
  - cbn [textual s3_tag fst snd]. unfold key_ok.
    repeat split; try (left; reflexivity).
  - lia.
  - reflexivity.
Defined.

(** * Further properties of the JSON codec *)

Section JsonProperties.

Variable ToNumber : JsVal -> JsNumber.
Variable ToBigInt : JsVal -> option Z.
Variable ToString : JsVal -> string.

(** An integral Number between [lo] and [hi], or NaN. *)
Definition clamped (lo hi : Z) (v : JsVal) : Prop :=
  v = JNum NNaN \/ exists z, v = JInt z /\ lo <= z <= hi.

Lemma clamp_number lo hi n :
  lo <= hi -> clamped lo hi (JNum (Math_max lo (Math_min hi (Math_floor n)))).
Proof.
  intros H. destruct n as [z|m e| |[]]; cbn [Math_floor Math_min Math_max].
  - right. eexists. split; [reflexivity|]. lia.
  - right. eexists. split; [reflexivity|]. lia.
  - now left.
  - right. exists lo. split; [reflexivity|]. lia.
  - right. exists (Z.max lo hi). split; [reflexivity|]. lia.
Qed.

(** X20: [convertToType] to byte, short or int never throws and never
    leaves the range of the type: whatever the value, the result is NaN or
    an integer clamped into the range. *)
Theorem convertToType_clamps (value : JsVal) (type : string) :
  (toLowerCase type = "byte" ->
   exists v, convertToType ToNumber ToBigInt ToString value type = Ok v
             /\ clamped (-128) 127 v) /\
  (toLowerCase type = "short" ->
   exists v, convertToType ToNumber ToBigInt ToString value type = Ok v
             /\ clamped (-32768) 32767 v) /\
  (toLowerCase type = "int" ->
   exists v, convertToType ToNumber ToBigInt ToString value type = Ok v
             /\ clamped (-2147483648) 2147483647 v).
Proof.
  unfold convertToType. repeat split; intros ->; cbn [String.eqb Ascii.eqb Bool.eqb];
    eexists; (split; [reflexivity|]); apply clamp_number; lia.
Qed.

Hypothesis ToNumber_number : forall n, ToNumber (JNum n) = n.

Definition clamp_byte (z : Z) : Z := Z.max (-128) (Z.min 127 z).

Lemma convert_item_byte z :
  bindO (fromJSON_convertValue ToNumber ToBigInt ToString true (JInt z) (Some "byte"))
        (fun tag => Ok (snd tag))
  = Ok (JInt (clamp_byte z)).
Proof.
  cbn [fromJSON_convertValue JInt]. cbn [String.eqb Ascii.eqb Bool.eqb negb].
  unfold convertToType. cbn [toLowerCase string_map]. cbn. now rewrite ToNumber_number.
Qed.

(** X21: JSON ingest types an array by its first item and converts every
    item to that type: an array of integers whose first item fits a byte
    becomes a list of bytes, the items that do not fit clamped to -128 or
    127. *)
Theorem fromJSON_array_clamps (z0 : Z) (rest : list Z) :
  -128 <= z0 <= 127 ->
  fromJSON_convertValue ToNumber ToBigInt ToString true
    (JArray (map JInt (z0 :: rest))) None
  = Ok ("list", mkList (JString "byte") (map (fun z => JInt (clamp_byte z)) (z0 :: rest))).
Proof.
  intros Hz. cbn [fromJSON_convertValue map].
  change (fromJSON_convertValue ToNumber ToBigInt ToString true (JInt z0) None)
    with (if (-128 <=? z0) && (z0 <=? 127) then Ok ("byte", JInt z0)
          else if (-32768 <=? z0) && (z0 <=? 32767) then Ok ("short", JInt z0)
          else Ok ("int", JInt z0)).
  replace ((-128 <=? z0) && (z0 <=? 127)) with true
    by (symmetry; apply andb_true_iff; split; apply Z.leb_le; lia).
  cbn [bindO fst].
  assert (Hmap : forall l,
             mapO (fun item =>
                     bindO (fromJSON_convertValue ToNumber ToBigInt ToString true item
                              (Some "byte")) (fun tag => Ok (snd tag))) (map JInt l)
             = Ok (map (fun z => JInt (clamp_byte z)) l)).
  { induction l as [|z l IH]; [reflexivity|]. cbn [map mapO].
    rewrite convert_item_byte, IH. reflexivity. }
  change (JInt z0 :: map JInt rest) with (map JInt (z0 :: rest)).
  rewrite Hmap. reflexivity.
Qed.

End JsonProperties.

(** [Number(v)] on a Number, for the examples; the examples do not depend
    on its value elsewhere. *)
Definition Number_of_number (v : JsVal) : JsNumber :=
  match v with
  | JNum n => n
  | _ => NNaN
  end.

Lemma fromJSON_array_clamps_witness :
  fromJSON_convertValue Number_of_number (fun _ => None) (fun _ => "") true
    (JArray (map JInt (1 :: [1000; -1000]))) None
  = Ok ("list", mkList (JString "byte")
                  (map (fun z => JInt (clamp_byte z)) (1 :: [1000; -1000]))).
Proof.
  apply (fromJSON_array_clamps Number_of_number (fun _ => None) (fun _ => "")).
  - intros n. reflexivity.
  - lia.
Defined.

(** * Validation of well-formed tags *)

(** The name of a type, as [TYPE_NAMES] holds it. *)
Definition typeName (t : tagType) : string :=
  match t with
  | END => "end" | BYTE => "byte" | SHORT => "short" | INT => "int"
  | LONG => "long" | FLOAT => "float" | DOUBLE => "double"
  | BYTE_ARRAY => "byte_array" | STRING => "string" | LIST => "list"
  | COMPOUND => "compound" | INT_ARRAY => "int_array" | LONG_ARRAY => "long_array"
  end.

Section TagObjects.

(** The Numbers that the bit patterns of a Float and of a Double stand
    for. *)
Variable floatNumber : Z -> JsNumber.
Variable doubleNumber : Z -> JsNumber.

(** The JavaScript value of a tag value. *)
Fixpoint to_js (value : payload) : JsVal :=
  match value with
  | PNum z => JInt z
  | PNaN => JNum NNaN
  | PBig z => JBigInt z
  | PFloat w => JNum (floatNumber w)
  | PDouble w => JNum (doubleNumber w)
  | PStr s => JString s
  | PArr a => JArray (map to_js a)
  | PList ty items =>
      mkList (match ty with Some t => JString (typeName t) | None => JUndefined end)
        (map to_js items)
  | PObj entries =>
      JObject (map (fun e : string * (tagType * payload) =>
                      (fst e, mkTag (typeName (fst (snd e))) (to_js (snd (snd e)))))
                 entries)
  end.

(** The object [{type, name, value}] of a document. *)
Definition doc_js (d : document) : JsVal :=
  JObject [("type", JString (typeName (doc_type d)));
           ("name", JString (doc_name d));
           ("value", to_js (doc_value d))].

Variable ToString : JsVal -> string.

(** The fuel that validating a value takes. *)
Fixpoint vneed (value : payload) : nat :=
  match value with
  | PList _ items => S (fold_right (fun x acc => Nat.max (vneed x) acc) 0%nat items)
  | PObj entries =>
      S (fold_right (fun (e : string * (tagType * payload)) acc =>
                       Nat.max (vneed (snd (snd e))) acc) 0%nat entries)
  | _ => 1%nat
  end.

Definition push (errors : list string) (msg : string) : list string :=
  (errors ++ [msg])%list.

(** What [_validateTag] does once the tag has passed the three checks of
    its shape. *)
Definition validateValue (fuel : nat) (type : tagType) (value : JsVal) (path : string)
    (errors : list string) : outcome (list string) :=
  match type with
  | COMPOUND =>
      match value with
      | JObject entries =>
          forEachIndexed
            (fun kv (_ : nat) errors =>
               _validateTag ToString fuel (snd kv) (path ++ "." ++ fst kv) errors)
            entries 0%nat errors
      | JNull => Throw
      | _ => Ok (push errors ("Invalid compound at " ++ path ++ ": value must be object"))
      end
  | LIST =>
      if negb (truthy value) || negb (truthy (prop "type" value))
         || negb (Array_isArray (prop "value" value))
      then Ok (push errors ("Invalid list at " ++ path ++ ": malformed structure"))
      else
        match prop "value" value with
        | JArray items =>
            forEachIndexed
              (fun item index errors =>
                 _validateTag ToString fuel
                   (JObject [("type", prop "type" value); ("value", item)])
                   (path ++ "[" ++ showZ (Z.of_nat index) ++ "]") errors)
              items 0%nat errors
        | _ => Ok errors
        end
  | BYTE =>
      if out_of_range (-128) 127 value
      then Ok (push errors ("Invalid byte at " ++ path ++ ": " ++ ToString value))
      else Ok errors
  | SHORT =>
      if out_of_range (-32768) 32767 value
      then Ok (push errors ("Invalid short at " ++ path ++ ": " ++ ToString value))
      else Ok errors
  | INT =>
      if out_of_range (-2147483648) 2147483647 value
      then Ok (push errors ("Invalid int at " ++ path ++ ": " ++ ToString value))
      else Ok errors
  | LONG =>
      match value with
      | JBigInt _ => Ok errors
      | _ => Ok (push errors ("Invalid long at " ++ path ++ ": must be BigInt"))
      end
  | _ => Ok errors
  end.

Lemma validateTag_typed fuel props type value path errors :
  map_get "type" props = Some (JString (typeName type)) ->
  map_get "value" props = Some value ->
  map_has "hasOwnProperty" props = false ->
  _validateTag ToString (S fuel) (JObject props) path errors
  = validateValue fuel type value path errors.
Proof.
  intros Ht Hv Hh. cbn [_validateTag truthy typeof_object negb orb].
  unfold prop, hasOwnProperty. rewrite Ht, Hv, Hh.
  assert (Hv' : map_has "value" props = true) by (unfold map_has; now rewrite Hv).
  rewrite Hv'. cbn [bindO negb].
  destruct type; cbn [typeName truthy]; try reflexivity.
  - (* compound *)
    cbn. destruct value; reflexivity.
Qed.

Lemma forEachIndexed_ok {A} (body : A -> nat -> list string -> outcome (list string))
    (l : list A) (errors : list string) :
  Forall (fun x => forall index, body x index errors = Ok errors) l ->
  forall index, forEachIndexed body l index errors = Ok errors.
Proof.
  induction 1 as [|x l Hx _ IH]; intros index; [reflexivity|].
  cbn [forEachIndexed]. rewrite Hx. cbn [bindO]. apply IH.
Qed.

Lemma in_range_not_out lo hi z :
  in_range lo hi z = true -> out_of_range lo hi (JInt z) = false.
Proof.
  unfold in_range, out_of_range, JInt. intros H. apply andb_true_iff in H as [H1 H2].
  apply Z.leb_le in H1, H2. apply orb_false_iff.
  split; [apply Z.ltb_ge; lia | rewrite Z.gtb_ltb; apply Z.ltb_ge; lia].
Qed.

Lemma typeName_truthy t : truthy (JString (typeName t)) = true.
Proof. destruct t; reflexivity. Qed.

Lemma vneed_in_list x (items : list payload) :
  In x items ->
  (vneed x <= fold_right (fun x acc => Nat.max (vneed x) acc) 0 items)%nat.
Proof.
  induction items as [|y r IH]; simpl; [tauto|].
  intros [->|H]; [lia | specialize (IH H); lia].
Qed.

Lemma vneed_in_entries (e : string * (tagType * payload)) entries :
  In e entries ->
  (vneed (snd (snd e))
   <= fold_right (fun (e : string * (tagType * payload)) acc =>
                    Nat.max (vneed (snd (snd e))) acc) 0 entries)%nat.
Proof.
  induction entries as [|y r IH]; simpl; [tauto|].
  intros [->|H]; [lia | specialize (IH H); lia].
Qed.

Lemma vneed_pos v : (1 <= vneed v)%nat.
Proof. destruct v; cbn [vneed]; lia. Qed.

(** A valid value passes the checks of its type. *)
Lemma validateValue_valid value : forall type fuel path errors,
  valid type value = true -> (vneed value <= S fuel)%nat ->
  validateValue fuel type (to_js value) path errors = Ok errors.
Proof.
  induction value using payload_rect'; intros type fuel path errors Hv Hf;
    destruct type; cbn [valid] in Hv; try discriminate Hv;
    cbn [validateValue to_js]; try reflexivity.
  - now rewrite in_range_not_out.
  - now rewrite in_range_not_out.
  - now rewrite in_range_not_out.
  - (* list *)
    destruct ty as [listType|]; [|discriminate Hv].
    apply andb_true_iff in Hv as [_ Hv]. apply forallb_Forall in Hv.
    unfold mkList, prop. cbn [map_get String.eqb Ascii.eqb Bool.eqb].
    rewrite typeName_truthy. cbn [truthy negb orb Array_isArray].
    apply forEachIndexed_ok. rewrite Forall_forall in *. intros y Hy index.
    apply in_map_iff in Hy as (x & <- & Hx).
    cbn [vneed] in Hf. pose proof (vneed_in_list x items Hx) as Hle.
    assert (Hfx : (vneed x <= fuel)%nat)
      by (apply le_S_n; eapply Nat.le_trans; [apply le_n_S, Hle | exact Hf]).
    clear Hf Hle.
    destruct fuel as [|fuel]; [pose proof (vneed_pos x); lia|].
    rewrite (validateTag_typed fuel _ listType (to_js x)); try reflexivity.
    apply H; auto; lia.
  - (* compound *)
    apply andb_true_iff in Hv as [_ Hv]. apply forallb_Forall in Hv.
    apply forEachIndexed_ok. rewrite Forall_forall in *. intros y Hy index.
    apply in_map_iff in Hy as ([key [ty v]] & <- & Hx). cbn [fst snd].
    specialize (Hv _ Hx). cbn beta iota in Hv. apply andb_true_iff in Hv as [_ Hv].
    cbn [vneed] in Hf. pose proof (vneed_in_entries _ entries Hx) as Hle.
    cbn [snd] in Hle.
    assert (Hfx : (vneed v <= fuel)%nat)
      by (apply le_S_n; eapply Nat.le_trans; [apply le_n_S, Hle | exact Hf]).
    clear Hf Hle.
    destruct fuel as [|fuel]; [pose proof (vneed_pos v); lia|].
    unfold mkTag. rewrite (validateTag_typed fuel _ ty (to_js v)); try reflexivity.
    apply (H _ Hx); auto; lia.
Qed.

Lemma vneed_jdepth value : (vneed value <= S (jdepth (to_js value)))%nat.
Proof.
  induction value using payload_rect'; cbn [vneed to_js jdepth]; try lia.
  - (* list *)
    unfold mkList. cbn [jdepth fold_right snd].
    assert (Hitems : (fold_right (fun x acc => Nat.max (vneed x) acc) 0 items
                      <= S (fold_right (fun x acc => Nat.max (jdepth x) acc) 0
                              (map to_js items)))%nat).
    { induction H as [|x l Hx _ IH]; cbn [fold_right map]; lia. }
    lia.
  - (* compound *)
    apply le_n_S.
    induction H as [|x l Hx _ IH]; cbn [fold_right map snd]; [lia|].
    unfold mkTag at 1. cbn [jdepth fold_right snd]. lia.
Qed.

(** X22: the validator reports nothing on a valid document: whatever
    the document holds, [validate] returns the empty list of errors. *)
Theorem validate_valid (d : document) :
  valid_document d = true -> validate ToString (doc_js d) = Ok [].
Proof.
  unfold valid_document, validate. intros Hv. apply andb_true_iff in Hv as [_ Hv].
  unfold doc_js at 2.
  rewrite (validateTag_typed _ _ (doc_type d) (to_js (doc_value d))); try reflexivity.
  apply validateValue_valid; [exact Hv|].
  pose proof (vneed_jdepth (doc_value d)) as Hle.
  unfold doc_js. cbn [jdepth fold_right snd]. lia.
Qed.

End TagObjects.

Lemma validate_valid_witness :
  validate (fun _ => "") (doc_js (fun _ => NNaN) (fun _ => NNaN) hello_doc) = Ok [].
Proof.
  apply (validate_valid (fun _ => NNaN) (fun _ => NNaN) (fun _ => "") hello_doc).
  reflexivity.
Defined.

(** * Paths into a document: [getValue], [setValue] and the inventory manager

    These functions read and assign properties of arbitrary values.  The
    model covers own properties of objects and the elements of arrays;
    [Unmodelled] marks the inputs it leaves out: a name that an object
    inherits, a property of a string, an array read by name.  Objects are
    changed in place by the source; here a function that changes its
    argument returns the changed value, which stands for the source's
    object as long as no object is reachable along two paths. *)

Inductive result (A : Type) :=
| Returns (a : A)
| Throws
| Unmodelled.

Arguments Returns {A} a.
Arguments Throws {A}.
Arguments Unmodelled {A}.

Definition bindR {A B} (m : result A) (k : A -> result B) : result B :=
  match m with
  | Returns a => k a
  | Throws => Throws
  | Unmodelled => Unmodelled
  end.

(** [s.split('.')] *)
Fixpoint split_dot (s : string) : list string :=
  match s with
  | EmptyString => [EmptyString]
  | String c r =>
      if Ascii.eqb c "."%char then EmptyString :: split_dot r
      else match split_dot r with
           | [] => [String c EmptyString]
           | w :: ws => String c w :: ws
           end
  end.

(** The names every object inherits from [Object.prototype]. *)
Definition Object_prototype : list string :=
  [ "constructor"; "__proto__"; "hasOwnProperty"; "isPrototypeOf";
    "propertyIsEnumerable"; "toLocaleString"; "toString"; "valueOf";
    "__defineGetter__"; "__defineSetter__"; "__lookupGetter__";
    "__lookupSetter__" ].

Definition inherited (name : string) : bool :=
  existsb (String.eqb name) Object_prototype.

(** [o[name]] for a string [name]. *)
Definition js_get (o : JsVal) (name : string) : result JsVal :=
  match o with
  | JUndefined | JNull => Throws
  | JObject props =>
      match map_get name props with
      | Some x => Returns x
      | None => if inherited name then Unmodelled else Returns JUndefined
      end
  | _ => Unmodelled
  end.

(** The object [o] once [o[name]] holds [x]. *)
Definition with_entry (o : JsVal) (name : string) (x : JsVal) : JsVal :=
  match o with
  | JObject props => JObject (assoc_set name x props)
  | _ => o
  end.

(** [o[name] = x].  Assigning to [__proto__] changes what the object
    inherits, which is left out. *)
Definition js_set (o : JsVal) (name : string) (x : JsVal) : result JsVal :=
  match o with
  | JUndefined | JNull => Throws
  | JObject _ => if is_proto name then Unmodelled else Returns (with_entry o name x)
  | _ => Unmodelled
  end.

(** The object [current] once [current.value] is [v]. *)
Definition with_value (current v : JsVal) : JsVal := with_entry current "value" v.

(** [x.length]; the length of a string counts UTF-16 units and is left
    out. *)
Definition js_length (x : JsVal) : result JsVal :=
  match x with
  | JUndefined | JNull => Throws
  | JArray elems => Returns (JInt (len elems))
  | JString _ => Unmodelled
  | JObject _ => Returns (prop "length" x)
  | _ => Returns JUndefined
  end.

(** [l[i] = x] for an index inside the array. *)
Fixpoint list_update {A} (l : list A) (i : nat) (x : A) : list A :=
  match l, i with
  | [], _ => []
  | _ :: r, O => x :: r
  | y :: r, S k => y :: list_update r k x
  end.

(** The element [value.value[index]] when
    [index >= 0 && index < value.value.length] holds, [None] when it does
    not.  The length is read only for an index that is not negative. *)
Definition list_item (value : JsVal) (index : JsNumber) : result (option JsVal) :=
  match index with
  | NNaN => Returns None
  | NInt i =>
      if i <? 0 then Returns None
      else
        match prop "value" value with
        | JUndefined | JNull => Throws
        | JArray items => Returns (nth_error items (Z.to_nat i))
        | JObject _ | JString _ => Unmodelled
        | _ => Returns None
        end
  | _ => Unmodelled
  end.

(** The list payload [value] once [value.value[index]] holds [x]. *)
Definition set_item (value : JsVal) (index : JsNumber) (x : JsVal) : JsVal :=
  match index, prop "value" value with
  | NInt i, JArray items => with_value value (JArray (list_update items (Z.to_nat i) x))
  | _, _ => value
  end.

(** [{ type: value.type, value: item }] *)
Definition item_tag (value item : JsVal) : JsVal :=
  JObject [("type", prop "type" value); ("value", item)].

(** [a === b] on Numbers. *)
Definition number_eq (a b : JsNumber) : bool :=
  match a, b with
  | NInt x, NInt y => x =? y
  | NDyadic m e, NDyadic m' e' => (m =? m') && Pos.eqb e e'
  | NInf s, NInf s' => Bool.eqb s s'
  | _, _ => false
  end.

(** [a === b]; two objects are equal when they are the same object,
    which their contents do not tell. *)
Definition js_strict_eq (a b : JsVal) : result bool :=
  match a, b with
  | JUndefined, JUndefined | JNull, JNull => Returns true
  | JBool x, JBool y => Returns (Bool.eqb x y)
  | JNum x, JNum y => Returns (number_eq x y)
  | JBigInt x, JBigInt y => Returns (x =? y)
  | JString x, JString y => Returns (String.eqb x y)
  | (JArray _ | JObject _), (JArray _ | JObject _) => Unmodelled
  | _, _ => Returns false
  end.

(** [array.filter(keep)] and [array.map(f)] with callbacks that may throw. *)
Fixpoint filterR {A} (keep : A -> result bool) (l : list A) : result (list A) :=
  match l with
  | [] => Returns []
  | x :: r =>
      bindR (keep x) (fun kept =>
      bindR (filterR keep r) (fun r' =>
      Returns (if kept then x :: r' else r')))
  end.

Fixpoint mapR {A B} (f : A -> result B) (l : list A) : result (list B) :=
  match l with
  | [] => Returns []
  | x :: r =>
      bindR (f x) (fun y => bindR (mapR f r) (fun r' => Returns (y :: r')))
  end.

Section Paths.

(** [isNaN(part)] and [parseInt(part)] on an arbitrary string. *)
Variable isNaN_part : string -> bool.
Variable parseInt_part : string -> JsNumber.

(** The loop of [getValue] over the parts that are left. *)
Fixpoint getValue_loop (parts : list string) (current : JsVal) : result JsVal :=
  match parts with
  | [] => Returns current
  | part :: rest =>
      if negb (truthy current) || negb (typeof_object current) then Returns JUndefined
      else
        let value := prop "value" current in
        if string_strict_eq "compound" (prop "type" current) && truthy value then
          bindR (js_get value part) (fun child =>
          if truthy child then getValue_loop rest child
          else Returns JUndefined)
        else if string_strict_eq "list" (prop "type" current) && truthy value
                && negb (isNaN_part part) then
          bindR (list_item value (parseInt_part part)) (fun found =>
          match found with
          | Some item => getValue_loop rest (item_tag value item)
          | None => Returns JUndefined
          end)
        else Returns JUndefined
  end.

Definition getValue (nbtData : JsVal) (path : string) : result JsVal :=
  getValue_loop (split_dot path) nbtData.

(** The loop of [setValue] that walks to the parent, followed by the
    assignment [set] there; the result is [current] after the assignment. *)
Fixpoint setValue_loop (set : JsVal -> result JsVal) (parts : list string)
    (current : JsVal) : result JsVal :=
  match parts with
  | [] => set current
  | part :: rest =>
      if negb (truthy current) || negb (typeof_object current) then Throws
      else
        let value := prop "value" current in
        if string_strict_eq "compound" (prop "type" current) && truthy value then
          bindR (js_get value part) (fun child =>
          if truthy child then
            bindR (setValue_loop set rest child) (fun child' =>
            Returns (with_value current (with_entry value part child')))
          else Throws)
        else if string_strict_eq "list" (prop "type" current) && truthy value
                && negb (isNaN_part part) then
          let index := parseInt_part part in
          bindR (list_item value index) (fun found =>
          match found with
          | Some item =>
              bindR (setValue_loop set rest (item_tag value item)) (fun wrapper =>
              Returns (with_value current (set_item value index (prop "value" wrapper))))
          | None => Throws
          end)
        else Throws
  end.

(** [typeof newValue === 'object' && newValue.type &&
     newValue.value !== undefined] *)
Definition is_tag (newValue : JsVal) : result bool :=
  match newValue with
  | JNull => Throws
  | JObject _ =>
      Returns (truthy (prop "type" newValue)
               && negb (match prop "value" newValue with JUndefined => true | _ => false end))
  | _ => Returns false
  end.

(** The assignment at the parent. *)
Definition setValue_at (lastPart : string) (newValue current : JsVal) : result JsVal :=
  let value := prop "value" current in
  if string_strict_eq "compound" (prop "type" current) && truthy value then
    bindR (is_tag newValue) (fun tagged =>
    bindR (js_set value lastPart (if tagged then newValue else autoDetectType newValue))
      (fun value' => Returns (with_value current value')))
  else if string_strict_eq "list" (prop "type" current) && truthy value
          && negb (isNaN_part lastPart) then
    let index := parseInt_part lastPart in
    bindR (list_item value index) (fun found =>
    match found with
    | Some _ =>
        bindR (is_tag newValue) (fun tagged =>
        Returns (with_value current
                   (set_item value index
                      (if tagged then prop "value" newValue else newValue))))
    | None => Throws
    end)
  else Throws.

(** [setValue] returns [nbtData], changed in place. *)
Definition setValue (nbtData : JsVal) (path : string) (newValue : JsVal) : result JsVal :=
  let parts := split_dot path in
  setValue_loop (setValue_at (last parts "") newValue) (removelast parts) nbtData.


(** ** The inventory manager

    An [InventoryManager] holds [playerData].  Its own [getValue] is the
    loop of [getValue] started at [this.playerData]; its [setValue] walks
    like [setValue] and assigns under a compound only, storing the new
    value as it is. *)

Definition InventoryManager_setValue_at (lastPart : string) (newValue current : JsVal)
  : result JsVal :=
  let value := prop "value" current in
  if string_strict_eq "compound" (prop "type" current) && truthy value then
    bindR (js_set value lastPart newValue) (fun value' =>
    Returns (with_value current value'))
  else Throws.

Definition InventoryManager_setValue (playerData : JsVal) (path : string)
    (newValue : JsVal) : result JsVal :=
  let parts := split_dot path in
  setValue_loop (InventoryManager_setValue_at (last parts "") newValue)
    (removelast parts) playerData.

(** [inventory?.value?.value || []] *)
Definition getInventory (playerData : JsVal) : result JsVal :=
  bindR (getValue playerData "Inventory") (fun inventory =>
  Returns (js_or_else (prop "value" (prop "value" inventory)) (JArray []))).

(** [{ type: 'list', value: { type: 'compound', value: newInventory } }] *)
Definition inventoryTag (newInventory : JsVal) : JsVal :=
  mkTag "list" (JObject [("type", JString "compound"); ("value", newInventory)]).

(** [setInventory] returns nothing; the result is the changed
    [playerData]. *)
Definition setInventory (playerData newInventory : JsVal) : result JsVal :=
  InventoryManager_setValue playerData "Inventory" (inventoryTag newInventory).

(** The callback of [removeBySlot]: [itemSlot?.value !== slot]. *)
Definition otherSlot (slot item : JsVal) : result bool :=
  bindR (getValue (mkTag "compound" item) "Slot") (fun itemSlot =>
  bindR (js_strict_eq (prop "value" itemSlot) slot) (fun same =>
  Returns (negb same))).

(** The number of items removed, and the changed [playerData]. *)
Definition removeBySlot (playerData slot : JsVal) : result (JsVal * JsVal) :=
  bindR (getInventory playerData) (fun inventory =>
  match inventory with
  | JArray items =>
      let initialCount := len items in
      bindR (filterR (otherSlot slot) items) (fun newInventory =>
      bindR (setInventory playerData (JArray newInventory)) (fun playerData' =>
      Returns (JInt (initialCount - len newInventory), playerData')))
  | _ => Throws                    (* inventory.filter is not a function *)
  end).

Definition clearInventory (playerData : JsVal) : result (JsVal * JsVal) :=
  bindR (getInventory playerData) (fun inventory =>
  bindR (js_length inventory) (fun itemCount =>
  bindR (setInventory playerData (JArray [])) (fun playerData' =>
  Returns (itemCount, playerData')))).

(** One row of [listItems]. *)
Definition listItem (item : JsVal) : result JsVal :=
  let lookup name := getValue (mkTag "compound" item) name in
  bindR (lookup "id") (fun id =>
  bindR (lookup "Count") (fun count =>
  bindR (lookup "Slot") (fun slot =>
  bindR (lookup "tag") (fun tag =>
  bindR (if truthy tag
         then bindR (getValue (mkTag "compound" tag) "Enchantments") (fun found =>
              Returns (JBool (truthy found)))
         else Returns (JBool false)) (fun hasEnchantments =>
  Returns (JObject [("id", prop "value" id); ("count", prop "value" count);
                    ("slot", prop "value" slot);
                    ("hasEnchantments", hasEnchantments)])))))).

Definition listItems (playerData : JsVal) : result JsVal :=
  bindR (getInventory playerData) (fun inventory =>
  match inventory with
  | JArray items => bindR (mapR listItem items) (fun rows => Returns (JArray rows))
  | _ => Throws                    (* inventory.map is not a function *)
  end).


(** ** Splitting a path *)

Lemma split_dot_nonempty s : split_dot s <> [].
Proof.
  destruct s as [|c r]; simpl; [discriminate|].
  destruct (Ascii.eqb c "."); [discriminate|].
  destruct (split_dot r); discriminate.
Qed.

Lemma split_dot_app p q :
  split_dot (p ++ "." ++ q) = (split_dot p ++ split_dot q)%list.
Proof.
  induction p as [|c r IH]; simpl.
  - reflexivity.
  - destruct (Ascii.eqb c ".").
    + simpl. now rewrite <- IH.
    + simpl in IH. rewrite IH.
      pose proof (split_dot_nonempty r) as Hne.
      destruct (split_dot r); [congruence|reflexivity].
Qed.


Lemma getValue_loop_undefined parts :
  parts <> [] -> getValue_loop parts JUndefined = Returns JUndefined.
Proof. destruct parts; [congruence|reflexivity]. Qed.

Lemma getValue_loop_app ps qs current :
  qs <> [] ->
  getValue_loop (ps ++ qs) current
  = bindR (getValue_loop ps current) (fun c => getValue_loop qs c).
Proof.
  intros Hq. revert current.
  induction ps as [|part rest IH]; intros current; [reflexivity|].
  cbn [app getValue_loop].
  destruct (negb (truthy current) || negb (typeof_object current)).
  { cbn [bindR]. now rewrite getValue_loop_undefined. }
  destruct (string_strict_eq "compound" (prop "type" current)
            && truthy (prop "value" current)).
  { destruct (js_get (prop "value" current) part) as [child| |]; cbn [bindR];
      [|reflexivity|reflexivity].
    destruct (truthy child); [apply IH|].
    cbn [bindR]. now rewrite getValue_loop_undefined. }
  destruct (string_strict_eq "list" (prop "type" current)
            && truthy (prop "value" current) && negb (isNaN_part part)).
  { destruct (list_item (prop "value" current) (parseInt_part part)) as [[item|]| |];
      cbn [bindR]; [apply IH| |reflexivity|reflexivity].
    now rewrite getValue_loop_undefined. }
  cbn [bindR]. now rewrite getValue_loop_undefined.
Qed.

(** X23.  A path is followed part by part: [getValue(d, p + '.' + q)] is
    [getValue(getValue(d, p), q)], with the same exception when the first
    lookup throws. *)
Theorem getValue_compose (nbtData : JsVal) (p q : string) :
  getValue nbtData (p ++ "." ++ q)
  = bindR (getValue nbtData p) (fun found => getValue found q).
Proof.
  unfold getValue. rewrite split_dot_app.
  apply getValue_loop_app, split_dot_nonempty.
Qed.

Lemma removelast_app_ne {A} (l r : list A) :
  r <> [] -> removelast (l ++ r) = (l ++ removelast r)%list.
Proof. intros H. now apply removelast_app. Qed.

Lemma setValue_loop_lost set ps qs current :
  getValue_loop ps current = Returns JUndefined ->
  (ps = [] -> current <> JUndefined) ->
  setValue_loop set (ps ++ qs) current = Throws.
Proof.
  revert current. induction ps as [|part rest IH]; intros current H Hc.
  { cbn in H. injection H as ->. now elim Hc. }
  cbn [app getValue_loop setValue_loop] in *.
  destruct (negb (truthy current) || negb (typeof_object current)); [reflexivity|].
  destruct (string_strict_eq "compound" (prop "type" current)
            && truthy (prop "value" current)).
  { destruct (js_get (prop "value" current) part) as [child| |]; cbn [bindR] in *;
      try discriminate.
    destruct (truthy child) eqn:Ht; [|reflexivity].
    rewrite IH; [reflexivity|assumption|].
    intros _ ->. discriminate. }
  destruct (string_strict_eq "list" (prop "type" current)
            && truthy (prop "value" current) && negb (isNaN_part part)); [|reflexivity].
  destruct (list_item (prop "value" current) (parseInt_part part)) as [[item|]| |];
    cbn [bindR] in *; try discriminate; [|reflexivity].
  rewrite IH; [reflexivity|assumption|].
  intros _. discriminate.
Qed.

(** X24.  [setValue] creates no missing level: when [getValue] finds
    nothing at [p], every assignment below [p] throws. *)
Theorem setValue_needs_parent (nbtData : JsVal) (p q : string) (newValue : JsVal)
  (Hlost : getValue nbtData p = Returns JUndefined) :
  setValue nbtData (p ++ "." ++ q) newValue = Throws.
Proof.
  unfold setValue, getValue in *. rewrite split_dot_app.
  rewrite removelast_app_ne by apply split_dot_nonempty.
  apply setValue_loop_lost; [assumption|].
  intros H. now apply split_dot_nonempty in H.
Qed.

(** ** Reading back what was assigned *)

Lemma Returns_inj {A} (a b : A) : Returns a = Returns b -> a = b.
Proof. congruence. Qed.

Lemma prop_with_entry_same props name x :
  prop name (with_entry (JObject props) name x) = x.
Proof.
  cbn [with_entry prop]. change (assoc_set name x props) with (map_set name x props).
  now rewrite map_get_set, String.eqb_refl.
Qed.

Lemma prop_with_entry_other props name name' x :
  name <> name' ->
  prop name' (with_entry (JObject props) name x) = prop name' (JObject props).
Proof.
  intros Hne. cbn [with_entry prop].
  change (assoc_set name x props) with (map_set name x props).
  rewrite map_get_set. now destruct (String.eqb_spec name name').
Qed.

Lemma js_get_with_entry props name x :
  js_get (with_entry (JObject props) name x) name = Returns x.
Proof.
  cbn [with_entry js_get]. change (assoc_set name x props) with (map_set name x props).
  now rewrite map_get_set, String.eqb_refl.
Qed.

Lemma js_get_with_entry_other props name name' x :
  name <> name' ->
  js_get (with_entry (JObject props) name x) name' = js_get (JObject props) name'.
Proof.
  intros Hne. cbn [with_entry js_get].
  change (assoc_set name x props) with (map_set name x props).
  rewrite map_get_set. now destruct (String.eqb_spec name name').
Qed.

Lemma string_prop_object s name v :
  string_strict_eq s (prop name v) = true -> exists props, v = JObject props.
Proof. destruct v; cbn; try discriminate. eauto. Qed.

Lemma with_value_object props v :
  exists props', with_value (JObject props) v = JObject props'
  /\ prop "value" (JObject props') = v
  /\ prop "type" (JObject props') = prop "type" (JObject props).
Proof.
  exists (assoc_set "value" v props). split; [reflexivity|]. split.
  - apply (prop_with_entry_same props "value" v).
  - apply (prop_with_entry_other props "value" "type" v). discriminate.
Qed.

Lemma with_entry_object props name x :
  exists props', with_entry (JObject props) name x = JObject props'
  /\ js_get (JObject props') name = Returns x.
Proof.
  exists (assoc_set name x props). split; [reflexivity|].
  apply (js_get_with_entry props name x).
Qed.

(** One step of [getValue] through a compound and through a list. *)
Lemma getValue_loop_compound part rest props value child :
  string_strict_eq "compound" (prop "type" (JObject props)) = true ->
  prop "value" (JObject props) = value -> truthy value = true ->
  js_get value part = Returns child -> truthy child = true ->
  getValue_loop (part :: rest) (JObject props) = getValue_loop rest child.
Proof.
  intros Hc Hval Hv Hg Ht. cbn [getValue_loop truthy typeof_object negb orb].
  rewrite Hc, Hval, Hv, Hg. cbn [andb bindR]. now rewrite Ht.
Qed.

Lemma getValue_loop_list part rest props value item :
  string_strict_eq "list" (prop "type" (JObject props)) = true ->
  prop "value" (JObject props) = value -> truthy value = true ->
  isNaN_part part = false ->
  list_item value (parseInt_part part) = Returns (Some item) ->
  getValue_loop (part :: rest) (JObject props)
  = getValue_loop rest (item_tag value item).
Proof.
  intros Hl Hval Hv Hn Hi. cbn [getValue_loop truthy typeof_object negb orb].
  replace (string_strict_eq "compound" (prop "type" (JObject props))) with false.
  2:{ destruct (prop "type" (JObject props)) as [| | | | |s| |]; try discriminate.
      unfold string_strict_eq in *. apply String.eqb_eq in Hl as <-. reflexivity. }
  rewrite Hl, Hval, Hv, Hn, Hi. reflexivity.
Qed.

Lemma nth_error_list_update {A} (l : list A) i x y :
  nth_error l i = Some y -> nth_error (list_update l i x) i = Some x.
Proof.
  revert i. induction l as [|a l IH]; intros [|i]; cbn; try discriminate; auto.
Qed.

Lemma list_item_set_item value index item x :
  list_item value index = Returns (Some item) ->
  list_item (set_item value index x) index = Returns (Some x)
  /\ prop "type" (set_item value index x) = prop "type" value
  /\ truthy (set_item value index x) = true.
Proof.
  unfold list_item, set_item. destruct index as [i| | |]; try discriminate.
  destruct (i <? 0); [discriminate|].
  destruct value as [| | | | | | |props]; cbn [prop]; try discriminate.
  destruct (map_get "value" props) as [[| | | | | |items|]|] eqn:E; try discriminate.
  intros H. injection H as H. unfold with_value.
  rewrite prop_with_entry_same, prop_with_entry_other by discriminate.
  cbn [prop truthy with_entry]. now rewrite (nth_error_list_update _ _ x item).
Qed.

(** What an assignment returns is [current] with another [value]. *)
Definition changes_value (set : JsVal -> result JsVal) : Prop :=
  forall current current', set current = Returns current' ->
  exists props v, current = JObject props /\ current' = with_value current v.

Lemma setValue_loop_changes_value set :
  changes_value set -> forall parts, changes_value (setValue_loop set parts).
Proof.
  intros Hset parts. destruct parts as [|part rest]; [exact Hset|].
  intros current current'. cbn [setValue_loop].
  destruct (negb (truthy current) || negb (typeof_object current)); [discriminate|].
  destruct (string_strict_eq "compound" (prop "type" current)
            && truthy (prop "value" current)) eqn:Hc.
  { apply andb_prop in Hc as [Hc _]. apply string_prop_object in Hc as [props ->].
    destruct (js_get _ part) as [child| |]; cbn [bindR]; try discriminate.
    destruct (truthy child); [|discriminate].
    destruct (setValue_loop set rest child); cbn [bindR]; try discriminate.
    intros H. injection H as <-. do 2 eexists; split; reflexivity. }
  destruct (string_strict_eq "list" (prop "type" current)
            && truthy (prop "value" current) && negb (isNaN_part part)) eqn:Hl;
    [|discriminate].
  apply andb_prop in Hl as [Hl _]. apply andb_prop in Hl as [Hl _].
  apply string_prop_object in Hl as [props ->].
  destruct (list_item _ _) as [[item|]| |]; cbn [bindR]; try discriminate.
  destruct (setValue_loop set rest _); cbn [bindR]; try discriminate.
  intros H. injection H as <-. do 2 eexists; split; reflexivity.
Qed.

Lemma setValue_at_changes_value lastPart newValue :
  changes_value (setValue_at lastPart newValue).
Proof.
  intros current current'. unfold setValue_at.
  destruct (string_strict_eq "compound" (prop "type" current)
            && truthy (prop "value" current)) eqn:Hc.
  { apply andb_prop in Hc as [Hc _]. apply string_prop_object in Hc as [props ->].
    destruct (is_tag newValue); cbn [bindR]; try discriminate.
    destruct (js_set _ _ _); cbn [bindR]; try discriminate.
    intros H. injection H as <-. do 2 eexists; split; reflexivity. }
  destruct (string_strict_eq "list" (prop "type" current)
            && truthy (prop "value" current) && negb (isNaN_part lastPart)) eqn:Hl;
    [|discriminate].
  apply andb_prop in Hl as [Hl _]. apply andb_prop in Hl as [Hl _].
  apply string_prop_object in Hl as [props ->].
  destruct (list_item _ _) as [[item|]| |]; cbn [bindR]; try discriminate.
  destruct (is_tag newValue); cbn [bindR]; try discriminate.
  intros H. injection H as <-. do 2 eexists; split; reflexivity.
Qed.

(** An assignment [set] that stores [stored] under [lastPart] of a
    compound. *)
Definition stores (set : JsVal -> result JsVal) (lastPart : string) (stored : JsVal) : Prop :=
  forall current current', set current = Returns current' ->
  getValue_loop [lastPart] current' = Returns stored.

Lemma getValue_after_setValue_loop set lastPart stored :
  changes_value set -> stores set lastPart stored ->
  forall parts current current',
  setValue_loop set parts current = Returns current' ->
  getValue_loop (parts ++ [lastPart]) current' = Returns stored.
Proof.
  intros Hshape Hstores parts.
  induction parts as [|part rest IH]; intros current current' H.
  { exact (Hstores _ _ H). }
  cbn [setValue_loop] in H. cbn [app].
  destruct (negb (truthy current) || negb (typeof_object current)); [discriminate|].
  destruct (string_strict_eq "compound" (prop "type" current)
            && truthy (prop "value" current)) eqn:Hc.
  { apply andb_prop in Hc as [Hc Hv].
    destruct (string_prop_object _ _ _ Hc) as [props ->].
    destruct (js_get (prop "value" (JObject props)) part) as [child| |] eqn:Hg;
      cbn [bindR] in H; try discriminate.
    destruct (truthy child) eqn:Ht; [|discriminate].
    destruct (setValue_loop set rest child) as [child'| |] eqn:Hs;
      cbn [bindR] in H; try discriminate.
    apply Returns_inj in H. subst current'.
    destruct (setValue_loop_changes_value set Hshape rest _ _ Hs) as (cprops & v & -> & Hc').
    destruct (prop "value" (JObject props)) as [| | | | | | |vprops] eqn:Hval;
      try discriminate.
    destruct (with_entry_object vprops part child') as (vprops' & -> & Hg').
    destruct (with_value_object props (JObject vprops')) as (props' & -> & Hval' & Hty).
    rewrite (getValue_loop_compound part _ props' (JObject vprops') child');
      [exact (IH _ _ Hs)|congruence|assumption|reflexivity|assumption|].
    subst child'. now destruct (with_value_object cprops v) as (? & -> & _). }
  destruct (string_strict_eq "list" (prop "type" current)
            && truthy (prop "value" current) && negb (isNaN_part part)) eqn:Hl;
    [|discriminate].
  apply andb_prop in Hl as [Hl Hn]. apply andb_prop in Hl as [Hl Hv].
  apply negb_true_iff in Hn.
  destruct (string_prop_object _ _ _ Hl) as [props ->].
  set (value := prop "value" (JObject props)) in *.
  destruct (list_item value _) as [[item|]| |] eqn:Hi; cbn [bindR] in H; try discriminate.
  destruct (setValue_loop set rest _) as [wrapper| |] eqn:Hs;
    cbn [bindR] in H; try discriminate.
  apply Returns_inj in H. subst current'.
  destruct (setValue_loop_changes_value set Hshape rest _ _ Hs) as (wprops & v & Hw & Hw').
  destruct (list_item_set_item _ _ _ (prop "value" wrapper) Hi) as (Hi' & Ht' & Htr).
  destruct (with_value_object props (set_item value (parseInt_part part) (prop "value" wrapper)))
    as (props' & -> & Hval' & Hty).
  rewrite (getValue_loop_list part (rest ++ [lastPart])%list props'
             (set_item value (parseInt_part part) (prop "value" wrapper))
             (prop "value" wrapper));
    [|congruence|assumption|assumption|assumption|assumption].
  rewrite <- (IH _ _ Hs). f_equal.
  unfold item_tag. rewrite Ht'. subst wrapper. unfold item_tag. reflexivity.
Qed.

Lemma is_tag_truthy newValue : is_tag newValue = Returns true -> truthy newValue = true.
Proof. destruct newValue; cbn; try discriminate; reflexivity. Qed.

Lemma autoDetectType_truthy v : truthy (autoDetectType v) = true.
Proof.
  destruct v as [| |b|[z| | |]| | |[|first elems]|]; cbn [autoDetectType]; try reflexivity.
  destruct ((-128 <=? z) && (z <=? 127)); [reflexivity|].
  destruct ((-32768 <=? z) && (z <=? 32767)); [reflexivity|].
  destruct ((-2147483648 <=? z) && (z <=? 2147483647)); reflexivity.
Qed.

Lemma setValue_at_stores lastPart newValue tagged :
  isNaN_part lastPart = true ->
  is_tag newValue = Returns tagged ->
  stores (setValue_at lastPart newValue) lastPart
         (if tagged then newValue else autoDetectType newValue).
Proof.
  intros Hnan Htag current current'. unfold setValue_at.
  rewrite Hnan, andb_false_r, Htag. cbn [bindR].
  destruct (string_strict_eq "compound" (prop "type" current)
            && truthy (prop "value" current)) eqn:Hc; [|discriminate].
  apply andb_prop in Hc as [Hc Hv].
  destruct (string_prop_object _ _ _ Hc) as [props ->].
  set (stored := if tagged then newValue else autoDetectType newValue).
  assert (Hst : truthy stored = true).
  { subst stored. destruct tagged; [now apply is_tag_truthy|apply autoDetectType_truthy]. }
  destruct (prop "value" (JObject props)) as [| | | | | | |vprops] eqn:Hval;
    try discriminate.
  unfold js_set. destruct (is_proto lastPart); cbn [bindR]; [discriminate|].
  intros H. apply Returns_inj in H. subst current'.
  destruct (with_entry_object vprops lastPart stored) as (vprops' & -> & Hg').
  destruct (with_value_object props (JObject vprops')) as (props' & -> & Hval' & Hty).
  rewrite (getValue_loop_compound lastPart [] props' (JObject vprops') stored);
    [reflexivity|congruence|assumption|reflexivity|assumption|assumption].
Qed.

Lemma app_removelast_last_string (parts : list string) :
  parts <> [] -> (removelast parts ++ [last parts ""])%list = parts.
Proof. intros H. symmetry. now apply app_removelast_last. Qed.

(** X25.  What [setValue] assigns under a compound, [getValue] reads back
    along the same path: the new value itself when it is a tag, the tag
    inferred for it when it is not. *)
Theorem getValue_setValue (nbtData : JsVal) (path : string) (newValue : JsVal)
    (tagged : bool) (changed : JsVal)
  (Hname : isNaN_part (last (split_dot path) "") = true)
  (Htag : is_tag newValue = Returns tagged)
  (Hset : setValue nbtData path newValue = Returns changed) :
  getValue changed path
  = Returns (if tagged then newValue else autoDetectType newValue).
Proof.
  unfold setValue in Hset. unfold getValue.
  rewrite <- (app_removelast_last_string (split_dot path)) at 1
    by apply split_dot_nonempty.
  eapply getValue_after_setValue_loop; [| |exact Hset].
  - apply setValue_at_changes_value.
  - now apply setValue_at_stores.
Qed.

(** ** The inventory *)

Lemma getValue_key (key : string) props entries :
  split_dot key = [key] -> inherited key = false ->
  prop "type" (JObject props) = JString "compound" ->
  prop "value" (JObject props) = JObject entries ->
  getValue (JObject props) key
  = Returns match map_get key entries with
            | Some found => if truthy found then found else JUndefined
            | None => JUndefined
            end.
Proof.
  intros Hkey Hin Hty Hval. unfold getValue. rewrite Hkey.
  cbn [getValue_loop truthy typeof_object negb orb]. rewrite Hty, Hval.
  cbn [string_strict_eq String.eqb Ascii.eqb Bool.eqb truthy andb js_get].
  destruct (map_get key entries) as [found|]; cbn [bindR].
  - now destruct (truthy found).
  - rewrite Hin. reflexivity.
Qed.

Lemma setInventory_compound props entries newInventory :
  prop "type" (JObject props) = JString "compound" ->
  prop "value" (JObject props) = JObject entries ->
  exists props',
    setInventory (JObject props) newInventory = Returns (JObject props')
    /\ prop "type" (JObject props') = JString "compound"
    /\ prop "value" (JObject props')
       = JObject (assoc_set "Inventory" (inventoryTag newInventory) entries).
Proof.
  intros Hty Hval.
  destruct (with_value_object props
              (with_entry (JObject entries) "Inventory" (inventoryTag newInventory)))
    as (props' & E & Hval' & Hty').
  exists props'. split; [|split; [congruence|exact Hval']].
  unfold setInventory, InventoryManager_setValue.
  change (split_dot "Inventory") with ["Inventory"].
  cbn [last removelast setValue_loop]. unfold InventoryManager_setValue_at.
  rewrite Hty, Hval. cbn [string_strict_eq String.eqb Ascii.eqb Bool.eqb truthy andb].
  cbn [js_set]. change (is_proto "Inventory") with false. cbv iota.
  cbn [bindR]. now rewrite <- E.
Qed.

Lemma getInventory_compound props entries :
  prop "type" (JObject props) = JString "compound" ->
  prop "value" (JObject props) = JObject entries ->
  getInventory (JObject props)
  = Returns (js_or_else
               (prop "value"
                  (prop "value"
                     match map_get "Inventory" entries with
                     | Some found => if truthy found then found else JUndefined
                     | None => JUndefined
                     end))
               (JArray [])).
Proof.
  intros Hty Hval. unfold getInventory.
  rewrite (getValue_key "Inventory" props entries); auto.
Qed.

Lemma setInventory_held props entries items :
  prop "type" (JObject props) = JString "compound" ->
  prop "value" (JObject props) = JObject entries ->
  exists props',
    setInventory (JObject props) (JArray items) = Returns (JObject props')
    /\ prop "type" (JObject props') = JString "compound"
    /\ prop "value" (JObject props')
       = JObject (assoc_set "Inventory" (inventoryTag (JArray items)) entries)
    /\ getInventory (JObject props') = Returns (JArray items).
Proof.
  intros Hty Hval.
  destruct (setInventory_compound props entries (JArray items) Hty Hval)
    as (props' & Hset & Hty' & Hval').
  exists props'. repeat split; try assumption.
  rewrite (getInventory_compound props' _ Hty' Hval').
  change (assoc_set "Inventory" (inventoryTag (JArray items)) entries)
    with (map_set "Inventory" (inventoryTag (JArray items)) entries).
  rewrite map_get_set. reflexivity.
Qed.

(** X26.  On a compound, [getInventory] after [setInventory(items)]
    returns [items], and no other entry of the player data has changed. *)
Theorem getInventory_setInventory (playerData : JsVal)
    (entries : list (string * JsVal)) (items : list JsVal)
  (Htype : prop "type" playerData = JString "compound")
  (Hvalue : prop "value" playerData = JObject entries) :
  exists changed,
    setInventory playerData (JArray items) = Returns changed
    /\ getInventory changed = Returns (JArray items)
    /\ forall name, name <> "Inventory" ->
       js_get (prop "value" changed) name = js_get (JObject entries) name.
Proof.
  destruct playerData as [| | | | | | |props]; try discriminate.
  destruct (setInventory_held props entries items Htype Hvalue)
    as (props' & Hset & Hty' & Hval' & Hget).
  exists (JObject props'). split; [exact Hset|]. split; [exact Hget|].
  intros name Hne. rewrite Hval'.
  apply (js_get_with_entry_other entries "Inventory" name _ (not_eq_sym Hne)).
Qed.

(** X27.  [clearInventory] returns the number of items held and leaves an
    empty inventory. *)
Theorem clearInventory_empties (playerData : JsVal)
    (entries : list (string * JsVal)) (items : list JsVal)
  (Htype : prop "type" playerData = JString "compound")
  (Hvalue : prop "value" playerData = JObject entries)
  (Hheld : getInventory playerData = Returns (JArray items)) :
  exists changed,
    clearInventory playerData = Returns (JInt (len items), changed)
    /\ getInventory changed = Returns (JArray [])
    /\ listItems changed = Returns (JArray []).
Proof.
  destruct playerData as [| | | | | | |props]; try discriminate.
  destruct (setInventory_held props entries [] Htype Hvalue)
    as (props' & Hset & _ & _ & Hget).
  exists (JObject props'). unfold clearInventory, listItems.
  rewrite Hheld, Hget. cbn [bindR js_length]. rewrite Hset. now cbn.
Qed.

(** The items that [removeBySlot(slot)] keeps. *)
Definition keeps (slot item : JsVal) : bool :=
  match otherSlot slot item with
  | Returns true => true
  | _ => false
  end.

Definition is_object (v : JsVal) : Prop := exists props, v = JObject props.

Lemma getValue_of_item (key : string) props :
  split_dot key = [key] -> inherited key = false ->
  exists found, getValue (mkTag "compound" (JObject props)) key = Returns found
  /\ (found = JUndefined \/ map_get key props = Some found).
Proof.
  intros Hkey Hin. unfold mkTag.
  rewrite (getValue_key key [("type", JString "compound"); ("value", JObject props)]
             props Hkey Hin eq_refl eq_refl).
  destruct (map_get key props) as [found|]; [|eauto].
  destruct (truthy found); eauto.
Qed.

Lemma otherSlot_number n item :
  is_object item -> exists kept, otherSlot (JNum n) item = Returns kept.
Proof.
  intros [props ->]. unfold otherSlot.
  destruct (getValue_of_item "Slot" props eq_refl eq_refl) as (found & -> & _).
  cbn [bindR]. destruct (prop "value" found) as [| | |m| | | |]; cbn; eauto.
Qed.

Lemma filterR_keeps n items :
  Forall is_object items ->
  filterR (otherSlot (JNum n)) items = Returns (filter (keeps (JNum n)) items).
Proof.
  induction 1 as [|item items Hitem _ IH]; [reflexivity|].
  cbn [filterR filter]. unfold keeps at 1.
  destruct (otherSlot_number n item Hitem) as [kept ->].
  rewrite IH. cbn [bindR]. now destruct kept.
Qed.

(** X28.  [removeBySlot(slot)] keeps, in their order, the items whose
    [Slot] tag does not hold [slot], and returns how many it dropped;
    a second call with the same slot drops nothing. *)
Theorem removeBySlot_filters (playerData : JsVal)
    (entries : list (string * JsVal)) (items : list JsVal) (slot : JsNumber)
  (Htype : prop "type" playerData = JString "compound")
  (Hvalue : prop "value" playerData = JObject entries)
  (Hheld : getInventory playerData = Returns (JArray items))
  (Hitems : Forall is_object items) :
  let kept := filter (keeps (JNum slot)) items in
  exists changed changed',
    removeBySlot playerData (JNum slot)
    = Returns (JInt (len items - len kept), changed)
    /\ getInventory changed = Returns (JArray kept)
    /\ Forall (fun item => otherSlot (JNum slot) item = Returns true) kept
    /\ removeBySlot changed (JNum slot) = Returns (JInt 0, changed')
    /\ getInventory changed' = Returns (JArray kept).
Proof.
  intros kept.
  destruct playerData as [| | | | | | |props]; try discriminate.
  destruct (setInventory_held props entries kept Htype Hvalue)
    as (props' & Hset & Hty' & Hval' & Hget).
  assert (Hkept : Forall is_object kept).
  { apply Forall_forall. intros item Hin. apply filter_In in Hin as [Hin _].
    revert item Hin. now apply Forall_forall. }
  assert (Hagain : filter (keeps (JNum slot)) kept = kept).
  { subst kept. clear. induction items as [|item items IH]; [reflexivity|].
    cbn [filter]. destruct (keeps (JNum slot) item) eqn:E; [|exact IH].
    cbn [filter]. now rewrite E, IH. }
  destruct (setInventory_held props' _ kept Hty' Hval')
    as (props'' & Hset' & _ & _ & Hget').
  exists (JObject props'), (JObject props'').
  split; [|split; [exact Hget|split; [|split; [|exact Hget']]]].
  - unfold removeBySlot. rewrite Hheld. cbn [bindR].
    rewrite (filterR_keeps slot items Hitems). cbn [bindR].
    fold kept. now rewrite Hset.
  - apply Forall_forall. intros item Hin. apply filter_In in Hin as [_ Hk].
    unfold keeps in Hk.
    destruct (otherSlot (JNum slot) item) as [[|]| |]; congruence.
  - unfold removeBySlot. rewrite Hget. cbn [bindR].
    rewrite (filterR_keeps slot kept Hkept), Hagain. cbn [bindR].
    rewrite Hset'. now rewrite Z.sub_diag.
Qed.

(** The shape of a tag: an object with the properties [type] and
    [value] and no other. *)
Definition tag_shaped (tag : JsVal) : Prop :=
  exists type value, tag = JObject [("type", type); ("value", value)].

Definition plain_item (item : JsVal) : Prop :=
  exists props, item = JObject props
  /\ forall tag, map_get "tag" props = Some tag -> tag_shaped tag.

Lemma listItem_plain item :
  plain_item item ->
  exists row, listItem item = Returns row
  /\ prop "hasEnchantments" row = JBool false.
Proof.
  intros (props & -> & Htag). unfold listItem.
  destruct (getValue_of_item "id" props eq_refl eq_refl) as (id & -> & _).
  destruct (getValue_of_item "Count" props eq_refl eq_refl) as (count & -> & _).
  destruct (getValue_of_item "Slot" props eq_refl eq_refl) as (slot & -> & _).
  destruct (getValue_of_item "tag" props eq_refl eq_refl) as (tag & -> & Hfound).
  cbn [bindR].
  destruct Hfound as [->|Hfound].
  { cbn [truthy bindR]. eexists. split; reflexivity. }
  destruct (Htag tag Hfound) as (type & value & ->).
  cbn [truthy].
  destruct (getValue_of_item "Enchantments" [("type", type); ("value", value)]
              eq_refl eq_refl) as (found & -> & [->|Hf]).
  - cbn [bindR truthy]. eexists. split; reflexivity.
  - cbn in Hf. discriminate.
Qed.

(** X29.  [listItems] looks for [Enchantments] on the tag object of an
    item, not among the entries the tag holds: for items whose [tag] is a
    [{type, value}] object it reports [hasEnchantments: false], whatever
    the tag holds. *)
Theorem listItems_hasEnchantments (playerData : JsVal) (items : list JsVal)
  (Hheld : getInventory playerData = Returns (JArray items))
  (Hitems : Forall plain_item items) :
  exists rows,
    listItems playerData = Returns (JArray rows)
    /\ List.length rows = List.length items
    /\ Forall (fun row => prop "hasEnchantments" row = JBool false) rows.
Proof.
  unfold listItems. rewrite Hheld. cbn [bindR].
  assert (H : exists rows, mapR listItem items = Returns rows
            /\ List.length rows = List.length items
            /\ Forall (fun row => prop "hasEnchantments" row = JBool false) rows).
  { clear Hheld. induction Hitems as [|item items Hitem _ IH].
    - exists []. repeat split. constructor.
    - destruct IH as (rows & Hrows & Hlen & Hall).
      destruct (listItem_plain item Hitem) as (row & Hrow & Hflag).
      exists (row :: rows). cbn [mapR]. rewrite Hrow, Hrows. cbn [bindR List.length].
      repeat split; [congruence|]. now constructor. }
  destruct H as (rows & Hrows & Hlen & Hall). exists rows.
  rewrite Hrows. cbn [bindR]. auto.
Qed.

(** X30.  Assigning into a list stores the [value] of a tag and drops its
    type: [getValue] reads the element back under the element type of
    the list. *)
Theorem setValue_list_keeps_type (nbtData : JsVal) (part : string)
    (newValue : JsVal) (tagged : bool) (changed : JsVal)
  (Hlist : prop "type" nbtData = JString "list")
  (Hpart : split_dot part = [part])
  (Htag : is_tag newValue = Returns tagged)
  (Hset : setValue nbtData part newValue = Returns changed) :
  getValue changed part
  = Returns (item_tag (prop "value" nbtData)
               (if tagged then prop "value" newValue else newValue)).
Proof.
  unfold setValue, getValue in *. rewrite Hpart in *.
  cbn [last removelast setValue_loop] in Hset. unfold setValue_at in Hset.
  rewrite Hlist in Hset.
  cbn [string_strict_eq String.eqb Ascii.eqb Bool.eqb andb] in Hset.
  destruct nbtData as [| | | | | | |props]; try discriminate.
  set (value := prop "value" (JObject props)) in *.
  destruct (truthy value) eqn:Hv; [|discriminate].
  destruct (isNaN_part part) eqn:Hn; [discriminate|]. cbn [negb andb] in Hset.
  destruct (list_item value (parseInt_part part)) as [[item|]| |] eqn:Hi;
    cbn [bindR] in Hset; try discriminate.
  rewrite Htag in Hset. cbn [bindR] in Hset. apply Returns_inj in Hset.
  set (x := if tagged then prop "value" newValue else newValue) in *.
  destruct (list_item_set_item _ _ _ x Hi) as (Hi' & Ht' & Htr).
  destruct (with_value_object props (set_item value (parseInt_part part) x))
    as (props' & E & Hval' & Hty).
  rewrite E in Hset. subst changed.
  rewrite (getValue_loop_list part [] props' (set_item value (parseInt_part part) x) x);
    [|rewrite Hty, Hlist; reflexivity|assumption|assumption|assumption|assumption].
  cbn [getValue_loop]. unfold item_tag. now rewrite Ht'.
Qed.

End Paths.

(** ** A player file to run the functions on *)

(** [isNaN] and [parseInt] as they answer on a decimal integer literal and
    on a name made of letters. *)
Definition sample_isNaN (part : string) : bool :=
  match Number_of_string part with Some _ => false | None => true end.

Definition sample_parseInt (part : string) : JsNumber :=
  match Number_of_string part with Some z => NInt z | None => NNaN end.

Definition sample_item (id : string) (count slot : Z) : JsVal :=
  JObject [("id", mkTag "string" (JString id));
           ("Count", mkTag "byte" (JInt count));
           ("Slot", mkTag "byte" (JInt slot))].

(** A sword that carries an enchantment under its [tag]. *)
Definition sample_sword : JsVal :=
  JObject [("id", mkTag "string" (JString "minecraft:iron_sword"));
           ("Count", mkTag "byte" (JInt 1));
           ("Slot", mkTag "byte" (JInt 2));
           ("tag", mkTag "compound"
                     (JObject [("Enchantments",
                                mkTag "list"
                                  (mkList (JString "compound")
                                     [JObject [("id", mkTag "string" (JString "minecraft:sharpness"));
                                               ("lvl", mkTag "short" (JInt 3))]]))]))].

Definition sample_items : list JsVal :=
  [sample_item "minecraft:stone" 64 0; sample_item "minecraft:dirt" 3 1;
   sample_sword; sample_item "minecraft:torch" 16 0].

Definition sample_entries : list (string * JsVal) :=
  [("Health", mkTag "float" (JInt 20));
   ("Inventory", mkTag "list" (mkList (JString "compound") sample_items))].

Definition sample_player : JsVal := mkTag "compound" (JObject sample_entries).

(** The player after [setValue(player, 'Inventory.1.Count', 5)]. *)
Definition sample_player_recounted : JsVal :=
  mkTag "compound"
    (JObject [("Health", mkTag "float" (JInt 20));
              ("Inventory",
               mkTag "list"
                 (mkList (JString "compound")
                    [sample_item "minecraft:stone" 64 0;
                     sample_item "minecraft:dirt" 5 1;
                     sample_sword; sample_item "minecraft:torch" 16 0]))]).

Lemma setValue_needs_parent_witness :
  getValue sample_isNaN sample_parseInt sample_player "Motion" = Returns JUndefined /\
  setValue sample_isNaN sample_parseInt sample_player ("Motion" ++ "." ++ "x") (JInt 1)
  = Throws.
Proof.
  split; [reflexivity|].
  apply (setValue_needs_parent sample_isNaN sample_parseInt sample_player "Motion" "x").
  reflexivity.
Defined.

Lemma getValue_setValue_witness :
  setValue sample_isNaN sample_parseInt sample_player "Inventory.1.Count" (JInt 5)
  = Returns sample_player_recounted /\
  getValue sample_isNaN sample_parseInt sample_player_recounted "Inventory.1.Count"
  = Returns (mkTag "byte" (JInt 5)).
Proof.
  split; [reflexivity|].
  apply (getValue_setValue sample_isNaN sample_parseInt sample_player
           "Inventory.1.Count" (JInt 5) false sample_player_recounted);
    reflexivity.
Defined.

Lemma getInventory_setInventory_witness :
  exists changed,
    setInventory sample_isNaN sample_parseInt sample_player (JArray [sample_sword])
    = Returns changed
    /\ getInventory sample_isNaN sample_parseInt changed = Returns (JArray [sample_sword])
    /\ forall name, name <> "Inventory" ->
       js_get (prop "value" changed) name = js_get (JObject sample_entries) name.
Proof.
  apply (getInventory_setInventory sample_isNaN sample_parseInt sample_player
           sample_entries [sample_sword]); reflexivity.
Defined.

Lemma clearInventory_empties_witness :
  exists changed,
    clearInventory sample_isNaN sample_parseInt sample_player = Returns (JInt 4, changed)
    /\ getInventory sample_isNaN sample_parseInt changed = Returns (JArray [])
    /\ listItems sample_isNaN sample_parseInt changed = Returns (JArray []).
Proof.
  apply (clearInventory_empties sample_isNaN sample_parseInt sample_player
           sample_entries sample_items); reflexivity.
Defined.

Lemma removeBySlot_filters_witness :
  exists changed changed',
    removeBySlot sample_isNaN sample_parseInt sample_player (JInt 0)
    = Returns (JInt 2, changed)
    /\ getInventory sample_isNaN sample_parseInt changed
       = Returns (JArray [sample_item "minecraft:dirt" 3 1; sample_sword])
    /\ Forall (fun item => otherSlot sample_isNaN sample_parseInt (JInt 0) item = Returns true)
         [sample_item "minecraft:dirt" 3 1; sample_sword]
    /\ removeBySlot sample_isNaN sample_parseInt changed (JInt 0) = Returns (JInt 0, changed')
    /\ getInventory sample_isNaN sample_parseInt changed'
       = Returns (JArray [sample_item "minecraft:dirt" 3 1; sample_sword]).
Proof.
  apply (removeBySlot_filters sample_isNaN sample_parseInt sample_player
           sample_entries sample_items (NInt 0));
    [reflexivity|reflexivity|reflexivity|].
  repeat constructor; eexists; reflexivity.
Defined.

Lemma listItems_hasEnchantments_witness :
  exists rows,
    listItems sample_isNaN sample_parseInt sample_player = Returns (JArray rows)
    /\ List.length rows = 4%nat
    /\ Forall (fun row => prop "hasEnchantments" row = JBool false) rows.
Proof.
  apply (listItems_hasEnchantments sample_isNaN sample_parseInt sample_player
           sample_items); [reflexivity|].
  repeat constructor; eexists; (split; [reflexivity|]); intros tag Htag;
    cbn in Htag; try discriminate.
  injection Htag as <-. do 2 eexists. reflexivity.
Defined.

(** A list of Ints, and what [setValue(list, '1', { type: 'string',
    value: 'x' })] makes of it. *)
Definition sample_ints : JsVal := mkTag "list" (mkList (JString "int") [JInt 1; JInt 2]).

Definition sample_ints_assigned : JsVal :=
  mkTag "list" (mkList (JString "int") [JInt 1; JString "x"]).

Lemma setValue_list_keeps_type_witness :
  setValue sample_isNaN sample_parseInt sample_ints "1" (mkTag "string" (JString "x"))
  = Returns sample_ints_assigned /\
  getValue sample_isNaN sample_parseInt sample_ints_assigned "1"
  = Returns (JObject [("type", JString "int"); ("value", JString "x")]).
Proof.
  split; [reflexivity|].
  apply (setValue_list_keeps_type sample_isNaN sample_parseInt sample_ints "1"
           (mkTag "string" (JString "x")) true sample_ints_assigned);
    reflexivity.
Defined.
